(** * Oligomer encoding and Markov background model of word-analysis

    A shallow embedding of [src/lib/markov.c], of the option parsing and
    the reporting loop of [src/word-analysis/main.c], and of the counting
    of the Markov chain of [contrib/matrix-scan-quick/matrix.h].

    Conventions of the embedding.
    - A C [int] is a [Z] kept in the signed 32-bit range: the additions
      and multiplications that compute an index are followed by [wrap],
      the two's complement wrap-around of the usual ABIs; loop counters
      and buffer offsets stay below the bounds their loops test against
      and are left as they are.
    - A C [double] is an exact rational [Q] and its arithmetic the exact
      one, rounding left out, but where the rounding decides an integer:
      the expected count of the report is the product rounded to the
      nearest double ([round_double]) before it is cut to a [long].
    - A [char *] buffer is a [list ascii]; reading at or past its end yields
      the terminating NUL.  This is what C gives for a window of valid
      symbols, which lies before the terminator; a property that says a
      run is defined whatever the symbols are asks for the window to be
      inside the buffer ([inside]).
    - An array of doubles is a [list Q] indexed by [Z]; a read or a write
      outside the array is undefined behaviour, modelled by [None]. *)

From Stdlib Require Import ZArith QArith Qround Qabs Qpower Lia Lqa Ascii String
  List Bool Sorted PrimFloat SpecFloat FloatOps.
From stdpp Require Import base option list.

Local Open Scope Z_scope.

(** ** Machine integers *)

Definition wrap (z : Z) : Z := (z + 2 ^ 31) mod 2 ^ 32 - 2 ^ 31.

Definition int_range (z : Z) : Prop := - 2 ^ 31 <= z < 2 ^ 31.

(** ** Characters and buffers *)

Definition NUL : ascii := Ascii.zero.

(** [seq[i]] *)
Definition char_at (seq : list ascii) (i : Z) : ascii :=
  if i <? 0 then NUL else nth (Z.to_nat i) seq NUL.

Definition cstr (s : string) : list ascii := list_ascii_of_string s.

(** [static inline int char2int(char c)] *)
Definition char2int (c : ascii) : Z :=
  match c with
  | "a"%char | "A"%char => 0
  | "c"%char | "C"%char => 1
  | "g"%char | "G"%char => 2
  | "t"%char | "T"%char => 3
  | _ => -1
  end.

(** ** Encoders *)

(** The loop of [oligo2index_char]: [n] is [i + 1], so that the body
    runs for [i = n - 1] down to [0]. *)
Fixpoint oligo2index_char_loop (seq : list ascii) (pos : Z) (n : nat)
    (value s : Z) : Z :=
  match n with
  | O => value
  | S i =>
      let v := char2int (char_at seq (pos + Z.of_nat i)) in
      if v =? -1 then -1
      else oligo2index_char_loop seq pos i
             (wrap (value + wrap (s * v))) (wrap (s * 4))
  end.

(** [int oligo2index_char(char *seq, int pos, int l)] *)
Definition oligo2index_char (seq : list ascii) (pos l : Z) : Z :=
  oligo2index_char_loop seq pos (Z.to_nat l) 0 1.

(** The loop of [oligo2index_rc_char]: [n] iterations are left, the
    current one is at [i]. *)
Fixpoint oligo2index_rc_char_loop (seq : list ascii) (pos : Z) (n : nat)
    (i value s : Z) : Z :=
  match n with
  | O => value
  | S n' =>
      let v := char2int (char_at seq (pos + i)) in
      if v =? -1 then -1
      else oligo2index_rc_char_loop seq pos n' (i + 1)
             (wrap (value + wrap (s * (3 - v)))) (wrap (s * 4))
  end.

(** [int oligo2index_rc_char(char *seq, int pos, int l)] *)
Definition oligo2index_rc_char (seq : list ascii) (pos l : Z) : Z :=
  oligo2index_rc_char_loop seq pos (Z.to_nat l) 0 0 1.

(** ** Arrays *)

(** [a[i]], undefined outside the array *)
Definition rd {A : Type} (a : list A) (i : Z) : option A :=
  if i <? 0 then None else a !! Z.to_nat i.

(** [a[i] = x], undefined outside the array *)
Definition wr {A : Type} (a : list A) (i : Z) (x : A) : option (list A) :=
  if (0 <=? i) && (i <? Z.of_nat (length a)) then Some (<[Z.to_nat i := x]> a)
  else None.

(** ** The Markov model *)

(** [markov_t]: the order, the prefix probabilities [S] (4^order entries)
    and the transitions [T] (4^order rows of 4 entries, row-major); the
    fields [S] and [T] are [mS] and [mT] here. *)
Record markov_t : Type := Markov {
  order : Z;
  mS : list Q;
  mT : list Q
}.

(** The floor [1e-100] every entry is allocated with. *)
Definition floor_1e100 : Q := 1 # (10 ^ 100).

(** [(int) pow(4, order)]: 4^order truncated to an [int]; the conversion
    is undefined once the power leaves the [int] range. *)
Definition pow4_int (order : Z) : option Z :=
  if order <? 0 then Some 0
  else if order <=? 15 then Some (4 ^ order)
  else None.

(** [markov_t *new_markov(int order)] *)
Definition new_markov (order : Z) : option markov_t :=
  size ← pow4_int order;
  Some (Markov order
          (replicate (Z.to_nat size) floor_1e100)
          (replicate (Z.to_nat (wrap (size * 4))) floor_1e100)).

(** A data line of the frequency file as [fscanf] delivers it: the
    identifier and the frequency (the middle column is skipped).  The
    frequency is the value of the [float] stored, a finite number: a
    field stored as an infinity or as a NaN has no value here, and the
    sums and quotients of the frequencies are the exact ones (see
    [finite_nonnegative_file] for the files on which the sums of the
    code differ from them by rounding only). *)
Definition freq_line : Type := (list ascii * Q)%type.

(** The body of the reading loop of [load_markov]; [self] is [None] while
    the pointer is still [NULL]. *)
Definition load_line (self : option markov_t) (line : freq_line)
    : option markov_t :=
  let '(id, freq) := line in
  m ← match self with
      | None => new_markov (Z.of_nat (length id) - 1)
      | Some m => Some m
      end;
  let prefix_index := oligo2index_char id 0 (order m) in
  s ← rd (mS m) prefix_index;
  S' ← wr (mS m) prefix_index (s + freq)%Q;
  T' ← wr (mT m)
         (wrap (wrap (4 * prefix_index) + char2int (char_at id (order m))))
         freq;
  Some (Markov (order m) S' T').

(** The reading loop of [load_markov] over the data lines. *)
Fixpoint load_lines (lines : list freq_line) (self : option markov_t)
    : option (option markov_t) :=
  match lines with
  | [] => Some self
  | line :: rest => m ← load_line self line; load_lines rest (Some m)
  end.

(** [for (j = i; j < i + n; j++) sum += a[j];] *)
Fixpoint sum_range (a : list Q) (i : Z) (n : nat) (sum : Q) : option Q :=
  match n with
  | O => Some sum
  | S n' => x ← rd a i; sum_range a (i + 1) n' (sum + x)%Q
  end.

(** [for (j = i; j < i + n; j++) a[j] = a[j] / sum;] *)
Fixpoint div_range (a : list Q) (i : Z) (n : nat) (sum : Q)
    : option (list Q) :=
  match n with
  | O => Some a
  | S n' => x ← rd a i; a' ← wr a i (x / sum)%Q; div_range a' (i + 1) n' sum
  end.

(** [for (i = ...; i < bound; i += 4)] normalising the row at [i]; the
    fuel bounds the number of iterations. *)
Fixpoint normalize_rows (fuel : nat) (a : list Q) (i bound : Z)
    : option (list Q) :=
  if i <? bound then
    match fuel with
    | O => None
    | S fuel' =>
        sum ← sum_range a i 4 0%Q;
        a' ← div_range a i 4 sum;
        normalize_rows fuel' a' (i + 4) bound
    end
  else Some a.

(** The part of [load_markov] after [fclose]: "compute S & T". *)
Definition normalize_markov (self : markov_t) : option markov_t :=
  size ← pow4_int (order self);
  sum ← sum_range (mS self) 0 (Z.to_nat size) 0%Q;
  S' ← div_range (mS self) 0 (Z.to_nat size) sum;
  let bound := wrap (size * 4) in
  T' ← normalize_rows (Z.to_nat bound) (mT self) 0 bound;
  Some (Markov (order self) S' T').

(** [markov_t *load_markov(char *filename)], on the data lines of the
    file: the identifier and the frequency that each pass of the reading
    loop finds in [id] and [freq]; [load_markov_file] below reads them
    from the characters of the file.  With no data line [self] is still
    [NULL] when it is dereferenced. *)
Definition load_markov (lines : list freq_line) : option markov_t :=
  self ← load_lines lines None;
  m ← self;
  normalize_markov m.

(** The loop of [markov_P]: [n] iterations are left, the current one is
    at [i]. *)
Fixpoint markov_P_loop (self : markov_t) (seq : list ascii) (n : nat)
    (i : Z) (p : Q) : option Q :=
  match n with
  | O => Some p
  | S n' =>
      let suffix := char2int (char_at seq i) in
      let prefix := oligo2index_char seq (i - order self) (order self) in
      if (suffix =? -1) || (prefix =? -1) then Some 0%Q
      else
        t ← rd (mT self) (wrap (wrap (4 * prefix) + suffix));
        markov_P_loop self seq n' (i + 1) (p * t)%Q
  end.

(** [double markov_P(markov_t *self, char *seq, int pos, int length)] *)
Definition markov_P (self : markov_t) (seq : list ascii) (pos length : Z)
    : option Q :=
  let prefix := oligo2index_char seq pos (length - 1) in
  if prefix =? -1 then Some 0%Q
  else
    p ← rd (mS self) prefix;
    markov_P_loop self seq (Z.to_nat (length - order self)) (order self) p.

(** ** Doubles *)

(** The exponent of the leading bit of a positive rational: the [e] with
    [2^e <= x < 2^(e+1)]. *)
Definition floor_log2 (x : Q) : Z :=
  let e := Z.log2 (Qnum x) - Z.log2 (Z.pos (Qden x)) in
  if Qle_bool (2 ^ e) x then e else e - 1.

(** The integer nearest to [q], the even one of the two when [q] is half
    way between them. *)
Definition round_half_even (q : Q) : Z :=
  let f := Qfloor q in
  match (q - inject_Z f ?= 1 # 2)%Q with
  | Lt => f
  | Gt => f + 1
  | Eq => if Z.even f then f else f + 1
  end.

(** The binary64 number nearest to [x], ties to even: 53 bits of
    significand, the exponent of the last bit not below -1074; [None]
    when the result is an infinity. *)
Definition round_double (x : Q) : option Q :=
  if Qeq_bool x 0 then Some 0%Q
  else
    let e := Z.max (floor_log2 (Qabs x) - 52) (-1074) in
    let y := (inject_Z (round_half_even (x / 2 ^ e)) * 2 ^ e)%Q in
    if Qle_bool (2 ^ 1024) (Qabs y) then None else Some y.

(** [(double) z] for a [long] [z]. *)
Definition long2double (z : Z) : option Q := round_double (inject_Z z).

(** [a * b] on doubles. *)
Definition double_mul (a b : Q) : option Q := round_double (a * b).

(** ** The reporting loop of word-analysis *)

(** Modelled from the spec: [count.h] is not among the sources.  The count
    table "owns a mapping from oligomer index (0..4^L-1) to a 64-bit
    occurrence counter; owns a parallel boolean is-palindromic array; owns
    two scalar counters position_count and test_count"; [size] is the
    bound [main] iterates to. *)
Record count_t : Type := Count {
  size : Z;
  count_table : list Z;
  palindromic : list bool;
  position_count : Z;
  test_count : Z
}.

(** [(long) x] for a double [x]: truncation toward zero, undefined outside
    the 64-bit range. *)
Definition double2long (x : Q) : option Z :=
  let z := Z.quot (Qnum x) (Z.pos (Qden x)) in
  if (- 2 ^ 63 <=? z) && (z <? 2 ^ 63) then Some z else None.

(** [n_exp = N * p] of line 269 for the [long]s [n_exp] and [N] and the
    double [p]: [N] is converted to a double, the product is rounded to a
    double and converted to a [long]. *)
Definition stats_n_exp (N : Z) (p : Q) : option Z :=
  d ← long2double N;
  x ← double_mul d p;
  double2long x.

(** One line written by [fprintf] in the loop: the arguments of the call. *)
Inductive record : Type :=
| CountRecord (name id : list ascii) (freq : Q) (n : Z)
| EnrichRecord (name id : list ascii) (p : Q) (n n_exp : Z) (pv ev sig : Q).

Section Report.
(** The helpers of [count.c] and [binomial.c] and [log10], which are not
    among the sources. *)
Variable index2oligo : Z -> Z -> list ascii.
Variable index2oligo_char : Z -> Z -> list ascii.
Variable index2oligo_rc_char : Z -> Z -> list ascii.
Variable pbinom : Z -> Z -> Q -> Q.
Variable log10 : Q -> Q.

(** The options read by [main] that the loop uses. *)
Variable rc : bool.
Variable count_only : bool.
Variable oligo_length : Z.

Variable bg : markov_t.
Variable count : count_t.

(** The background probability of lines 265-268; [&&] reads
    [count->palindromic[i]] only when [rc] is set. *)
Definition stats_p (i : Z) : option Q :=
  p ← markov_P bg (index2oligo i oligo_length) 0 oligo_length;
  if rc then
    pal ← rd (palindromic count) i;
    Some (if negb pal then p * 2 else p)%Q
  else Some p.

(** The body of the loop for an index [i] whose count [n] is not zero,
    lines 250-287. *)
Definition stats_line (i n : Z) : option record :=
  let N := position_count count in
  let freq := (inject_Z n / inject_Z N)%Q in
  let name := index2oligo_char i oligo_length in
  let id :=
    if rc then name ++ cstr "|" ++ index2oligo_rc_char i oligo_length
    else name in
  if count_only then Some (CountRecord name id freq n)
  else
    p ← stats_p i;
    n_exp ← stats_n_exp N p;
    let pv := pbinom n N p in
    let ev := (pv * inject_Z (test_count count))%Q in
    let sig := (- log10 ev)%Q in
    Some (EnrichRecord name id p n n_exp pv ev sig).

(** [for (i = ...; i < count->size; i++)], [k] iterations left. *)
Fixpoint stats_loop (k : nat) (i : Z) : option (list record) :=
  match k with
  | O => Some []
  | S k' =>
      n ← rd (count_table count) i;
      if n =? 0 then stats_loop k' (i + 1)
      else
        line ← stats_line i n;
        rest ← stats_loop k' (i + 1);
        Some (line :: rest)
  end.

(** The "binomial stats on count table" part of [main]: the records in
    the order they are written. *)
Definition main_stats : option (list record) :=
  stats_loop (Z.to_nat (size count)) 0.
End Report.

(** ** The stream of the frequency file *)

(** A [FILE] open for reading, as far as [getc], [ungetc] and [feof] show
    it: the characters that are still to be read and the end-of-file
    indicator. *)
Record stream : Type := Stream {
  pending : list ascii;
  eof : bool
}.

(** [getc(fp)]: the next character, or [EOF], here [None], with the
    indicator set when no character is left. *)
Definition getc (fp : stream) : option ascii * stream :=
  match pending fp with
  | [] => (None, Stream [] true)
  | c :: r => (Some c, Stream r (eof fp))
  end.

(** [ungetc(c, fp)]: the character is pushed back and the indicator
    cleared; pushing [EOF] back does nothing. *)
Definition ungetc (c : option ascii) (fp : stream) : stream :=
  match c with
  | None => fp
  | Some c => Stream (c :: pending fp) false
  end.

(** [feof(fp)] *)
Definition feof (fp : stream) : bool := eof fp.

(** [mark == c] for the [int] that [getc] returned. *)
Definition mark_is (c : ascii) (mark : option ascii) : bool :=
  match mark with
  | Some m => Ascii.eqb m c
  | None => false
  end.

Definition newline : ascii := "010"%char.

(** The inner loop of [skip_comments],
    [while (!feof(fp) && mark != '\n') mark = getc(fp);], with at most
    [fuel] iterations: [None] when they do not suffice. *)
Fixpoint skip_line_loop (fuel : nat) (mark : option ascii) (fp : stream)
    : option stream :=
  if negb (feof fp) && negb (mark_is newline mark) then
    match fuel with
    | O => None
    | S fuel' =>
        let '(mark', fp') := getc fp in
        skip_line_loop fuel' mark' fp'
    end
  else Some fp.

(** The outer loop of [skip_comments], with at most [fuel] iterations;
    the inner loop gets one iteration for every pending character and one
    for the end of the file. *)
Fixpoint skip_comments_loop (fuel : nat) (fp : stream) : option stream :=
  if negb (feof fp) then
    match fuel with
    | O => None
    | S fuel' =>
        let '(mark, fp1) := getc fp in
        let fp2 := ungetc mark fp1 in
        if mark_is ";" mark || mark_is "#" mark then
          fp3 ← skip_line_loop (Datatypes.S (length (pending fp2))) mark fp2;
          skip_comments_loop fuel' fp3
        else Some fp2
    end
  else Some fp.

(** [static void skip_comments(FILE *fp)]: every pass of the outer loop
    but the last reads at least one character, so one pass for every
    pending character and one more suffice. *)
Definition skip_comments (fp : stream) : option stream :=
  skip_comments_loop (Datatypes.S (length (pending fp))) fp.

(** The loop of [next_line], with at most [fuel] iterations. *)
Fixpoint next_line_loop (fuel : nat) (fp : stream) : option stream :=
  match fuel with
  | O => None
  | S fuel' =>
      let '(mark, fp') := getc fp in
      if feof fp' || mark_is newline mark then Some fp'
      else next_line_loop fuel' fp'
  end.

(** [static void next_line(FILE *fp)] *)
Definition next_line (fp : stream) : option stream :=
  next_line_loop (Datatypes.S (length (pending fp))) fp.

(** ** The options of word-analysis *)

(** The options of [main], lines 87-93; a file name is [None] while the
    pointer is [NULL]. *)
Record options : Type := Options {
  opt_input_filename : option (list ascii);
  opt_output_filename : option (list ascii);
  opt_bg_filename : option (list ascii);
  opt_rc : bool;
  opt_noov : bool;
  opt_oligo_length : Z;
  opt_count_only : bool
}.

(** The default options. *)
Definition default_options : options :=
  Options None None None true false 1 false.

(** How the parsing loop ends: all arguments are read; [exit(0)] after
    the help or after the version; a fatal error.

    Modelled from the spec: [utils.h], with [ASSERT], [ENSURE] and
    [FATAL_ERROR], is not among the sources.  "Configuration errors
    (invalid oligomer length, unreadable background file, unreadable
    input/output stream): fatal, reported immediately, process terminates
    with nonzero status; never retried." *)
Inductive outcome : Type :=
| Parsed (o : options)
| ExitHelp
| ExitVersion
| Fatal.

(** [strcmp(arg, name) == 0] *)
Definition is_option (arg : list ascii) (name : string) : bool :=
  String.eqb (string_of_list_ascii arg) name.

Section Options.
(** [atoi] of the C library. *)
Variable atoi : list ascii -> Z.

(** The loop of lines 109-175 over the arguments [argv[i] ..]; an option
    with a value takes the next argument, whatever it is. *)
Fixpoint parse_options (args : list (list ascii)) (o : options) : outcome :=
  match args with
  | [] => Parsed o
  | arg :: rest =>
      if is_option arg "--help" || is_option arg "-h" then ExitHelp
      else if is_option arg "--version" then ExitVersion
      else if is_option arg "-expfreq" then
        match rest with
        | [] => Fatal
        | v :: rest' =>
            parse_options rest'
              (Options (opt_input_filename o) (opt_output_filename o) (Some v)
                 (opt_rc o) (opt_noov o) (opt_oligo_length o)
                 (opt_count_only o))
        end
      else if is_option arg "-count" then
        parse_options rest
          (Options (opt_input_filename o) (opt_output_filename o)
             (opt_bg_filename o) (opt_rc o) (opt_noov o)
             (opt_oligo_length o) true)
      else if is_option arg "-1str" then
        parse_options rest
          (Options (opt_input_filename o) (opt_output_filename o)
             (opt_bg_filename o) false (opt_noov o)
             (opt_oligo_length o) (opt_count_only o))
      else if is_option arg "-2str" then
        parse_options rest
          (Options (opt_input_filename o) (opt_output_filename o)
             (opt_bg_filename o) true (opt_noov o)
             (opt_oligo_length o) (opt_count_only o))
      else if is_option arg "-noov" then
        parse_options rest
          (Options (opt_input_filename o) (opt_output_filename o)
             (opt_bg_filename o) (opt_rc o) true
             (opt_oligo_length o) (opt_count_only o))
      else if is_option arg "-l" then
        match rest with
        | [] => Fatal
        | v :: rest' =>
            let l := atoi v in
            if (1 <=? l) && (l <=? 14) then
              parse_options rest'
                (Options (opt_input_filename o) (opt_output_filename o)
                   (opt_bg_filename o) (opt_rc o) (opt_noov o) l
                   (opt_count_only o))
            else Fatal
        end
      else if is_option arg "-i" then
        match rest with
        | [] => Fatal
        | v :: rest' =>
            parse_options rest'
              (Options (Some v) (opt_output_filename o) (opt_bg_filename o)
                 (opt_rc o) (opt_noov o) (opt_oligo_length o)
                 (opt_count_only o))
        end
      else if is_option arg "-o" then
        match rest with
        | [] => Fatal
        | v :: rest' =>
            parse_options rest'
              (Options (opt_input_filename o) (Some v) (opt_bg_filename o)
                 (opt_rc o) (opt_noov o) (opt_oligo_length o)
                 (opt_count_only o))
        end
      else Fatal
  end.
End Options.

(** ** The Markov chain of matrix-scan-quick *)

(** [struct Markov] of [matrix.h], the fields that [alloc], [word2index]
    and [count] use: the order, the number of rows, the vector [S] and
    the transition matrix [T], one row of four entries for each prefix. *)
Record MarkovChain : Type := Chain {
  chain_order : Z;
  chain_msize : Z;
  chain_S : list Q;
  chain_T : list (list Q)
}.

(** [void alloc(int o, double p=1.0)]: every entry of [S] starts at 1 and
    every entry of [T] at 0. *)
Definition Markov_alloc (o : Z) : option MarkovChain :=
  msize ← pow4_int o;
  Some (Chain o msize
          (replicate (Z.to_nat msize) 1%Q)
          (replicate (Z.to_nat msize) (replicate 4 0%Q))).

(** The loop of [word2index] over a word of character codes: [n]
    iterations are left, the current one is at [i]. *)
Fixpoint Markov_word2index_loop (word : list Z) (len : Z) (n : nat)
    (i idx P : Z) : option Z :=
  match n with
  | O => Some idx
  | S n' =>
      c ← rd word (len - i - 1);
      Markov_word2index_loop word len n' (i + 1)
        (wrap (idx + wrap (c * P))) (wrap (P * 4))
  end.

(** [int word2index(char *word, int len)] *)
Definition Markov_word2index (word : list Z) (len : Z) : option Z :=
  Markov_word2index_loop word len (Z.to_nat len) 0 0 1.

(** The body of the loop of [count] at [i]; [&s[i]] is the sequence
    without its first [i] codes. *)
Definition Markov_count_step (m : MarkovChain) (s : list Z) (i : Z)
    : option MarkovChain :=
  suffix ← rd s (i + chain_order m);
  prefix ← Markov_word2index (drop (Z.to_nat i) s) (chain_order m);
  row ← rd (chain_T m) prefix;
  t ← rd row suffix;
  row' ← wr row suffix (t + 1)%Q;
  T' ← wr (chain_T m) prefix row';
  p ← rd (chain_S m) prefix;
  S' ← wr (chain_S m) prefix (p + 1)%Q;
  Some (Chain (chain_order m) (chain_msize m) S' T').

Fixpoint Markov_count_loop (m : MarkovChain) (s : list Z) (n : nat) (i : Z)
    : option MarkovChain :=
  match n with
  | O => Some m
  | S n' =>
      m' ← Markov_count_step m s i;
      Markov_count_loop m' s n' (i + 1)
  end.

(** [void count(char *s, int len)] *)
Definition Markov_count (m : MarkovChain) (s : list Z) (len : Z)
    : option MarkovChain :=
  Markov_count_loop m s (Z.to_nat len) 0.

(** ** Definitions used to state the properties *)

(** The symbol values of the [n] characters of [seq] from [pos] on. *)
Definition symbols (seq : list ascii) (pos : Z) (n : nat) : list Z :=
  map (fun i => char2int (char_at seq (pos + Z.of_nat i)))
    (List.seq 0%nat n).

(** Every symbol of the window is one of A, C, G, T, in either case. *)
Definition valid_window (seq : list ascii) (pos l : Z) : Prop :=
  forall i, 0 <= i < l -> char2int (char_at seq (pos + i)) <> -1.

(** The boolean form of [valid_window]. *)
Definition valid_windowb (seq : list ascii) (pos l : Z) : bool :=
  forallb (fun v => negb (v =? -1)) (symbols seq pos (Z.to_nat l)).

(** The sum of [v_i * 4^(L-1-i)] over the positions of [vs], left to
    right: the first value is the most significant. *)
Fixpoint weighted_sum (vs : list Z) : Z :=
  match vs with
  | [] => 0
  | v :: r => v * 4 ^ Z.of_nat (length r) + weighted_sum r
  end.

(** The sum of [v_i * 4^i] over the positions of [vs], left to right. *)
Fixpoint lsb_sum (vs : list Z) : Z :=
  match vs with
  | [] => 0
  | v :: r => v + 4 * lsb_sum r
  end.

(** The characters of the window of length [l] at [pos]. *)
Definition window (seq : list ascii) (pos l : Z) : list ascii :=
  firstn (Z.to_nat l) (skipn (Z.to_nat pos) seq).

(** The complementary nucleotide: A<->T and C<->G, the case kept. *)
Definition complement (c : ascii) : ascii :=
  match c with
  | "A"%char => "T"%char | "T"%char => "A"%char
  | "C"%char => "G"%char | "G"%char => "C"%char
  | "a"%char => "t"%char | "t"%char => "a"%char
  | "c"%char => "g"%char | "g"%char => "c"%char
  | _ => c
  end.

(** The reverse-complement string: every symbol complemented, the order
    reversed. *)
Definition reverse_complement (s : list ascii) : list ascii :=
  rev (map complement s).

(** A model as [new_markov] allocates it: an order whose table sizes fit
    an [int], [4^order] prefix entries and four transitions per prefix. *)
Definition wf_markov (m : markov_t) : Prop :=
  0 <= order m <= 14 /\
  Z.of_nat (length (mS m)) = 4 ^ order m /\
  Z.of_nat (length (mT m)) = 4 * 4 ^ order m.

(** The entry [S[prefix]] and the entry [T[prefix, symbol]] of the
    transition matrix, row-major. *)
Definition S_entry (m : markov_t) (prefix : Z) : Q :=
  nth (Z.to_nat prefix) (mS m) 0%Q.

Definition T_entry (m : markov_t) (prefix symbol : Z) : Q :=
  nth (Z.to_nat (4 * prefix + symbol)) (mT m) 0%Q.

(** The product, for [i] from [i0] over [n] positions, of
    [T[index of seq[i-order..i), symbol of seq[i]]], multiplied onto [p]. *)
Fixpoint transition_product (m : markov_t) (seq : list ascii) (n : nat)
    (i : Z) (p : Q) : Q :=
  match n with
  | O => p
  | S n' =>
      transition_product m seq n' (i + 1)
        (p * T_entry m (oligo2index_char seq (i - order m) (order m))
                       (char2int (char_at seq i)))%Q
  end.

(** The likelihood as the specification words it, for a window of length
    [L] at offset 0: [S[index of seq[0..order))] times the product over
    [i = order .. L-1] of [T[index of seq[i-order..i), symbol of seq[i]]]. *)
Definition likelihood_spec (m : markov_t) (seq : list ascii) (L : Z) : Q :=
  transition_product m seq (Z.to_nat (L - order m)) (order m)
    (S_entry m (oligo2index_char seq 0 (order m))).

(** An order-1 model used in the examples: rows A, C, G, T. *)
Definition example_model : markov_t :=
  Markov 1
    [1 # 2; 1 # 4; 1 # 8; 1 # 8]%Q
    [1 # 2; 1 # 4; 1 # 8; 1 # 8;
     1 # 3; 1 # 3; 1 # 6; 1 # 6;
     1 # 4; 1 # 4; 1 # 4; 1 # 4;
     1 # 8; 1 # 8; 1 # 4; 1 # 2]%Q.

(** The sum of the entries of a table, added from left to right as the
    loops of [load_markov] do. *)
Definition Qsum (l : list Q) : Q := fold_left Qplus l 0%Q.

(** A table with every row of four entries divided by the sum of the
    row. *)
Fixpoint normalize_rows_list (a : list Q) : list Q :=
  match a with
  | x0 :: x1 :: x2 :: x3 :: rest =>
      let sum := Qsum [x0; x1; x2; x3] in
      (x0 / sum :: x1 / sum :: x2 / sum :: x3 / sum
         :: normalize_rows_list rest)%Q
  | _ => a
  end.

(** The data lines of a frequency file: for a model of order [k], the
    prefix index and the trailing symbol of a line, and the index of the
    entry of [T] the line writes. *)
Definition line_prefix (k : Z) (l : freq_line) : Z :=
  oligo2index_char (fst l) 0 k.

Definition line_symbol (k : Z) (l : freq_line) : Z :=
  char2int (char_at (fst l) k).

Definition line_T_index (k : Z) (l : freq_line) : Z :=
  wrap (wrap (4 * line_prefix k l) + line_symbol k l).

(** The frequency of the last line that writes the entry [t] of [T], if a
    line does. *)
Fixpoint last_write (k : Z) (lines : list freq_line) (t : Z) : option Q :=
  match lines with
  | [] => None
  | l :: rest =>
      match last_write k rest t with
      | Some f => Some f
      | None => if line_T_index k l =? t then Some (snd l) else None
      end
  end.

(** The entry [t] of [T] when the file has been read, before the rows are
    normalised, and the sum of the row of the prefix [p]. *)
Definition pre_entry (k : Z) (lines : list freq_line) (t : Z) : Q :=
  match last_write k lines t with
  | Some f => f
  | None => floor_1e100
  end.

Definition row_total (k : Z) (lines : list freq_line) (p : Z) : Q :=
  Qsum [pre_entry k lines (4 * p); pre_entry k lines (4 * p + 1);
        pre_entry k lines (4 * p + 2); pre_entry k lines (4 * p + 3)].

(** The sum of [S] when the file has been read, before it is normalised:
    the floor of each of the [4^k] entries and every frequency of the
    file. *)
Definition S_total (k : Z) (lines : list freq_line) : Q :=
  (inject_Z (4 ^ k) * floor_1e100 + Qsum (map snd lines))%Q.

(** The order a file gives its model: the length of the first identifier
    minus one. *)
Definition file_order (lines : list freq_line) : Z :=
  match lines with
  | [] => -1
  | l :: _ => Z.of_nat (length (fst l)) - 1
  end.

(** A well-formed file: at least one data line, and every identifier of
    length [order + 1] over {A,C,G,T}. *)
Definition well_formed_file (lines : list freq_line) : Prop :=
  lines <> [] /\
  Forall (fun l =>
            Z.of_nat (length (fst l)) = file_order lines + 1 /\
            valid_window (fst l) 0 (file_order lines + 1)) lines.

Definition nonnegative_file (lines : list freq_line) : Prop :=
  Forall (fun l => (0 <= snd l)%Q) lines.

(** The boolean forms of [well_formed_file] and [nonnegative_file]. *)
Definition well_formed_fileb (lines : list freq_line) : bool :=
  match lines with
  | [] => false
  | _ =>
      forallb (fun l =>
                 (Z.of_nat (length (fst l)) =? file_order lines + 1) &&
                 valid_windowb (fst l) 0 (file_order lines + 1)) lines
  end.

Definition nonnegative_fileb (lines : list freq_line) : bool :=
  forallb (fun l => Qle_bool 0 (snd l)) lines.

(** The largest finite [float], [(2^24 - 1) * 2^104]: what [%f] reads
    above it is stored as an infinity. *)
Definition FLT_MAX : Q := inject_Z ((2 ^ 24 - 1) * 2 ^ 104).

(** A file of finite frequencies that are not negative.  A frequency is
    the value of the [float] that [%f] stores; a field that is stored as
    an infinity or as a NaN has no value in [Q], and a file with such a
    field is not a list of [freq_line]. *)
Definition finite_nonnegative_file (lines : list freq_line) : Prop :=
  Forall (fun l => (0 <= snd l /\ snd l <= FLT_MAX)%Q) lines.

Definition finite_nonnegative_fileb (lines : list freq_line) : bool :=
  forallb (fun l => Qle_bool 0 (snd l) && Qle_bool (snd l) FLT_MAX) lines.

(** The pair of the prefix [p] and the symbol [c] is on no data line. *)
Definition unlisted (k : Z) (lines : list freq_line) (p c : Z) : Prop :=
  forall l, In l lines -> ~ (line_prefix k l = p /\ line_symbol k l = c).

(** The boolean form of [unlisted]. *)
Definition unlistedb (k : Z) (lines : list freq_line) (p c : Z) : bool :=
  forallb (fun l => negb ((line_prefix k l =? p) && (line_symbol k l =? c)))
    lines.

(** The transition [t] is listed and the last line that lists it gives the
    frequency 0. *)
Definition listed_zero (k : Z) (lines : list freq_line) (t : Z) : Prop :=
  exists f, last_write k lines t = Some f /\ (f == 0)%Q.

(** The sum of the four transitions of the prefix [p]. *)
Definition T_row_sum (m : markov_t) (p : Z) : Q :=
  Qsum [T_entry m p 0; T_entry m p 1; T_entry m p 2; T_entry m p 3].

(** Two frequency files of order 1: one that lists the four transitions
    of A with the frequency 0, one that lists AA alone. *)
Definition zero_file : list freq_line :=
  [(cstr "AA", 0%Q); (cstr "AC", 0%Q); (cstr "AG", 0%Q); (cstr "AT", 0%Q)].

Definition single_file : list freq_line := [(cstr "AA", 1%Q)].

Definition negative_file : list freq_line := [(cstr "AA", (-1) # 1)%Q].

Definition small_file : list freq_line :=
  [(cstr "AA", 3 # 10); (cstr "AC", 1 # 10); (cstr "CA", 2 # 10);
   (cstr "GT", 0); (cstr "TT", 4 # 10)]%Q.

(** The fields of a record that the properties speak of. *)
Definition record_p (r : record) : option Q :=
  match r with
  | CountRecord _ _ _ _ => None
  | EnrichRecord _ _ p _ _ _ _ _ => Some p
  end.

Definition record_n (r : record) : Z :=
  match r with
  | CountRecord _ _ _ n => n
  | EnrichRecord _ _ _ n _ _ _ _ => n
  end.

Definition record_n_exp (r : record) : option Z :=
  match r with
  | CountRecord _ _ _ _ => None
  | EnrichRecord _ _ _ _ n_exp _ _ _ => Some n_exp
  end.

Definition record_pv (r : record) : option Q :=
  match r with
  | CountRecord _ _ _ _ => None
  | EnrichRecord _ _ _ _ _ pv _ _ => Some pv
  end.

(** The indices [0 .. size - 1] in ascending order, and those among them
    whose count is not zero. *)
Definition indices (count : count_t) : list Z :=
  map Z.of_nat (List.seq 0%nat (Z.to_nat (size count))).

Definition nonzero_count (count : count_t) (i : Z) : bool :=
  match rd (count_table count) i with
  | Some n => negb (n =? 0)
  | None => false
  end.

Definition nonzero_indices (count : count_t) : list Z :=
  List.filter (nonzero_count count) (indices count).

(** Modelled from the spec: [count.c] is not among the sources.
    "decode(index, length) -> string: inverse of encode_forward, base-4
    digit expansion most-significant-first, mapped back to letters."  It
    stands for [index2oligo] and [index2oligo_char] in the examples. *)
Definition letter (v : Z) : ascii :=
  match v with
  | 0 => "A"%char
  | 1 => "C"%char
  | 2 => "G"%char
  | _ => "T"%char
  end.

Fixpoint decode_digits (index : Z) (l : nat) : list ascii :=
  match l with
  | O => []
  | S l' => decode_digits (index / 4) l' ++ [letter (index mod 4)]
  end.

Definition decode (index l : Z) : list ascii :=
  decode_digits index (Z.to_nat l).

(** Modelled from the spec: the reverse complement of the decoded word,
    standing for [index2oligo_rc_char] in the examples. *)
Definition decode_rc (index l : Z) : list ascii :=
  reverse_complement (decode index l).

(** Stand-ins for [pbinom] and [log10] in the examples; the properties
    are proved for every choice of the two functions. *)
Definition pbinom_example (n N : Z) (p : Q) : Q := 1%Q.

Definition log10_example (x : Q) : Q := 0%Q.

(** An order-0 model with uniform transitions, and the count table of a
    run at length 1 that met seven A and nothing else. *)
Definition uniform_model : markov_t :=
  Markov 0 [1]%Q [1 # 4; 1 # 4; 1 # 4; 1 # 4]%Q.

Definition example_count : count_t :=
  Count 4 [7; 0; 0; 0] [false; false; false; false] 7 4.

(** A second count table, with two counts that are not zero, and the
    records [main] writes for index 0 of [example_count] in enrichment
    mode, without and with folding. *)
Definition example_count2 : count_t :=
  Count 4 [2; 0; 1; 0] [false; false; false; false] 3 4.

Definition example_record : record :=
  EnrichRecord (cstr "A") (cstr "A") (1 # 4) 7 1 1 4 0.

Definition example_record_rc : record :=
  EnrichRecord (cstr "A") (cstr "A|T") (2 # 4) 7 3 1 4 0.

(** The record for the same index under the order-1 [example_model],
    whose likelihood at length 1 is [S[0]] whatever [index2oligo] writes. *)
Definition example_record_order1 : record :=
  EnrichRecord (cstr "A") (cstr "A") (1 # 2) 7 3 1 4 0.

(** The name field of a record. *)
Definition record_name (r : record) : list ascii :=
  match r with
  | CountRecord name _ _ _ => name
  | EnrichRecord name _ _ _ _ _ _ _ => name
  end.

(** The window of [l] characters at [pos] lies inside the buffer: the
    reads of the window are reads of characters the buffer holds. *)
Definition inside (seq : list ascii) (pos l : Z) : Prop :=
  0 <= pos /\ pos + l <= Z.of_nat (length seq).

(** What makes the report defined in enrichment mode: a well-formed
    background model with entries between 0 and 1, an oligomer no longer
    than [order + 1] that [index2oligo] writes inside its buffer, the
    palindromic flags under folding, and a position count below [2^52]. *)
Definition enrichment_ready (index2oligo : Z -> Z -> list ascii) (rc : bool)
    (oligo_length : Z) (bg : markov_t) (count : count_t) : Prop :=
  wf_markov bg /\
  oligo_length <= order bg + 1 /\
  Forall (fun x => 0 <= x /\ x <= 1)%Q (mS bg) /\
  Forall (fun x => 0 <= x /\ x <= 1)%Q (mT bg) /\
  (rc = true -> size count <= Z.of_nat (length (palindromic count))) /\
  0 <= position_count count < 2 ^ 52 /\
  forall i, 0 <= i < size count ->
    inside (index2oligo i oligo_length) 0 oligo_length.

(** The value of a primitive binary64 number, [None] for an infinity or
    a NaN, and the test that [round_double] gives the product, the
    quotient and the sum that the machine gives. *)
Definition double_value (f : float) : option Q :=
  match Prim2SF f with
  | S754_zero _ => Some 0%Q
  | S754_finite s m e =>
      Some ((if s then -1 else 1) * inject_Z (Z.pos m) * 2 ^ e)%Q
  | _ => None
  end.

Definition same_double (x : option Q) (f : float) : bool :=
  match x, double_value f with
  | Some a, Some b => Qeq_bool a b
  | None, None => true
  | _, _ => false
  end.

Definition round_double_agrees (a b : float) : bool :=
  match double_value a, double_value b with
  | Some qa, Some qb =>
      same_double (round_double (qa * qb)) (PrimFloat.mul a b) &&
      same_double (round_double (qa + qb)) (PrimFloat.add a b) &&
      (Qeq_bool qb 0 ||
       same_double (round_double (qa / qb)) (PrimFloat.div a b))
  | _, _ => true
  end.

Definition double_samples : list float :=
  [0x1.999999999999ap-4; 0x1.5555555555555p-2; 0x1.8p+0; 0x1.cp+2;
   0x1.bff2ee48e053p-333; 0x1.249ad2594c37dp+332; 0x1.fffffffffffffp+1023;
   0x1p-1074; 0x1.8p-1073; 0x1p-1022; 0x1.fffffffffffffp-1;
   0x1.0000000000001p+0; 0x1p+53; 0x1p+62; -0x1.6666666666666p-1;
   -0x1p-1030; 0x1.fe3544145e9d8p+78; 0x1p+512]%float.

(** The double nearest to 1/3, an order-0 model that gives it to every
    symbol, and the count table of a run that met one A in three
    positions. *)
Definition third : Q := 6004799503160661 # 18014398509481984.

Definition third_model : markov_t := Markov 0 [third] [1; 1; 1; 1]%Q.

Definition example_count3 : count_t :=
  Count 4 [1; 0; 0; 0] [false; false; false; false] 3 4.

(** The sum of the frequencies of the lines whose prefix is [p]. *)
Definition prefix_total (k : Z) (lines : list freq_line) (p : Z) : Q :=
  Qsum (map snd (List.filter (fun l => line_prefix k l =? p) lines)).

(** A comment line of the frequency file: a [;] or a [#], characters
    other than the newline, and the newline. *)
Definition comment_mark (c : ascii) : Prop := c = ";"%char \/ c = "#"%char.

Definition comment_line (l : list ascii) : Prop :=
  exists m body,
    l = m :: body ++ [newline] /\ comment_mark m /\ ~ In newline body.

(** The stream does not begin with a comment mark. *)
Definition no_comment_ahead (s : list ascii) : Prop :=
  match s with
  | [] => True
  | c :: _ => ~ comment_mark c
  end.

(** The indicator after a read that met [rest]: set when nothing was
    left. *)
Definition at_end (rest : list ascii) : bool :=
  match rest with
  | [] => true
  | _ => false
  end.

(** ** The reading loop of [load_markov] *)

(** The white space of [fscanf]: space, tab, newline, vertical tab, form
    feed and carriage return. *)
Definition is_space (c : ascii) : bool :=
  match c with
  | " "%char | "009"%char | "010"%char
  | "011"%char | "012"%char | "013"%char => true
  | _ => false
  end.

(** White space is skipped before a conversion. *)
Fixpoint skip_spaces (s : list ascii) : list ascii :=
  match s with
  | [] => []
  | c :: r => if is_space c then skip_spaces r else s
  end.

(** [%s]: the characters up to the next white space or the end of the
    file, and what follows them. *)
Fixpoint scan_word (s : list ascii) : list ascii * list ascii :=
  match s with
  | [] => ([], [])
  | c :: r =>
      if is_space c then ([], s)
      else let '(w, rest) := scan_word r in (c :: w, rest)
  end.

Section Reading.
(** [%f] of the C library on the pending characters, which start with no
    white space: the [float] it stores, if the input matches, and the
    characters it leaves.  [None] when the [float] is an infinity or a
    NaN, which has no value in [Q]. *)
Variable scan_float : list ascii -> option (option Q * list ascii).

(** [fscanf(fp, "%s\t%*s\t%f", id, &freq)]: what is stored in [id] and in
    [freq], [None] for the one that is left as it was, and the stream
    after the call; the indicator is set when the end of the file was
    met.  The run is undefined when the first field does not fit
    [char id[256]]. *)
Definition fscanf_line (fp : stream)
    : option (option (list ascii) * option Q * stream) :=
  match skip_spaces (pending fp) with
  | [] => Some (None, None, Stream [] true)
  | s1 =>
      let '(id, s2) := scan_word s1 in
      if (255 <? Z.of_nat (length id)) then None
      else
        match skip_spaces s2 with
        | [] => Some (Some id, None, Stream [] true)
        | s3 =>
            let '(_, s4) := scan_word s3 in
            match skip_spaces s4 with
            | [] => Some (Some id, None, Stream [] true)
            | s5 =>
                '(freq, s6) ← scan_float s5;
                Some (Some id, freq, Stream s6 (at_end s6))
            end
        end
  end.

(** One pass of the loop of lines 134-153 after the test of [feof]:
    [fscanf], whose result is not checked, [next_line], and the body on
    [id] and [freq].  The two are declared in the loop and not
    initialised: a pass in which [fscanf] does not store one of them
    finds what the pass before left there, and the first pass nothing
    defined. *)
Definition read_pass (fp : stream) (id : option (list ascii))
    (freq : option Q) (self : option markov_t)
    : option (stream * option (list ascii) * option Q * markov_t) :=
  '(id', freq', fp1) ← fscanf_line fp;
  fp2 ← next_line fp1;
  let id1 := match id' with Some _ => id' | None => id end in
  let freq1 := match freq' with Some _ => freq' | None => freq end in
  i ← id1;
  f ← freq1;
  m ← load_line self (i, f);
  Some (fp2, id1, freq1, m).

(** The loop [for (;;)] of lines 134-153, with at most [fuel] passes. *)
Fixpoint read_loop (fuel : nat) (fp : stream) (id : option (list ascii))
    (freq : option Q) (self : option markov_t) : option (option markov_t) :=
  match fuel with
  | O => None
  | S fuel' =>
      fp1 ← skip_comments fp;
      if feof fp1 then Some self
      else
        '(fp2, id', freq', m) ← read_pass fp1 id freq self;
        read_loop fuel' fp2 id' freq' (Some m)
  end.

(** [markov_t *load_markov(char *filename)] on the characters of the
    file; a pass of the loop reads at least one character. *)
Definition load_markov_file (text : list ascii) : option markov_t :=
  self ← read_loop (Datatypes.S (length text)) (Stream text false)
           None None None;
  m ← self;
  normalize_markov m.
End Reading.

(** A field of a data line, characters that are no white space, and the
    white space between two fields. *)
Definition field_text (w : list ascii) : Prop :=
  w <> [] /\ Forall (fun c => is_space c = false) w.

Definition blank_text (w : list ascii) : Prop :=
  w <> [] /\ Forall (fun c => is_space c = true) w.

(** The text of the data line of the record [l], without its newline:
    the identifier, a second field, the frequency as [scan_float] reads
    it, and what follows on the line. *)
Definition data_line (scan_float : list ascii -> option (option Q * list ascii))
    (l : freq_line) (text : list ascii) : Prop :=
  exists sep1 mid sep2 ftext tail,
    text = fst l ++ sep1 ++ mid ++ sep2 ++ ftext ++ tail /\
    field_text (fst l) /\ no_comment_ahead (fst l) /\
    Z.of_nat (length (fst l)) <= 255 /\
    blank_text sep1 /\ field_text mid /\ blank_text sep2 /\
    field_text ftext /\
    ~ In newline tail /\
    forall rest,
      scan_float (ftext ++ tail ++ newline :: rest) =
      Some (Some (snd l), tail ++ newline :: rest).

(** The text of a file with the data lines of the records [lines], each
    after any number of comment lines. *)
Inductive file_lines
    (scan_float : list ascii -> option (option Q * list ascii))
    : list freq_line -> list ascii -> Prop :=
| file_lines_nil : file_lines scan_float [] []
| file_lines_cons cs l t lines rest :
    Forall comment_line cs ->
    data_line scan_float l t ->
    file_lines scan_float lines rest ->
    file_lines scan_float (l :: lines) (concat cs ++ t ++ newline :: rest).

(** A scanner for the examples, which reads the one field [0.5], and a
    file of two data lines after a comment line. *)
Definition scan_half (s : list ascii) : option (option Q * list ascii) :=
  match s with
  | "0"%char :: "."%char :: "5"%char :: rest => Some (Some (1 # 2)%Q, rest)
  | _ => Some (None, s)
  end.

Definition half_lines : list freq_line :=
  [(cstr "AA", 1 # 2); (cstr "AC", 1 # 2)]%Q.

Definition half_text : list ascii :=
  cstr "; seq id freq" ++ [newline] ++
  cstr "AA aa 0.5 12" ++ [newline] ++
  cstr "AC ac 0.5" ++ [newline].

(** A decimal reading of a string of digits, for the examples. *)
Definition atoi_decimal (s : list ascii) : Z :=
  fold_left (fun acc c => 10 * acc + (Z.of_nat (nat_of_ascii c) - 48)) s 0.

(** A chain as [alloc] and [count] keep it: [4^order] rows of four
    entries, and each entry of [S] one more than the sum of its row of
    [T]. *)
Definition chain_rows (m : MarkovChain) : Prop :=
  0 <= chain_order m <= 14 /\
  chain_msize m = 4 ^ chain_order m /\
  Z.of_nat (length (chain_S m)) = chain_msize m /\
  Z.of_nat (length (chain_T m)) = chain_msize m /\
  Forall (fun row => length row = 4%nat) (chain_T m).

Definition chain_row_sums (m : MarkovChain) : Prop :=
  forall p sp row,
    chain_S m !! p = Some sp -> chain_T m !! p = Some row ->
    (sp == 1 + Qsum row)%Q.

(** * Properties *)

(** ** Machine integers *)

Lemma wrap_range z : int_range (wrap z).
Proof.
  unfold int_range, wrap.
  pose proof (Z.mod_pos_bound (z + 2 ^ 31) (2 ^ 32) ltac:(lia)). lia.
Qed.

Lemma wrap_small z : int_range z -> wrap z = z.
Proof.
  unfold int_range, wrap. intros Hz.
  rewrite Z.mod_small by lia. lia.
Qed.

Lemma wrap_congr a b : a mod 2 ^ 32 = b mod 2 ^ 32 -> wrap a = wrap b.
Proof.
  unfold wrap. intros H.
  rewrite (Z.add_mod a), (Z.add_mod b), H by lia. reflexivity.
Qed.

Lemma wrap_mod z : wrap z mod 2 ^ 32 = z mod 2 ^ 32.
Proof.
  unfold wrap.
  rewrite Zminus_mod_idemp_l. f_equal. lia.
Qed.

Lemma wrap_add_l a b : wrap (wrap a + b) = wrap (a + b).
Proof.
  apply wrap_congr.
  rewrite (Z.add_mod (wrap a)), wrap_mod, <- Z.add_mod by lia. reflexivity.
Qed.

Lemma wrap_add_r a b : wrap (a + wrap b) = wrap (a + b).
Proof. rewrite (Z.add_comm a), wrap_add_l. f_equal. lia. Qed.

Lemma wrap_mul_l a b : wrap (wrap a * b) = wrap (a * b).
Proof.
  apply wrap_congr.
  rewrite (Z.mul_mod (wrap a)), wrap_mod, <- Z.mul_mod by lia. reflexivity.
Qed.

(** ** Characters *)

Lemma char2int_range c : char2int c = -1 \/ 0 <= char2int c <= 3.
Proof.
  destruct c as [[] [] [] [] [] [] [] []]; vm_compute;
    first [ left; reflexivity | right; split; discriminate ].
Qed.

Lemma char2int_complement c :
  char2int c <> -1 -> char2int (complement c) = 3 - char2int c.
Proof.
  destruct c as [[] [] [] [] [] [] [] []]; vm_compute;
    first [ reflexivity | intros H; exfalso; apply H; reflexivity ].
Qed.

(** ** Encoders *)

Lemma symbols_snoc seq pos n :
  symbols seq pos (S n) =
  symbols seq pos n ++ [char2int (char_at seq (pos + Z.of_nat n))].
Proof. unfold symbols. rewrite seq_S, map_app. reflexivity. Qed.

Lemma symbols_cons seq pos n :
  symbols seq pos (S n) =
  char2int (char_at seq pos) :: symbols seq (pos + 1) n.
Proof.
  unfold symbols. simpl. f_equal.
  - f_equal. f_equal. lia.
  - rewrite <- seq_shift, map_map. apply map_ext. intros i.
    f_equal. f_equal. lia.
Qed.

Lemma symbols_length seq pos n : length (symbols seq pos n) = n.
Proof. unfold symbols. rewrite length_map, length_seq. reflexivity. Qed.

Lemma weighted_sum_snoc l v : weighted_sum (l ++ [v]) = 4 * weighted_sum l + v.
Proof.
  induction l as [|x l IH]; simpl; [lia|].
  rewrite IH, length_app. simpl length.
  replace (Z.of_nat (length l + 1)) with (Z.succ (Z.of_nat (length l))) by lia.
  rewrite Z.pow_succ_r by lia. lia.
Qed.

Lemma weighted_sum_rev l : weighted_sum (rev l) = lsb_sum l.
Proof.
  induction l as [|x l IH]; simpl; [reflexivity|].
  rewrite weighted_sum_snoc, IH. lia.
Qed.

Lemma wrap_step value a b W :
  wrap (wrap (value + wrap a) + wrap b * W) = wrap (value + (a + b * W)).
Proof.
  rewrite wrap_add_l.
  replace (value + wrap a + wrap b * W) with (wrap b * W + value + wrap a) by lia.
  rewrite wrap_add_r.
  replace (wrap b * W + value + a) with (value + a + wrap b * W) by lia.
  rewrite <- wrap_add_r, wrap_mul_l, wrap_add_r. f_equal. lia.
Qed.

Lemma oligo2index_char_loop_valid seq pos n : forall value s,
  (forall i, (i < n)%nat -> char2int (char_at seq (pos + Z.of_nat i)) <> -1) ->
  int_range value ->
  oligo2index_char_loop seq pos n value s =
  wrap (value + s * weighted_sum (symbols seq pos n)).
Proof.
  induction n as [|n IH]; intros value s Hv Hr.
  - simpl. rewrite Z.mul_0_r, Z.add_0_r, wrap_small; auto.
  - cbn [oligo2index_char_loop].
    destruct (Z.eqb_spec (char2int (char_at seq (pos + Z.of_nat n))) (-1)) as [E|_].
    { exfalso. apply (Hv n); [lia|exact E]. }
    rewrite IH; [|intros i Hi; apply Hv; lia|apply wrap_range].
    rewrite symbols_snoc, weighted_sum_snoc, wrap_step.
    f_equal. lia.
Qed.

Lemma oligo2index_char_loop_invalid seq pos n : forall value s,
  (exists i, (i < n)%nat /\ char2int (char_at seq (pos + Z.of_nat i)) = -1) ->
  oligo2index_char_loop seq pos n value s = -1.
Proof.
  induction n as [|n IH]; intros value s [i [Hi E]]; [lia|].
  cbn [oligo2index_char_loop].
  destruct (Z.eqb_spec (char2int (char_at seq (pos + Z.of_nat n))) (-1)) as [_|N];
    [reflexivity|].
  apply IH. exists i. split; [|exact E].
  destruct (Nat.eq_dec i n) as [->|]; [contradiction|lia].
Qed.

Lemma oligo2index_rc_char_loop_valid seq pos n : forall i value s,
  (forall j, (j < n)%nat ->
     char2int (char_at seq (pos + i + Z.of_nat j)) <> -1) ->
  int_range value ->
  oligo2index_rc_char_loop seq pos n i value s =
  wrap (value + s * lsb_sum (map (fun v => 3 - v) (symbols seq (pos + i) n))).
Proof.
  induction n as [|n IH]; intros i value s Hv Hr.
  - simpl. rewrite Z.mul_0_r, Z.add_0_r, wrap_small; auto.
  - cbn [oligo2index_rc_char_loop].
    destruct (Z.eqb_spec (char2int (char_at seq (pos + i))) (-1)) as [E|_].
    { exfalso. apply (Hv 0%nat); [lia|]. rewrite Z.add_0_r. exact E. }
    rewrite IH; [| |apply wrap_range].
    + rewrite symbols_cons. cbn [map lsb_sum].
      rewrite Z.add_assoc, wrap_step. f_equal. lia.
    + intros j Hj.
      replace (pos + (i + 1) + Z.of_nat j) with (pos + i + Z.of_nat (S j)) by lia.
      apply Hv. lia.
Qed.

Lemma oligo2index_rc_char_loop_invalid seq pos n : forall i value s,
  (exists j, (j < n)%nat /\
     char2int (char_at seq (pos + i + Z.of_nat j)) = -1) ->
  oligo2index_rc_char_loop seq pos n i value s = -1.
Proof.
  induction n as [|n IH]; intros i value s [j [Hj E]]; [lia|].
  cbn [oligo2index_rc_char_loop].
  destruct (Z.eqb_spec (char2int (char_at seq (pos + i))) (-1)) as [_|N];
    [reflexivity|].
  apply IH. destruct j as [|j].
  - rewrite Z.add_0_r in E. contradiction.
  - exists j. split; [lia|].
    replace (pos + (i + 1) + Z.of_nat j) with (pos + i + Z.of_nat (S j)) by lia.
    exact E.
Qed.

Lemma valid_windowb_spec seq pos l :
  valid_windowb seq pos l = true <-> valid_window seq pos l.
Proof.
  unfold valid_windowb, valid_window, symbols.
  rewrite forallb_forall. split.
  - intros H i Hi.
    specialize (H (char2int (char_at seq (pos + i)))).
    destruct (Z.eqb_spec (char2int (char_at seq (pos + i))) (-1)) as [E|N];
      [|exact N].
    exfalso. assert (Hin : In (char2int (char_at seq (pos + i)))
      (map (fun i => char2int (char_at seq (pos + Z.of_nat i)))
         (List.seq 0%nat (Z.to_nat l)))).
    { apply in_map_iff. exists (Z.to_nat i). split.
      + rewrite Z2Nat.id by lia. reflexivity.
      + apply in_seq. lia. }
    apply H in Hin. discriminate Hin.
  - intros H v Hin. apply in_map_iff in Hin as [i [<- Hi]].
    apply in_seq in Hi.
    destruct (Z.eqb_spec (char2int (char_at seq (pos + Z.of_nat i))) (-1)) as [E|N];
      [|reflexivity].
    exfalso. apply (H (Z.of_nat i)); [lia|exact E].
Qed.

Lemma valid_window_symbols seq pos l :
  valid_window seq pos l ->
  Forall (fun v => 0 <= v <= 3) (symbols seq pos (Z.to_nat l)).
Proof.
  intros H. unfold symbols. apply List.Forall_forall. intros v Hin.
  apply in_map_iff in Hin as [i [<- Hi]]. apply in_seq in Hi.
  destruct (char2int_range (char_at seq (pos + Z.of_nat i))) as [E|R]; [|exact R].
  exfalso. apply (H (Z.of_nat i)); [lia|exact E].
Qed.

Lemma weighted_sum_bounds vs :
  Forall (fun v => 0 <= v <= 3) vs ->
  0 <= weighted_sum vs < 4 ^ Z.of_nat (length vs).
Proof.
  induction 1 as [|v r Hv _ IH]; simpl length; cbn [weighted_sum]; [simpl; lia|].
  rewrite Nat2Z.inj_succ, Z.pow_succ_r by lia.
  assert (0 < 4 ^ Z.of_nat (length r)) by (apply Z.pow_pos_nonneg; lia).
  nia.
Qed.

Lemma weighted_sum_inj vs ws :
  Forall (fun v => 0 <= v <= 3) vs ->
  Forall (fun v => 0 <= v <= 3) ws ->
  length vs = length ws ->
  weighted_sum vs = weighted_sum ws ->
  vs = ws.
Proof.
  intros Hvs. revert ws.
  induction Hvs as [|v r Hv Hr IH]; intros ws Hws Hlen Heq.
  - destruct ws; [reflexivity|discriminate].
  - destruct ws as [|w ws]; [discriminate|].
    inversion Hws as [|? ? Hw Hws']; subst.
    simpl in Hlen. injection Hlen as Hlen.
    cbn [weighted_sum] in Heq. rewrite <- Hlen in Heq.
    pose proof (weighted_sum_bounds r Hr) as Br.
    pose proof (weighted_sum_bounds ws Hws') as Bw.
    rewrite <- Hlen in Bw.
    assert (v = w) by nia. subst w.
    f_equal. apply IH; auto. lia.
Qed.

Lemma oligo2index_char_valid seq pos l :
  valid_window seq pos l ->
  oligo2index_char seq pos l =
  wrap (weighted_sum (symbols seq pos (Z.to_nat l))).
Proof.
  intros H. unfold oligo2index_char.
  rewrite oligo2index_char_loop_valid.
  - f_equal. lia.
  - intros i Hi. apply H. lia.
  - unfold int_range. lia.
Qed.

Lemma oligo2index_char_invalid seq pos l :
  (exists i, 0 <= i < l /\ char2int (char_at seq (pos + i)) = -1) ->
  oligo2index_char seq pos l = -1.
Proof.
  intros [i [Hi E]]. unfold oligo2index_char.
  apply oligo2index_char_loop_invalid. exists (Z.to_nat i).
  rewrite Z2Nat.id by lia. split; [lia|exact E].
Qed.

Lemma oligo2index_rc_char_valid seq pos l :
  valid_window seq pos l ->
  oligo2index_rc_char seq pos l =
  wrap (lsb_sum (map (fun v => 3 - v) (symbols seq pos (Z.to_nat l)))).
Proof.
  intros H. unfold oligo2index_rc_char.
  rewrite oligo2index_rc_char_loop_valid.
  - rewrite Z.add_0_r. f_equal. lia.
  - intros i Hi. rewrite Z.add_0_r. apply H. lia.
  - unfold int_range. lia.
Qed.

(** In the [int] range the forward index is the weighted sum itself. *)
Lemma oligo2index_char_small seq pos l :
  0 <= l <= 15 ->
  valid_window seq pos l ->
  oligo2index_char seq pos l = weighted_sum (symbols seq pos (Z.to_nat l)) /\
  0 <= oligo2index_char seq pos l < 4 ^ l.
Proof.
  intros Hl H.
  pose proof (weighted_sum_bounds _ (valid_window_symbols _ _ _ H)) as B.
  rewrite symbols_length, Z2Nat.id in B by lia.
  assert (4 ^ l <= 4 ^ 15) by (apply Z.pow_le_mono_r; lia).
  rewrite oligo2index_char_valid, wrap_small by (auto; unfold int_range; lia).
  split; [reflexivity|exact B].
Qed.

(** The symbols of a window read through the buffer are those of the
    window taken as a string of its own. *)
Lemma symbols_window seq pos n :
  0 <= pos ->
  symbols (window seq pos (Z.of_nat n)) 0 n = symbols seq pos n.
Proof.
  intros Hpos. unfold symbols, window. apply map_ext_in. intros i Hi.
  apply in_seq in Hi. f_equal. unfold char_at.
  destruct (Z.ltb_spec (0 + Z.of_nat i) 0); [lia|].
  destruct (Z.ltb_spec (pos + Z.of_nat i) 0); [lia|].
  rewrite Nat2Z.id, nth_firstn, nth_skipn.
  replace (Z.to_nat (0 + Z.of_nat i)) with i by lia.
  destruct (Nat.ltb_spec i n); [|lia].
  f_equal. lia.
Qed.

Lemma symbols_tail a s pos n :
  0 <= pos -> symbols (a :: s) (pos + 1) n = symbols s pos n.
Proof.
  intros Hpos. unfold symbols. apply map_ext. intros i. f_equal.
  unfold char_at.
  destruct (Z.ltb_spec (pos + 1 + Z.of_nat i) 0); [lia|].
  destruct (Z.ltb_spec (pos + Z.of_nat i) 0); [lia|].
  replace (Z.to_nat (pos + 1 + Z.of_nat i))
    with (Datatypes.S (Z.to_nat (pos + Z.of_nat i))) by lia.
  reflexivity.
Qed.

Lemma symbols_whole s : symbols s 0 (length s) = map char2int s.
Proof.
  induction s as [|a s IH]; [reflexivity|].
  simpl length. rewrite symbols_cons, symbols_tail, IH by lia. reflexivity.
Qed.

(** A valid window lies inside its buffer. *)
Lemma valid_window_length seq pos n :
  0 <= pos -> valid_window seq pos (Z.of_nat n) ->
  length (window seq pos (Z.of_nat n)) = n.
Proof.
  intros Hpos H. unfold window.
  rewrite Nat2Z.id, length_firstn, length_skipn.
  destruct (Nat.le_gt_cases n (length seq - Z.to_nat pos)) as [|Hlt]; [lia|].
  exfalso. apply (H (Z.of_nat (length seq - Z.to_nat pos))); [lia|].
  unfold char_at.
  destruct (Z.ltb_spec (pos + Z.of_nat (length seq - Z.to_nat pos)) 0); [lia|].
  rewrite nth_overflow by lia. reflexivity.
Qed.

Lemma symbols_valid_window seq pos n :
  0 <= pos -> valid_window seq pos (Z.of_nat n) ->
  symbols seq pos n = map char2int (window seq pos (Z.of_nat n)).
Proof.
  intros Hpos H.
  rewrite <- symbols_whole, valid_window_length by assumption.
  symmetry. apply symbols_window. exact Hpos.
Qed.

Lemma valid_window_complement s :
  Forall (fun v => v <> -1) (map char2int s) ->
  map char2int (reverse_complement s) = rev (map (fun v => 3 - v) (map char2int s)).
Proof.
  intros H. unfold reverse_complement.
  rewrite map_rev. f_equal. rewrite !map_map.
  apply map_ext_in. intros c Hc. apply char2int_complement.
  rewrite List.Forall_forall in H. apply H. apply in_map. exact Hc.
Qed.

Lemma reverse_complement_length s :
  length (reverse_complement s) = length s.
Proof. unfold reverse_complement. rewrite length_rev, length_map. reflexivity. Qed.

Lemma valid_window_whole s :
  Forall (fun v => v <> -1) (map char2int s) ->
  valid_window s 0 (Z.of_nat (length s)).
Proof.
  intros H i Hi.
  rewrite List.Forall_forall in H. apply H.
  rewrite <- symbols_whole. unfold symbols. apply in_map_iff.
  exists (Z.to_nat i). split; [|apply in_seq; lia].
  rewrite Z2Nat.id by lia. reflexivity.
Qed.

Lemma valid_window_Forall seq pos n :
  valid_window seq pos (Z.of_nat n) ->
  Forall (fun v => v <> -1) (symbols seq pos n).
Proof.
  intros H. unfold symbols. apply List.Forall_forall. intros v Hin.
  apply in_map_iff in Hin as [i [<- Hi]]. apply in_seq in Hi.
  apply H. lia.
Qed.

(** C5, as amended: for a window of length [1 <= L <= 15] (the lengths
    whose indices fit an [int]), if all [L] symbols are in {A,C,G,T}, in
    either case, [oligo2index_char] returns the sum over the positions [i],
    left to right, of [symbol_value(i) * 4^(L-1-i)], a value in
    [0, 4^L) that two windows share only when they have the same symbol
    values; if a symbol of the window is outside the alphabet it returns
    [-1]. *)
Theorem oligo2index_char_spec seq pos L :
  1 <= L <= 15 ->
  (valid_window seq pos L ->
     oligo2index_char seq pos L = weighted_sum (symbols seq pos (Z.to_nat L)) /\
     0 <= oligo2index_char seq pos L < 4 ^ L /\
     (forall seq' pos',
        valid_window seq' pos' L ->
        oligo2index_char seq' pos' L = oligo2index_char seq pos L ->
        symbols seq' pos' (Z.to_nat L) = symbols seq pos (Z.to_nat L))) /\
  ((exists i, 0 <= i < L /\ char2int (char_at seq (pos + i)) = -1) ->
     oligo2index_char seq pos L = -1).
Proof.
  intros HL. split; [|apply oligo2index_char_invalid].
  intros Hv.
  destruct (oligo2index_char_small seq pos L ltac:(lia) Hv) as [E B].
  repeat split; try tauto.
  intros seq' pos' Hv' Heq.
  destruct (oligo2index_char_small seq' pos' L ltac:(lia) Hv') as [E' _].
  apply weighted_sum_inj.
  - apply valid_window_symbols, Hv'.
  - apply valid_window_symbols, Hv.
  - rewrite !symbols_length. reflexivity.
  - congruence.
Qed.

Lemma oligo2index_char_spec_witness :
  oligo2index_char (cstr "ACGT") 0 4 = weighted_sum [0; 1; 2; 3] /\
  oligo2index_char (cstr "ACNT") 0 4 = -1.
Proof.
  split.
  - apply (oligo2index_char_spec (cstr "ACGT") 0 4); [lia|].
    apply valid_windowb_spec. reflexivity.
  - apply (oligo2index_char_spec (cstr "ACNT") 0 4); [lia|].
    exists 2. split; [lia|reflexivity].
Defined.

(** C5 as stated fails at length 16: the sixteen symbols are valid, the
    sum is [4^16 - 1], which no [int] holds, and the function returns the
    failure value.  Besides, the value does not tell the case of the
    letters: the windows "a" and "A" differ and share the index 0. *)
Lemma oligo2index_char_overflow :
  valid_window (cstr "TTTTTTTTTTTTTTTT") 0 16 /\
  weighted_sum (symbols (cstr "TTTTTTTTTTTTTTTT") 0 16) = 4 ^ 16 - 1 /\
  oligo2index_char (cstr "TTTTTTTTTTTTTTTT") 0 16 = -1 /\
  oligo2index_char (cstr "TTTTTTTTTTTTTTTT") 0 16 <>
    weighted_sum (symbols (cstr "TTTTTTTTTTTTTTTT") 0 16) /\
  cstr "a" <> cstr "A" /\
  oligo2index_char (cstr "a") 0 1 = oligo2index_char (cstr "A") 0 1.
Proof.
  split; [apply valid_windowb_spec; reflexivity|].
  split; [reflexivity|]. split; [reflexivity|].
  split; [discriminate|]. split; [discriminate|reflexivity].
Qed.

(** C2: for every window of valid symbols, [oligo2index_rc_char] of the
    window equals [oligo2index_char] of the reverse-complement string of
    the window (every symbol complemented, A<->T and C<->G, and the order
    reversed); with [pos = 0] and [L] the length of the string this is the
    statement for a whole string. *)
Theorem oligo2index_rc_char_reverse_complement seq pos L :
  0 <= pos ->
  valid_window seq pos L ->
  oligo2index_rc_char seq pos L =
  oligo2index_char (reverse_complement (window seq pos L)) 0 L.
Proof.
  intros Hpos Hv.
  destruct (Z.le_gt_cases 0 L) as [HL|HL].
  2:{ unfold oligo2index_rc_char, oligo2index_char.
      replace (Z.to_nat L) with 0%nat by lia. reflexivity. }
  rewrite oligo2index_rc_char_valid by exact Hv.
  rewrite <- (Z2Nat.id L) in Hv |- * by lia.
  set (n := Z.to_nat L) in *. rewrite Nat2Z.id.
  pose proof (valid_window_length seq pos n Hpos Hv) as Hlen.
  pose proof (valid_window_Forall seq pos n Hv) as Hall.
  rewrite (symbols_valid_window seq pos n Hpos Hv) in Hall |- *.
  set (w := window seq pos (Z.of_nat n)) in *.
  assert (Hrc : Z.of_nat n = Z.of_nat (length (reverse_complement w)))
    by (rewrite reverse_complement_length; lia).
  rewrite oligo2index_char_valid.
  - rewrite Hrc, Nat2Z.id.
    rewrite symbols_whole, valid_window_complement, weighted_sum_rev by exact Hall.
    reflexivity.
  - rewrite Hrc. apply valid_window_whole.
    rewrite valid_window_complement by exact Hall.
    apply Forall_rev. rewrite List.Forall_forall in Hall |- *.
    intros v Hin. apply in_map_iff in Hin as [u [<- Hu]].
    apply in_map_iff in Hu as [c [<- Hc]].
    destruct (char2int_range c) as [E|R]; [|lia].
    exfalso. apply (Hall (char2int c)); [apply in_map; exact Hc|exact E].
Qed.

Lemma oligo2index_rc_char_reverse_complement_witness :
  oligo2index_rc_char (cstr "AACG") 0 4 = oligo2index_char (cstr "CGTT") 0 4.
Proof.
  apply (oligo2index_rc_char_reverse_complement (cstr "AACG") 0 4); [lia|].
  apply valid_windowb_spec. reflexivity.
Defined.

(** ** Arrays *)

Lemma rd_in_range {A : Type} (a : list A) (i : Z) (d : A) :
  0 <= i < Z.of_nat (length a) -> rd a i = Some (nth (Z.to_nat i) a d).
Proof.
  intros Hi. unfold rd.
  destruct (Z.ltb_spec i 0); [lia|].
  destruct (nth_lookup_or_length a (Z.to_nat i) d) as [E|Hge]; [exact E|lia].
Qed.

(** ** The likelihood *)

Lemma pow4_pos k : 0 <= k -> 0 < 4 ^ k.
Proof. intros. apply Z.pow_pos_nonneg; lia. Qed.

Lemma pow4_le_15 k : 0 <= k <= 15 -> 4 ^ k <= 4 ^ 15.
Proof. intros. apply Z.pow_le_mono_r; lia. Qed.

(** The transition read of [markov_P] is inside [T] when the prefix
    window and the suffix are valid. *)
Lemma transition_read m seq i :
  wf_markov m ->
  valid_window seq (i - order m) (order m) ->
  char2int (char_at seq i) <> -1 ->
  oligo2index_char seq (i - order m) (order m) <> -1 /\
  rd (mT m) (wrap (wrap (4 * oligo2index_char seq (i - order m) (order m))
                   + char2int (char_at seq i))) =
  Some (T_entry m (oligo2index_char seq (i - order m) (order m))
                  (char2int (char_at seq i))).
Proof.
  intros (Hk & HS & HT) Hv Hs.
  destruct (oligo2index_char_small seq (i - order m) (order m) ltac:(lia) Hv)
    as [_ B].
  destruct (char2int_range (char_at seq i)) as [E|R]; [contradiction|].
  pose proof (pow4_le_15 (order m) ltac:(lia)).
  assert (4 ^ order m * 4 <= 4 ^ 15).
  { change (4 ^ 15) with (4 ^ 14 * 4).
    assert (4 ^ order m <= 4 ^ 14) by (apply Z.pow_le_mono_r; lia). lia. }
  split; [lia|].
  rewrite wrap_add_l, wrap_small by (unfold int_range; lia).
  unfold T_entry. apply rd_in_range. lia.
Qed.

Lemma markov_P_loop_valid m seq n : forall i p,
  wf_markov m ->
  order m <= i ->
  (forall j, i - order m <= j < i + Z.of_nat n -> char2int (char_at seq j) <> -1) ->
  markov_P_loop m seq n i p = Some (transition_product m seq n i p).
Proof.
  induction n as [|n IH]; intros i p Hwf Hi Hv; [reflexivity|].
  cbn [markov_P_loop transition_product].
  pose proof Hwf as (Hk & _ & _).
  destruct (transition_read m seq i Hwf) as [Hp Hr].
  { intros j Hj. apply Hv. lia. }
  { apply Hv. lia. }
  destruct (Z.eqb_spec (char2int (char_at seq i)) (-1)) as [E|_].
  { exfalso. apply (Hv i); [lia|exact E]. }
  destruct (Z.eqb_spec (oligo2index_char seq (i - order m) (order m)) (-1));
    [contradiction|].
  cbn [orb]. rewrite Hr. cbn [mbind option_bind].
  apply IH; [exact Hwf|lia|]. intros j Hj. apply Hv. lia.
Qed.

Lemma markov_P_loop_invalid m seq n : forall i p,
  wf_markov m ->
  order m <= i ->
  (forall j, i - order m <= j < i + Z.of_nat n -> char2int (char_at seq j) <> -1) ->
  char2int (char_at seq (i + Z.of_nat n)) = -1 ->
  markov_P_loop m seq (Datatypes.S n) i p = Some 0%Q.
Proof.
  induction n as [|n IH]; intros i p Hwf Hi Hv Hbad.
  - cbn [markov_P_loop]. rewrite Z.add_0_r in Hbad. rewrite Hbad. reflexivity.
  - cbn [markov_P_loop].
    pose proof Hwf as (Hk & _ & _).
    destruct (transition_read m seq i Hwf) as [Hp Hr].
    { intros j Hj. apply Hv. lia. }
    { apply Hv. lia. }
    destruct (Z.eqb_spec (char2int (char_at seq i)) (-1)) as [E|_].
    { exfalso. apply (Hv i); [lia|exact E]. }
    destruct (Z.eqb_spec (oligo2index_char seq (i - order m) (order m)) (-1));
      [contradiction|].
    cbn [orb]. rewrite Hr. cbn [mbind option_bind].
    apply (IH (i + 1)); [exact Hwf|lia| |].
    + intros j Hj. apply Hv. lia.
    + replace (i + 1 + Z.of_nat n) with (i + Z.of_nat (Datatypes.S n)) by lia.
      exact Hbad.
Qed.

Lemma oligo2index_char_not_failed seq pos l :
  oligo2index_char seq pos l <> -1 -> valid_window seq pos l.
Proof.
  intros H i Hi E. apply H, oligo2index_char_invalid.
  exists i. split; [exact Hi|exact E].
Qed.

(** The value of [markov_P] when nothing fails: the entry of [S] at the
    index of the [length - 1] symbols from [pos], times the transitions
    at the absolute positions [order .. length - 1]. *)
Lemma markov_P_closed_form m seq pos L :
  wf_markov m ->
  valid_window seq 0 L ->
  oligo2index_char seq pos (L - 1) <> -1 ->
  0 <= oligo2index_char seq pos (L - 1) < 4 ^ order m ->
  markov_P m seq pos L =
  Some (transition_product m seq (Z.to_nat (L - order m)) (order m)
          (S_entry m (oligo2index_char seq pos (L - 1)))).
Proof.
  intros Hwf Hv Hp Hr. pose proof Hwf as (Hk & HS & HT).
  unfold markov_P.
  destruct (Z.eqb_spec (oligo2index_char seq pos (L - 1)) (-1)); [contradiction|].
  rewrite (rd_in_range _ _ 0%Q) by lia. cbn [mbind option_bind].
  destruct (Z.le_gt_cases (order m) L) as [HL|HL].
  - apply markov_P_loop_valid; [exact Hwf|lia|].
    intros j Hj. replace j with (0 + j) by lia. apply Hv. lia.
  - replace (Z.to_nat (L - order m)) with 0%nat by lia. reflexivity.
Qed.

(** For a window one longer than the order, [markov_P] is the likelihood
    of the specification. *)
Lemma markov_P_order_plus_one m seq :
  wf_markov m ->
  valid_window seq 0 (order m + 1) ->
  markov_P m seq 0 (order m + 1) = Some (likelihood_spec m seq (order m + 1)).
Proof.
  intros Hwf Hv. pose proof Hwf as (Hk & HS & HT).
  assert (Hv' : valid_window seq 0 (order m)) by (intros i Hi; apply Hv; lia).
  destruct (oligo2index_char_small seq 0 (order m) ltac:(lia) Hv') as [_ B].
  unfold likelihood_spec.
  rewrite (markov_P_closed_form m seq 0 (order m + 1) Hwf Hv);
    replace (order m + 1 - 1) with (order m) by lia; [reflexivity|lia|lia].
Qed.

(** X1: for a well-formed model of order [k] and a window of [k + 1]
    valid symbols at offset 0, [markov_P] returns the likelihood of the
    specification, [S[index of seq[0..k))] times
    [T[index of seq[0..k), symbol of seq[k]]]. *)
Theorem markov_P_one_transition m seq :
  wf_markov m ->
  valid_window seq 0 (order m + 1) ->
  markov_P m seq 0 (order m + 1) = Some (likelihood_spec m seq (order m + 1)) /\
  likelihood_spec m seq (order m + 1) =
    (S_entry m (oligo2index_char seq 0 (order m)) *
     T_entry m (oligo2index_char seq 0 (order m))
               (char2int (char_at seq (order m))))%Q.
Proof.
  intros Hwf Hv. split; [apply markov_P_order_plus_one; assumption|].
  unfold likelihood_spec.
  replace (Z.to_nat (order m + 1 - order m)) with 1%nat by lia.
  cbn [transition_product]. rewrite Z.sub_diag. reflexivity.
Qed.

Lemma markov_P_one_transition_witness :
  markov_P example_model (cstr "AC") 0 2 =
    Some (likelihood_spec example_model (cstr "AC") 2) /\
  likelihood_spec example_model (cstr "AC") 2 =
    (S_entry example_model (oligo2index_char (cstr "AC") 0 1) *
     T_entry example_model (oligo2index_char (cstr "AC") 0 1)
       (char2int (char_at (cstr "AC") 1)))%Q.
Proof.
  apply (markov_P_one_transition example_model (cstr "AC")).
  - repeat split; simpl; lia.
  - apply valid_windowb_spec. reflexivity.
Defined.

(** C1, evaluated on the code: for the order-1 model [example_model] and
    the sequence ACA of length 3, [markov_P] reads [S] at the index of the
    two-symbol prefix AC instead of the one-symbol prefix A, and returns
    [S[C] * T[A,C] * T[C,A] = 1/48] where the stated formula gives
    [S[A] * T[A,C] * T[C,A] = 1/24]; for CAA the index of CA lies outside
    [S]. *)
Theorem markov_P_prefix_slip :
  markov_P example_model (cstr "ACA") 0 3 = Some (1 # 48)%Q /\
  likelihood_spec example_model (cstr "ACA") 3 = (1 # 24)%Q /\
  ~ ((1 # 48) == (1 # 24))%Q /\
  markov_P example_model (cstr "CAA") 0 3 = None.
Proof.
  split; [reflexivity|]. split; [reflexivity|].
  split; [|reflexivity]. intros H. discriminate H.
Qed.

(** X2: for a well-formed model of order [k] and a window of length
    [L >= k + 1] at offset 0, if a symbol of the window is not one of A, C,
    G, T then [markov_P] returns exactly 0, provided its initial lookup in
    [S] is inside the array (the encoding of the first [L - 1] symbols
    fails or is below [4^k]), which always holds when [L = k + 1]. *)
Theorem markov_P_invalid_symbol m seq L :
  wf_markov m ->
  order m + 1 <= L ->
  (L = order m + 1 \/
   oligo2index_char seq 0 (L - 1) = -1 \/
   0 <= oligo2index_char seq 0 (L - 1) < 4 ^ order m) ->
  (exists i, 0 <= i < L /\ char2int (char_at seq i) = -1) ->
  markov_P m seq 0 L = Some 0%Q.
Proof.
  intros Hwf HL Hin [i [Hi Hbad]]. pose proof Hwf as (Hk & HS & HT).
  unfold markov_P.
  destruct (Z.eqb_spec (oligo2index_char seq 0 (L - 1)) (-1)) as [|Hp];
    [reflexivity|].
  pose proof (oligo2index_char_not_failed _ _ _ Hp) as Hv.
  assert (Hr : 0 <= oligo2index_char seq 0 (L - 1) < 4 ^ order m).
  { destruct Hin as [->|[E|Hr]]; [|contradiction|exact Hr].
    replace (order m + 1 - 1) with (order m) in * by lia.
    apply (oligo2index_char_small seq 0 (order m)); [lia|exact Hv]. }
  rewrite (rd_in_range _ _ 0%Q) by lia. cbn [mbind option_bind].
  assert (i = L - 1) as ->.
  { destruct (Z.eq_dec i (L - 1)); [assumption|].
    exfalso. apply (Hv i); [lia|exact Hbad]. }
  replace (Z.to_nat (L - order m))
    with (Datatypes.S (Z.to_nat (L - order m - 1))) by lia.
  apply markov_P_loop_invalid; [exact Hwf|lia| |].
  - intros j Hj. replace j with (0 + j) by lia. apply Hv. lia.
  - rewrite Z2Nat.id by lia.
    replace (order m + (L - order m - 1)) with (L - 1) by lia. exact Hbad.
Qed.

Lemma example_model_wf : wf_markov example_model.
Proof. repeat split; simpl; lia. Qed.

Lemma markov_P_invalid_symbol_witness :
  markov_P example_model (cstr "AN") 0 2 = Some 0%Q.
Proof.
  apply markov_P_invalid_symbol.
  - exact example_model_wf.
  - simpl. lia.
  - left. reflexivity.
  - exists 1. split; [lia|reflexivity].
Defined.

(** C4, evaluated on the code: the initial prefix of [markov_P] spans
    [length - 1] symbols instead of [order], so that for a window that is
    not longer than the order the loop over [order .. length - 1] is empty
    and the last symbol of the window is never looked at.  For the order-1
    model and the one-symbol window N the result is [S[0] = 1/2], not 0;
    for the window TTN the index of TT, 15, is read outside [S] before the
    N is met. *)
Theorem markov_P_short_window :
  char2int (char_at (cstr "N") 0) = -1 /\
  markov_P example_model (cstr "N") 0 1 = Some (1 # 2)%Q /\
  ~ ((1 # 2) == 0)%Q /\
  char2int (char_at (cstr "TTN") 2) = -1 /\
  oligo2index_char (cstr "TTN") 0 2 = 15 /\
  markov_P example_model (cstr "TTN") 0 3 = None.
Proof.
  split; [reflexivity|]. split; [reflexivity|].
  split; [intros H; discriminate H|].
  split; [reflexivity|]. split; reflexivity.
Qed.

(** C10: [markov_P] uses [pos] only for the index of the initial prefix:
    two offsets with the same initial index give the same result, and when
    nothing fails the result is [S] at that index times the transitions
    read at the absolute positions [i - order .. i] for
    [i = order .. length - 1].  Hence the result at an offset [pos > 0]
    can differ from the result at offset 0 on the sequence that begins at
    [pos]: for the order-1 model, ACG at offset 1 with length 2 gives
    [S[C] * T[A,C] = 1/16], and CG at offset 0 gives
    [S[C] * T[C,G] = 1/24]. *)
Theorem markov_P_offset_only_in_prefix :
  (forall m seq pos pos' L,
     oligo2index_char seq pos (L - 1) = oligo2index_char seq pos' (L - 1) ->
     markov_P m seq pos L = markov_P m seq pos' L) /\
  (forall m seq pos L,
     wf_markov m ->
     valid_window seq 0 L ->
     oligo2index_char seq pos (L - 1) <> -1 ->
     0 <= oligo2index_char seq pos (L - 1) < 4 ^ order m ->
     markov_P m seq pos L =
     Some (transition_product m seq (Z.to_nat (L - order m)) (order m)
             (S_entry m (oligo2index_char seq pos (L - 1))))) /\
  (exists m s L pos p q,
     0 < pos /\
     markov_P m s pos L = Some p /\
     markov_P m (skipn (Z.to_nat pos) s) 0 L = Some q /\
     ~ (p == q)%Q).
Proof.
  split; [|split].
  - intros m seq pos pos' L E. unfold markov_P. rewrite E. reflexivity.
  - exact markov_P_closed_form.
  - exists example_model, (cstr "ACG"), 2, 1, (1 # 16)%Q, (1 # 24)%Q.
    split; [lia|]. split; [reflexivity|]. split; [reflexivity|].
    intros H. discriminate H.
Qed.

(** ** Doubles *)

Lemma Qpower2_pos e : (0 < 2 ^ e)%Q.
Proof. apply Qpower_0_lt. reflexivity. Qed.

Lemma Qpower2_inject e : 0 <= e -> (2 ^ e == inject_Z (2 ^ e))%Q.
Proof. intros He. rewrite Zpower_Qpower by exact He. reflexivity. Qed.

Lemma floor_log2_le x : (0 < x)%Q -> (2 ^ floor_log2 x <= x)%Q.
Proof.
  destruct x as [n d]. intros Hx. unfold floor_log2. cbn [Qnum Qden].
  set (a := Z.log2 n). set (b := Z.log2 (Z.pos d)).
  destruct (Qle_bool (2 ^ (a - b)) (n # d)) eqn:E; [apply Qle_bool_iff, E|].
  assert (Hn : 0 < n).
  { unfold Qlt in Hx. cbn [Qnum Qden] in Hx. lia. }
  destruct (Z.log2_spec n Hn) as [Ha _]. fold a in Ha.
  destruct (Z.log2_spec (Z.pos d) ltac:(lia)) as [_ Hb]. fold b in Hb.
  assert (Ha0 : 0 <= a) by apply Z.log2_nonneg.
  assert (Hb0 : 0 <= b) by apply Z.log2_nonneg.
  replace (a - b - 1) with (a - (b + 1)) by lia.
  rewrite Qpower_minus by discriminate.
  rewrite (Qpower2_inject a), (Qpower2_inject (b + 1)) by lia.
  rewrite (Qmake_Qdiv n d).
  unfold Z.succ in Hb.
  assert (H1 : (inject_Z (2 ^ a) <= inject_Z n)%Q)
    by (rewrite <- Zle_Qle; exact Ha).
  assert (H2 : (inject_Z (Z.pos d) <= inject_Z (2 ^ (b + 1)))%Q)
    by (rewrite <- Zle_Qle; lia).
  assert (H3 : (0 < inject_Z (Z.pos d))%Q)
    by (rewrite <- (Zlt_Qlt 0); lia).
  assert (H4 : (0 < inject_Z (2 ^ a))%Q)
    by (rewrite <- (Zlt_Qlt 0); apply Z.pow_pos_nonneg; lia).
  apply Qle_shift_div_l; [exact H3|].
  unfold Qdiv. rewrite <- Qmult_assoc, (Qmult_comm (/ _)), Qmult_assoc.
  apply Qle_shift_div_r; [lra|]. nra.
Qed.

Lemma floor_log2_small x :
  (0 < x)%Q -> (x < inject_Z (2 ^ 53))%Q -> floor_log2 x <= 52.
Proof.
  intros Hx Hlt. pose proof (floor_log2_le x Hx) as Hle.
  destruct (Z.le_gt_cases (floor_log2 x) 52) as [H|H]; [exact H|exfalso].
  assert (H53 : (2 ^ 53 <= 2 ^ floor_log2 x)%Q)
    by (apply Qpower_le_compat_l; [lia|discriminate]).
  rewrite (Qpower2_inject 53) in H53 by lia. lra.
Qed.

Lemma round_half_even_between q k :
  ((inject_Z k <= q)%Q -> k <= round_half_even q) /\
  ((q <= inject_Z k)%Q -> round_half_even q <= k).
Proof.
  unfold round_half_even.
  pose proof (Qfloor_le q) as Hf. pose proof (Qlt_floor q) as Hc.
  rewrite inject_Z_plus in Hc. change (inject_Z 1) with 1%Q in Hc.
  split; intros H.
  - assert (k <= Qfloor q).
    { rewrite <- (Qfloor_Z k). apply Qfloor_resp_le, H. }
    destruct (_ ?= _)%Q; [destruct (Z.even _)| |]; lia.
  - assert (Hk : Qfloor q <= k).
    { assert (Hlt : (inject_Z (Qfloor q) < inject_Z (k + 1))%Q).
      { rewrite inject_Z_plus. change (inject_Z 1) with 1%Q. lra. }
      rewrite <- Zlt_Qlt in Hlt. lia. }
    destruct (Z.eq_dec (Qfloor q) k) as [E|Hne].
    + destruct (Qcompare_spec (q - inject_Z (Qfloor q)) (1 # 2)) as [C|C|C];
        [rewrite E in C; lra|lia|rewrite E in C; lra].
    + destruct (_ ?= _)%Q; [destruct (Z.even _)| |]; lia.
Qed.

(** Below [2^53] the rounding keeps every integer bound. *)
Lemma round_double_between x :
  (0 <= x)%Q -> (x < inject_Z (2 ^ 53))%Q ->
  exists y,
    round_double x = Some y /\
    forall k,
      ((inject_Z k <= x)%Q -> (inject_Z k <= y)%Q) /\
      ((x <= inject_Z k)%Q -> (y <= inject_Z k)%Q).
Proof.
  intros H0 H53. unfold round_double.
  destruct (Qeq_bool x 0) eqn:E0.
  { apply Qeq_bool_iff in E0. exists 0%Q. split; [reflexivity|].
    intros k. rewrite E0. tauto. }
  assert (Hx : (0 < x)%Q).
  { apply Qeq_bool_neq in E0. lra. }
  assert (Habs : (Qabs x == x)%Q) by (apply Qabs_pos, H0).
  set (e := Z.max (floor_log2 (Qabs x) - 52) (-1074)).
  assert (He : e <= 0).
  { assert (Hs : floor_log2 (Qabs x) <= 52)
      by (apply floor_log2_small; rewrite Habs; assumption).
    lia. }
  set (q := (x / 2 ^ e)%Q). set (m := round_half_even q).
  pose proof (Qpower2_pos e) as Hpe.
  assert (Hq : (q == x * inject_Z (2 ^ (- e)))%Q).
  { unfold q. rewrite <- (Qpower2_inject (- e)) by lia.
    rewrite Qpower_opp. field. lra. }
  assert (Hinv : (2 ^ e * inject_Z (2 ^ (- e)) == 1)%Q).
  { rewrite <- (Qpower2_inject (- e)) by lia. rewrite Qpower_opp. field. lra. }
  assert (Hps : (0 < inject_Z (2 ^ (- e)))%Q).
  { rewrite <- (Zlt_Qlt 0). apply Z.pow_pos_nonneg; lia. }
  assert (Hbetween : forall k,
            ((inject_Z k <= x)%Q -> (inject_Z k <= inject_Z m * 2 ^ e)%Q) /\
            ((x <= inject_Z k)%Q -> (inject_Z m * 2 ^ e <= inject_Z k)%Q)).
  { intros k.
    destruct (round_half_even_between q (k * 2 ^ (- e))) as [Hlo Hhi].
    fold m in Hlo, Hhi. rewrite inject_Z_mult, Hq in Hlo, Hhi.
    split; intros Hk.
    - assert (Hm : k * 2 ^ (- e) <= m) by (apply Hlo; nra).
      rewrite Zle_Qle, inject_Z_mult in Hm.
      assert (Hk' : (inject_Z k == inject_Z k * inject_Z (2 ^ (- e)) * 2 ^ e)%Q).
      { rewrite <- Qmult_assoc, (Qmult_comm (inject_Z (2 ^ (- e)))), Hinv. ring. }
      rewrite Hk'. nra.
    - assert (Hm : m <= k * 2 ^ (- e)) by (apply Hhi; nra).
      rewrite Zle_Qle, inject_Z_mult in Hm.
      assert (Hk' : (inject_Z k == inject_Z k * inject_Z (2 ^ (- e)) * 2 ^ e)%Q).
      { rewrite <- Qmult_assoc, (Qmult_comm (inject_Z (2 ^ (- e)))), Hinv. ring. }
      rewrite Hk'. nra. }
  destruct (Hbetween 0) as [Hy0 _]. specialize (Hy0 H0).
  destruct (Hbetween (2 ^ 53)) as [_ Hy53]. specialize (Hy53 (Qlt_le_weak _ _ H53)).
  change (inject_Z 0) with 0%Q in Hy0.
  assert (Hno : Qle_bool (2 ^ 1024) (Qabs (inject_Z m * 2 ^ e)) = false).
  { destruct (Qle_bool _ _) eqn:Eo; [|reflexivity]. exfalso.
    apply Qle_bool_iff in Eo. rewrite Qabs_pos in Eo by exact Hy0.
    assert (Hbig : (inject_Z (2 ^ 53) < 2 ^ 1024)%Q) by reflexivity.
    lra. }
  rewrite Hno. eexists. split; [reflexivity|exact Hbetween].
Qed.

Lemma long2double_exact z :
  0 <= z < 2 ^ 53 ->
  exists d, long2double z = Some d /\ (d == inject_Z z)%Q.
Proof.
  intros Hz. unfold long2double.
  destruct (round_double_between (inject_Z z)) as (d & Hd & Hb).
  - rewrite <- (Zle_Qle 0). lia.
  - rewrite <- Zlt_Qlt. lia.
  - exists d. split; [exact Hd|]. destruct (Hb z) as [Hlo Hhi].
    apply Qle_antisym; [apply Hhi|apply Hlo]; apply Qle_refl.
Qed.

(** ** The reporting loop *)

Section ReportProperties.
Variable index2oligo : Z -> Z -> list ascii.
Variable index2oligo_char : Z -> Z -> list ascii.
Variable index2oligo_rc_char : Z -> Z -> list ascii.
Variable pbinom : Z -> Z -> Q -> Q.
Variable log10 : Q -> Q.
Variable rc : bool.
Variable oligo_length : Z.
Variable bg : markov_t.
Variable count : count_t.

Let line (count_only : bool) : Z -> Z -> option record :=
  stats_line index2oligo index2oligo_char index2oligo_rc_char pbinom log10
    rc count_only oligo_length bg count.

(** The record of an index in enrichment mode, from the probability and
    the expected count. *)
Lemma stats_line_enrich_record i n p n_exp :
  stats_p index2oligo rc oligo_length bg count i = Some p ->
  stats_n_exp (position_count count) p = Some n_exp ->
  line false i n =
  Some (EnrichRecord
          (index2oligo_char i oligo_length)
          (if rc
           then index2oligo_char i oligo_length ++ cstr "|" ++
                index2oligo_rc_char i oligo_length
           else index2oligo_char i oligo_length)
          p n n_exp
          (pbinom n (position_count count) p)
          (pbinom n (position_count count) p *
           inject_Z (test_count count))
          (- log10 (pbinom n (position_count count) p *
                    inject_Z (test_count count)))).
Proof.
  intros Hp Hn. unfold line, stats_line. cbn zeta.
  rewrite Hp. cbn [mbind option_bind]. rewrite Hn. reflexivity.
Qed.

(** What an enrichment record holds, field by field. *)
Lemma stats_line_enrich i n r :
  line false i n = Some r ->
  exists p n_exp,
    stats_p index2oligo rc oligo_length bg count i = Some p /\
    stats_n_exp (position_count count) p = Some n_exp /\
    record_p r = Some p /\
    record_n r = n /\
    record_n_exp r = Some n_exp /\
    record_pv r = Some (pbinom n (position_count count) p) /\
    record_name r = index2oligo_char i oligo_length.
Proof.
  unfold line, stats_line. cbn zeta.
  destruct (stats_p index2oligo rc oligo_length bg count i) as [p|];
    [|discriminate].
  cbn [mbind option_bind].
  destruct (stats_n_exp (position_count count) p) as [n_exp|] eqn:E;
    [|discriminate].
  cbn [mbind option_bind]. intros [= <-].
  exists p, n_exp. repeat split; auto.
Qed.

Lemma stats_line_count_only i n :
  exists id freq,
    line true i n =
    Some (CountRecord (index2oligo_char i oligo_length) id freq n).
Proof. unfold line, stats_line. cbn zeta. eauto. Qed.

(** The probability of an index: the likelihood, doubled under folding
    when the oligomer is not flagged palindromic; the flag is read only
    under folding. *)
Lemma stats_p_value i p0 pal :
  markov_P bg (index2oligo i oligo_length) 0 oligo_length = Some p0 ->
  (rc = true -> rd (palindromic count) i = Some pal) ->
  stats_p index2oligo rc oligo_length bg count i =
  Some (if rc && negb pal then p0 * 2 else p0)%Q.
Proof.
  intros Hp0 Hpal. unfold stats_p. rewrite Hp0. cbn [mbind option_bind].
  destruct rc; [|reflexivity].
  rewrite (Hpal eq_refl). cbn [mbind option_bind andb]. reflexivity.
Qed.

Lemma stats_line_fields count_only i n r :
  line count_only i n = Some r ->
  record_n r = n /\ record_name r = index2oligo_char i oligo_length.
Proof.
  destruct count_only.
  - destruct (stats_line_count_only i n) as (id & freq & E).
    rewrite E. intros [= <-]. split; reflexivity.
  - intros H.
    apply stats_line_enrich in H as (p & n_exp & _ & _ & _ & E & _ & _ & En).
    split; [exact E|exact En].
Qed.

Lemma stats_line_n count_only i n r :
  line count_only i n = Some r -> record_n r = n.
Proof. intros H. apply (stats_line_fields _ _ _ _ H). Qed.

(** [(long) x] is [x] truncated toward zero. *)
Lemma double2long_trunc x z :
  double2long x = Some z ->
  z = Z.quot (Qnum x) (Z.pos (Qden x)) /\
  (0 <= x -> inject_Z z <= x /\ x < inject_Z z + 1)%Q /\
  (x <= 0 -> inject_Z z - 1 < x /\ x <= inject_Z z)%Q.
Proof.
  unfold double2long.
  destruct (_ && _); [|discriminate]. intros [= <-].
  destruct x as [a b]. cbn [Qnum Qden].
  pose proof (Z.quot_rem' a (Z.pos b)) as Hqr.
  split; [reflexivity|].
  unfold Qminus. unfold Qle, Qlt, Qplus, Qopp, inject_Z.
  cbn [Qnum Qden Pos.mul Z.opp].
  split; intros Ha.
  - pose proof (Z.rem_bound_pos a (Z.pos b) ltac:(lia) ltac:(lia)). nia.
  - pose proof (Z.rem_bound_pos_neg a (Z.pos b) ltac:(lia) ltac:(lia)). nia.
Qed.

Lemma indices_from_sorted a k :
  StronglySorted Z.lt (map Z.of_nat (List.seq a k)).
Proof.
  revert a. induction k as [|k IH]; intros a; simpl; constructor.
  - apply IH.
  - apply List.Forall_forall. intros x Hx.
    apply in_map_iff in Hx as [j [<- Hj]]. apply in_seq in Hj. lia.
Qed.

Lemma filter_sorted (f : Z -> bool) l :
  StronglySorted Z.lt l -> StronglySorted Z.lt (List.filter f l).
Proof.
  induction 1 as [|x l Hl IH Hx]; simpl; [constructor|].
  destruct (f x); [|exact IH].
  constructor; [exact IH|].
  apply List.Forall_forall. intros y Hy. apply filter_In in Hy as [Hy _].
  rewrite List.Forall_forall in Hx. apply Hx, Hy.
Qed.

Lemma stats_loop_records count_only k : forall a,
  (forall j, Z.of_nat a <= j < Z.of_nat a + Z.of_nat k ->
     exists n, rd (count_table count) j = Some n /\
               (n <> 0 -> exists r, line count_only j n = Some r)) ->
  exists out,
    stats_loop index2oligo index2oligo_char index2oligo_rc_char pbinom log10
      rc count_only oligo_length bg count k (Z.of_nat a) = Some out /\
    Forall2 (fun j r =>
               exists n, rd (count_table count) j = Some n /\ n <> 0 /\
                         line count_only j n = Some r /\ record_n r = n)
      (List.filter (nonzero_count count) (map Z.of_nat (List.seq a k))) out.
Proof.
  induction k as [|k IH]; intros a Hdef.
  - exists []. split; [reflexivity|constructor].
  - destruct (IH (Datatypes.S a)) as (rest & Hrest & Hall).
    { intros j Hj. apply Hdef. lia. }
    destruct (Hdef (Z.of_nat a) ltac:(lia)) as (n & Hn & Hline).
    cbn [stats_loop List.seq map List.filter].
    unfold nonzero_count at 1. rewrite Hn. cbn [mbind option_bind].
    replace (Z.of_nat a + 1) with (Z.of_nat (Datatypes.S a)) by lia.
    destruct (Z.eqb_spec n 0) as [->|Hnz]; cbn [negb].
    + exists rest. split; [exact Hrest|exact Hall].
    + destruct (Hline Hnz) as [r Hr]. fold (line count_only).
      rewrite Hr, Hrest. cbn [mbind option_bind].
      exists (r :: rest). split; [reflexivity|].
      constructor; [|exact Hall].
      exists n. repeat split; auto. eapply stats_line_n, Hr.
Qed.

(** Every run of the loop that ends gives one record for each index with
    a count that is not zero, in the order of the indices. *)
Lemma stats_loop_shape count_only k : forall a out,
  stats_loop index2oligo index2oligo_char index2oligo_rc_char pbinom log10
    rc count_only oligo_length bg count k (Z.of_nat a) = Some out ->
  Forall2 (fun j r =>
             exists n, rd (count_table count) j = Some n /\ n <> 0 /\
                       line count_only j n = Some r /\ record_n r = n /\
                       record_name r = index2oligo_char j oligo_length)
    (List.filter (nonzero_count count) (map Z.of_nat (List.seq a k))) out.
Proof.
  induction k as [|k IH]; intros a out H.
  - cbn [stats_loop] in H. injection H as <-. constructor.
  - cbn [stats_loop List.seq map List.filter] in H |- *.
    unfold nonzero_count at 1.
    destruct (rd (count_table count) (Z.of_nat a)) as [n|] eqn:Hn;
      [|discriminate].
    cbn [mbind option_bind] in H.
    replace (Z.of_nat a + 1) with (Z.of_nat (Datatypes.S a)) in H by lia.
    destruct (Z.eqb_spec n 0) as [->|Hnz]; cbn [negb].
    + apply IH, H.
    + fold (line count_only) in H.
      destruct (line count_only (Z.of_nat a) n) as [r|] eqn:Hr;
        [|discriminate].
      cbn [mbind option_bind] in H.
      destruct (stats_loop _ _ _ _ _ _ _ _ _ _ k _) as [rest|] eqn:Hrest;
        [|discriminate].
      cbn [mbind option_bind] in H. injection H as <-.
      constructor; [|apply IH, Hrest].
      exists n. destruct (stats_line_fields _ _ _ _ Hr) as [E1 E2].
      repeat split; auto.
Qed.

Lemma nonzero_indices_spec i :
  In i (nonzero_indices count) <->
  0 <= i < size count /\
  exists n, rd (count_table count) i = Some n /\ n <> 0.
Proof.
  unfold nonzero_indices, indices. rewrite filter_In, in_map_iff.
  unfold nonzero_count. split.
  - intros [[j [<- Hj]] Hnz]. apply in_seq in Hj. split; [lia|].
    destruct (rd (count_table count) (Z.of_nat j)) as [n|]; [|discriminate].
    exists n. split; [reflexivity|]. intros ->. discriminate.
  - intros [Hi [n [Hn Hnz]]]. split.
    + exists (Z.to_nat i). split; [lia|]. apply in_seq. lia.
    + rewrite Hn. destruct (Z.eqb_spec n 0); [contradiction|reflexivity].
Qed.

(** In count-only mode the lines are defined as soon as the table holds
    [size] counts. *)
Lemma count_only_lines_defined :
  size count <= Z.of_nat (length (count_table count)) ->
  forall i, 0 <= i < size count ->
    exists n, rd (count_table count) i = Some n /\
              (n <> 0 -> exists r, line true i n = Some r).
Proof.
  intros Hsize i Hi. exists (nth (Z.to_nat i) (count_table count) 0).
  split; [apply rd_in_range; lia|].
  intros _. destruct (stats_line_count_only i
                        (nth (Z.to_nat i) (count_table count) 0))
    as (id & freq & E).
  eauto.
Qed.
End ReportProperties.

(** ** The loops of [load_markov] *)

Lemma rd_middle {A : Type} (pre : list A) x post :
  rd (pre ++ x :: post) (Z.of_nat (length pre)) = Some x.
Proof.
  unfold rd. destruct (Z.ltb_spec (Z.of_nat (length pre)) 0); [lia|].
  apply list_lookup_middle. lia.
Qed.

Lemma wr_middle {A : Type} (pre : list A) x post y :
  wr (pre ++ x :: post) (Z.of_nat (length pre)) y = Some (pre ++ y :: post).
Proof.
  unfold wr. rewrite length_app. cbn [length].
  destruct (Z.leb_spec 0 (Z.of_nat (length pre))); [|lia].
  destruct (Z.ltb_spec (Z.of_nat (length pre))
              (Z.of_nat (length pre + Datatypes.S (length post)))); [|lia].
  cbn [andb]. f_equal. rewrite Nat2Z.id.
  replace (length pre) with (length pre + 0)%nat at 1 by lia.
  rewrite insert_app_r. reflexivity.
Qed.

Lemma sum_range_middle mid : forall pre post acc,
  sum_range (pre ++ mid ++ post) (Z.of_nat (length pre)) (length mid) acc =
  Some (fold_left Qplus mid acc).
Proof.
  induction mid as [|x mid IH]; intros pre post acc; [reflexivity|].
  cbn [sum_range length fold_left app].
  rewrite rd_middle. cbn [mbind option_bind].
  replace (pre ++ x :: mid ++ post) with ((pre ++ [x]) ++ mid ++ post)
    by (rewrite <- app_assoc; reflexivity).
  replace (Z.of_nat (length pre) + 1) with (Z.of_nat (length (pre ++ [x])))
    by (rewrite length_app; simpl; lia).
  apply IH.
Qed.

Lemma div_range_middle sum mid : forall pre post,
  div_range (pre ++ mid ++ post) (Z.of_nat (length pre)) (length mid) sum =
  Some (pre ++ map (fun x => x / sum)%Q mid ++ post).
Proof.
  induction mid as [|x mid IH]; intros pre post; [reflexivity|].
  cbn [div_range length map app].
  rewrite rd_middle. cbn [mbind option_bind].
  rewrite wr_middle. cbn [mbind option_bind].
  replace (pre ++ (x / sum)%Q :: mid ++ post)
    with ((pre ++ [(x / sum)%Q]) ++ mid ++ post)
    by (rewrite <- app_assoc; reflexivity).
  replace (Z.of_nat (length pre) + 1)
    with (Z.of_nat (length (pre ++ [(x / sum)%Q])))
    by (rewrite length_app; simpl; lia).
  rewrite IH. rewrite <- app_assoc. reflexivity.
Qed.

(** The two loops over the whole of a table. *)
Lemma sum_range_whole a :
  sum_range a 0 (length a) 0%Q = Some (Qsum a).
Proof.
  pose proof (sum_range_middle a [] [] 0%Q) as H.
  rewrite app_nil_r in H. exact H.
Qed.

Lemma div_range_whole a sum :
  div_range a 0 (length a) sum = Some (map (fun x => x / sum)%Q a).
Proof.
  pose proof (div_range_middle sum a [] []) as H.
  rewrite !app_nil_r in H. exact H.
Qed.

(** The loop over the rows, on a table of [k] whole rows after [pre]. *)
Lemma normalize_rows_middle k : forall rows pre fuel,
  length rows = (4 * k)%nat ->
  (k <= fuel)%nat ->
  normalize_rows fuel (pre ++ rows) (Z.of_nat (length pre))
    (Z.of_nat (length pre) + Z.of_nat (length rows)) =
  Some (pre ++ normalize_rows_list rows).
Proof.
  induction k as [|k IH]; intros rows pre fuel Hlen Hfuel.
  - destruct rows; [|discriminate]. cbn [normalize_rows_list].
    rewrite !app_nil_r.
    destruct fuel; cbn [normalize_rows length];
      destruct (Z.ltb_spec (Z.of_nat (length pre)) (Z.of_nat (length pre) + Z.of_nat 0));
      try lia; reflexivity.
  - destruct rows as [|x0 [|x1 [|x2 [|x3 rest]]]];
      try (exfalso; cbn [length] in Hlen; lia).
    destruct fuel as [|fuel]; [lia|].
    cbn [normalize_rows].
    destruct (Z.ltb_spec (Z.of_nat (length pre))
                (Z.of_nat (length pre)
                 + Z.of_nat (length (x0 :: x1 :: x2 :: x3 :: rest))));
      [|cbn [length] in *; lia].
    pose proof (sum_range_middle [x0; x1; x2; x3] pre rest 0%Q) as Hs.
    pose proof (div_range_middle (Qsum [x0; x1; x2; x3]) [x0; x1; x2; x3]
                  pre rest) as Hd.
    cbn [length app] in Hs, Hd. rewrite Hs. cbn [mbind option_bind].
    fold (Qsum [x0; x1; x2; x3]). rewrite Hd. cbn [mbind option_bind map app].
    set (s := Qsum [x0; x1; x2; x3]).
    replace (pre ++ (x0 / s)%Q :: (x1 / s)%Q :: (x2 / s)%Q :: (x3 / s)%Q :: rest)
      with ((pre ++ [x0 / s; x1 / s; x2 / s; x3 / s]%Q) ++ rest)
      by (rewrite <- app_assoc; reflexivity).
    replace (Z.of_nat (length pre) + 4)
      with (Z.of_nat (length (pre ++ [x0 / s; x1 / s; x2 / s; x3 / s]%Q)))
      by (rewrite length_app; simpl; lia).
    replace (Z.of_nat (length pre)
             + Z.of_nat (length (x0 :: x1 :: x2 :: x3 :: rest)))
      with (Z.of_nat (length (pre ++ [x0 / s; x1 / s; x2 / s; x3 / s]%Q))
            + Z.of_nat (length rest))
      by (rewrite length_app; simpl; lia).
    rewrite IH; [|cbn [length] in Hlen; lia|lia].
    rewrite <- app_assoc. reflexivity.
Qed.

Lemma normalize_rows_whole a k fuel :
  length a = (4 * k)%nat ->
  (k <= fuel)%nat ->
  normalize_rows fuel a 0 (Z.of_nat (length a)) = Some (normalize_rows_list a).
Proof.
  intros Hlen Hfuel.
  apply (normalize_rows_middle k a [] fuel Hlen Hfuel).
Qed.

(** ** Sums of tables *)

Lemma fold_left_Qplus_acc l : forall a,
  (fold_left Qplus l a == a + Qsum l)%Q.
Proof.
  unfold Qsum. induction l as [|x l IH]; intros a; cbn [fold_left].
  - ring.
  - rewrite (IH (a + x)%Q), (IH (0 + x)%Q). ring.
Qed.

Lemma Qsum_cons x l : (Qsum (x :: l) == x + Qsum l)%Q.
Proof.
  unfold Qsum at 1. cbn [fold_left]. rewrite fold_left_Qplus_acc. ring.
Qed.

Lemma Qsum_map_div s l :
  (Qsum (map (fun x => x / s) l) == Qsum l / s)%Q.
Proof.
  induction l as [|x l IH]; cbn [map].
  - unfold Qsum, Qdiv. cbn [fold_left]. ring.
  - rewrite !Qsum_cons, IH. unfold Qdiv. ring.
Qed.

Lemma Qsum_nonneg l :
  Forall (fun x => 0 <= x)%Q l -> (0 <= Qsum l)%Q.
Proof.
  induction 1 as [|x l Hx _ IH].
  - unfold Qsum. cbn [fold_left]. lra.
  - rewrite Qsum_cons. lra.
Qed.

Lemma Qsum_pos l x :
  Forall (fun x => 0 <= x)%Q l -> In x l -> (0 < x)%Q -> (0 < Qsum l)%Q.
Proof.
  induction 1 as [|y l Hy Hl IH]; intros Hin Hx; [contradiction|].
  rewrite Qsum_cons. pose proof (Qsum_nonneg l Hl).
  destruct Hin as [->|Hin]; [lra|].
  specialize (IH Hin Hx). lra.
Qed.

(** Division by the sum makes a table sum to 1. *)
Lemma Qsum_normalized l :
  ~ (Qsum l == 0)%Q ->
  (Qsum (map (fun x => x / Qsum l) l) == 1)%Q.
Proof.
  intros H. rewrite Qsum_map_div. field. exact H.
Qed.

(** ** Rows divided by their sums *)

Lemma normalize_rows_list_length k : forall a,
  length a = (4 * k)%nat -> length (normalize_rows_list a) = length a.
Proof.
  induction k as [|k IH]; intros a Hlen.
  - destruct a; [reflexivity|discriminate].
  - destruct a as [|x0 [|x1 [|x2 [|x3 rest]]]];
      try (exfalso; cbn [length] in Hlen; lia).
    cbn [normalize_rows_list length]. rewrite IH; [reflexivity|].
    cbn [length] in Hlen. lia.
Qed.

Lemma nth_4 {A : Type} (x0 x1 x2 x3 : A) rest n d :
  nth (4 + n) (x0 :: x1 :: x2 :: x3 :: rest) d = nth n rest d.
Proof. reflexivity. Qed.

Lemma normalize_rows_list_nth p : forall a j,
  (j < 4)%nat ->
  (4 * p + 4 <= length a)%nat ->
  nth (4 * p + j) (normalize_rows_list a) 0%Q =
  (nth (4 * p + j) a 0 /
   Qsum [nth (4 * p) a 0; nth (4 * p + 1) a 0;
         nth (4 * p + 2) a 0; nth (4 * p + 3) a 0])%Q.
Proof.
  induction p as [|p IH]; intros a j Hj Hlen;
    destruct a as [|x0 [|x1 [|x2 [|x3 rest]]]];
    try (exfalso; cbn [length] in Hlen; lia).
  - cbn [normalize_rows_list].
    destruct j as [|[|[|[|j]]]]; [reflexivity..|lia].
  - cbn [normalize_rows_list].
    replace (4 * Datatypes.S p)%nat with (4 + 4 * p)%nat by lia.
    rewrite <- !Nat.add_assoc, !nth_4.
    apply IH; [exact Hj|]. cbn [length] in Hlen. lia.
Qed.

(** A row divided by its sum sums to 1. *)
Lemma row_normalized x0 x1 x2 x3 :
  ~ (Qsum [x0; x1; x2; x3] == 0)%Q ->
  (Qsum [x0 / Qsum [x0; x1; x2; x3]; x1 / Qsum [x0; x1; x2; x3];
         x2 / Qsum [x0; x1; x2; x3]; x3 / Qsum [x0; x1; x2; x3]] == 1)%Q.
Proof.
  intros H. unfold Qsum in *. cbn [fold_left] in *. field.
  intros E. apply H. lra.
Qed.

(** ** Reading the file *)

Lemma wr_Some {A : Type} (a : list A) i x a' :
  wr a i x = Some a' ->
  0 <= i < Z.of_nat (length a) /\ a' = <[Z.to_nat i := x]> a.
Proof.
  unfold wr.
  destruct (Z.leb_spec 0 i); destruct (Z.ltb_spec i (Z.of_nat (length a)));
    cbn [andb]; intros [= <-]. split; [lia|reflexivity].
Qed.

Lemma wr_in_range {A : Type} (a : list A) i x :
  0 <= i < Z.of_nat (length a) -> wr a i x = Some (<[Z.to_nat i := x]> a).
Proof.
  intros Hi. unfold wr.
  destruct (Z.leb_spec 0 i); [|lia].
  destruct (Z.ltb_spec i (Z.of_nat (length a))); [|lia]. reflexivity.
Qed.

(** One line: the entry of [S] at the prefix grows by the frequency, the
    entry of [T] at the transition becomes the frequency. *)
Lemma load_line_inv m l m' :
  load_line (Some m) l = Some m' ->
  exists s,
    rd (mS m) (line_prefix (order m) l) = Some s /\
    0 <= line_T_index (order m) l < Z.of_nat (length (mT m)) /\
    m' = Markov (order m)
           (<[Z.to_nat (line_prefix (order m) l) := (s + snd l)%Q]> (mS m))
           (<[Z.to_nat (line_T_index (order m) l) := snd l]> (mT m)).
Proof.
  destruct l as [id freq].
  unfold load_line, line_T_index, line_symbol, line_prefix.
  cbn [fst snd mbind option_bind].
  destruct (rd (mS m) (oligo2index_char id 0 (order m))) as [s|] eqn:Hs;
    [|discriminate].
  cbn [mbind option_bind].
  destruct (wr (mS m) _ _) as [S'|] eqn:HS; [|discriminate].
  cbn [mbind option_bind].
  destruct (wr (mT m) _ _) as [T'|] eqn:HT; [|discriminate].
  cbn [mbind option_bind]. intros [= <-].
  apply wr_Some in HS as [_ ->]. apply wr_Some in HT as [HT ->].
  exists s. auto.
Qed.

Lemma load_line_in_range m l :
  0 <= line_prefix (order m) l < Z.of_nat (length (mS m)) ->
  0 <= line_T_index (order m) l < Z.of_nat (length (mT m)) ->
  exists m', load_line (Some m) l = Some m'.
Proof.
  intros HS HT. destruct l as [id freq].
  unfold load_line, line_T_index, line_symbol, line_prefix in *.
  cbn [fst snd mbind option_bind] in *.
  rewrite (rd_in_range _ _ 0%Q) by exact HS. cbn [mbind option_bind].
  rewrite (wr_in_range (mS m)) by exact HS. cbn [mbind option_bind].
  rewrite (wr_in_range (mT m)) by exact HT. cbn [mbind option_bind].
  eauto.
Qed.

Lemma load_line_None l :
  load_line None l =
  m ← new_markov (Z.of_nat (length (fst l)) - 1); load_line (Some m) l.
Proof.
  destruct l as [id freq]. unfold load_line. cbn [fst].
  destruct (new_markov (Z.of_nat (length id) - 1)); reflexivity.
Qed.

Lemma load_lines_None l rest :
  load_lines (l :: rest) None =
  m ← new_markov (Z.of_nat (length (fst l)) - 1);
  load_lines (l :: rest) (Some m).
Proof.
  cbn [load_lines]. rewrite load_line_None.
  destruct (new_markov (Z.of_nat (length (fst l)) - 1)); reflexivity.
Qed.

(** What the reading loop leaves in the model. *)
Lemma load_lines_inv lines : forall m m',
  load_lines lines (Some m) = Some (Some m') ->
  order m' = order m /\
  length (mS m') = length (mS m) /\
  length (mT m') = length (mT m) /\
  Forall (fun l => 0 <= line_T_index (order m) l < Z.of_nat (length (mT m)))
    lines /\
  forall t, 0 <= t ->
    nth (Z.to_nat t) (mT m') 0%Q =
    match last_write (order m) lines t with
    | Some f => f
    | None => nth (Z.to_nat t) (mT m) 0%Q
    end.
Proof.
  induction lines as [|l rest IH]; intros m m' H.
  - cbn [load_lines] in H. injection H as <-.
    repeat split; auto.
  - cbn [load_lines] in H.
    destruct (load_line (Some m) l) as [m1|] eqn:Hl; [|discriminate].
    cbn [mbind option_bind] in H.
    apply load_line_inv in Hl as (s & Hs & Ht & ->).
    apply IH in H as (Ho & HS & HT & Hall & Hnth).
    cbn [order mS mT] in *. rewrite !length_insert in *.
    repeat split; auto.
    intros t Ht0. rewrite (Hnth t Ht0). cbn [last_write].
    destruct (last_write (order m) rest t) as [f|]; [reflexivity|].
    destruct (Z.eqb_spec (line_T_index (order m) l) t) as [E|Hne].
    + apply nth_lookup_Some. rewrite E. apply list_lookup_insert_eq. lia.
    + rewrite !nth_lookup, list_lookup_insert_ne by lia. reflexivity.
Qed.

(** With frequencies that are not negative the entries of [S] stay at or
    above the floor. *)
Lemma load_lines_S_floor lines : forall m m',
  Forall (fun l => 0 <= snd l)%Q lines ->
  load_lines lines (Some m) = Some (Some m') ->
  Forall (fun x => floor_1e100 <= x)%Q (mS m) ->
  Forall (fun x => floor_1e100 <= x)%Q (mS m').
Proof.
  induction lines as [|l rest IH]; intros m m' Hnn H HS.
  - cbn [load_lines] in H. injection H as <-. exact HS.
  - inversion Hnn as [|? ? Hl0 Hrest]; subst.
    cbn [load_lines] in H.
    destruct (load_line (Some m) l) as [m1|] eqn:Hl; [|discriminate].
    cbn [mbind option_bind] in H.
    apply load_line_inv in Hl as (s & Hs & Ht & ->).
    apply (IH _ _ Hrest H). cbn [mS].
    apply Forall_insert; [exact HS|].
    unfold rd in Hs. destruct (_ <? 0); [discriminate|].
    rewrite Forall_lookup in HS. specialize (HS _ _ Hs). cbn beta in HS. lra.
Qed.

(** The frequency of a last write is the frequency of a line. *)
Lemma last_write_In k lines t f :
  last_write k lines t = Some f ->
  exists l, In l lines /\ line_T_index k l = t /\ snd l = f.
Proof.
  induction lines as [|l rest IH]; cbn [last_write]; [discriminate|].
  destruct (last_write k rest t) as [g|].
  - intros [= <-]. destruct IH as (l' & Hin & Ht & Hf); [reflexivity|].
    exists l'. split; [right; exact Hin|]. auto.
  - destruct (Z.eqb_spec (line_T_index k l) t) as [E|_]; [|discriminate].
    intros [= <-]. exists l. split; [left; reflexivity|]. auto.
Qed.

Lemma last_write_None k lines t :
  (forall l, In l lines -> line_T_index k l <> t) ->
  last_write k lines t = None.
Proof.
  induction lines as [|l rest IH]; intros H; cbn [last_write]; [reflexivity|].
  rewrite IH by (intros l' Hl'; apply H; right; exact Hl').
  destruct (Z.eqb_spec (line_T_index k l) t) as [E|_]; [|reflexivity].
  exfalso. apply (H l); [left; reflexivity|exact E].
Qed.

(** ** Allocation *)

Lemma floor_pos : (0 < floor_1e100)%Q.
Proof. reflexivity. Qed.

Lemma pow4_14 k : 0 <= k <= 14 -> 0 < 4 ^ k /\ 4 * 4 ^ k <= 4 ^ 15.
Proof.
  intros Hk. split; [apply pow4_pos; lia|].
  change (4 ^ 15) with (4 * 4 ^ 14).
  assert (4 ^ k <= 4 ^ 14) by (apply Z.pow_le_mono_r; lia). lia.
Qed.

Lemma new_markov_small k :
  0 <= k <= 14 ->
  new_markov k =
  Some (Markov k (replicate (Z.to_nat (4 ^ k)) floor_1e100)
                 (replicate (Z.to_nat (4 * 4 ^ k)) floor_1e100)).
Proof.
  intros Hk. destruct (pow4_14 k Hk) as [Hpos Hle].
  unfold new_markov, pow4_int.
  destruct (Z.ltb_spec k 0); [lia|]. destruct (Z.leb_spec k 15); [|lia].
  cbn [mbind option_bind]. rewrite wrap_small by (unfold int_range; lia).
  replace (4 ^ k * 4) with (4 * 4 ^ k) by lia. reflexivity.
Qed.

(** An allocation that the first line can be read into has an order
    between 0 and 14. *)
Lemma new_markov_order k m :
  new_markov k = Some m ->
  mS m <> [] -> mT m <> [] ->
  0 <= k <= 14.
Proof.
  unfold new_markov, pow4_int.
  destruct (Z.ltb_spec k 0).
  - cbn [mbind option_bind]. intros [= <-]. cbn [mS]. intros HS. exfalso.
    apply HS. reflexivity.
  - destruct (Z.leb_spec k 15); [|discriminate].
    cbn [mbind option_bind]. intros [= <-]. cbn [mS mT]. intros _ HT.
    destruct (Z.eq_dec k 15) as [->|]; [|lia].
    exfalso. apply HT. reflexivity.
Qed.

Lemma new_markov_wf k m :
  0 <= k <= 14 -> new_markov k = Some m -> order m = k /\ wf_markov m.
Proof.
  intros Hk. rewrite new_markov_small by exact Hk. intros [= <-].
  destruct (pow4_14 k Hk) as [Hpos Hle].
  split; [reflexivity|]. unfold wf_markov. cbn [order mS mT].
  rewrite !length_replicate. lia.
Qed.

(** ** Well-formed lines *)

Lemma well_formed_line k l :
  0 <= k <= 14 ->
  valid_window (fst l) 0 (k + 1) ->
  0 <= line_prefix k l < 4 ^ k /\
  0 <= line_symbol k l <= 3 /\
  line_T_index k l = 4 * line_prefix k l + line_symbol k l.
Proof.
  intros Hk Hv. destruct (pow4_14 k Hk) as [Hpos Hle].
  assert (Hv' : valid_window (fst l) 0 k) by (intros i Hi; apply Hv; lia).
  destruct (oligo2index_char_small (fst l) 0 k ltac:(lia) Hv') as [_ B].
  fold (line_prefix k l) in B.
  assert (Hs : 0 <= line_symbol k l <= 3).
  { unfold line_symbol.
    destruct (char2int_range (char_at (fst l) k)) as [E|R]; [|exact R].
    exfalso. apply (Hv k); [lia|exact E]. }
  split; [exact B|]. split; [exact Hs|].
  unfold line_T_index.
  rewrite wrap_add_l, wrap_small by (unfold int_range; lia). reflexivity.
Qed.

(** The pair a line lists decides the entry of [T] it writes. *)
Lemma unlisted_last_write k lines p c :
  0 <= k <= 14 ->
  Forall (fun l => valid_window (fst l) 0 (k + 1)) lines ->
  0 <= c < 4 ->
  unlisted k lines p c ->
  last_write k lines (4 * p + c) = None.
Proof.
  intros Hk Hall Hc Hun. apply last_write_None. intros l Hl E.
  rewrite List.Forall_forall in Hall.
  destruct (well_formed_line k l Hk (Hall l Hl)) as (Hp & Hs & Ht).
  apply (Hun l Hl). lia.
Qed.

(** ** Normalisation *)

Lemma normalize_markov_spec m :
  wf_markov m ->
  normalize_markov m =
  Some (Markov (order m)
          (map (fun x => x / Qsum (mS m))%Q (mS m))
          (normalize_rows_list (mT m))).
Proof.
  intros (Hk & HS & HT). destruct (pow4_14 _ Hk) as [Hpos Hle].
  unfold normalize_markov, pow4_int.
  destruct (Z.ltb_spec (order m) 0); [lia|].
  destruct (Z.leb_spec (order m) 15); [|lia].
  cbn [mbind option_bind].
  replace (Z.to_nat (4 ^ order m)) with (length (mS m)) by lia.
  rewrite sum_range_whole. cbn [mbind option_bind].
  rewrite div_range_whole. cbn [mbind option_bind].
  rewrite wrap_small by (unfold int_range; lia).
  replace (4 ^ order m * 4) with (Z.of_nat (length (mT m))) by lia.
  rewrite (normalize_rows_whole (mT m) (Z.to_nat (4 ^ order m))) by lia.
  reflexivity.
Qed.

(** ** The sum of [S] *)

Lemma Qsum_insert l : forall i s x,
  l !! i = Some s ->
  (Qsum (<[i:=x]> l) == Qsum l - s + x)%Q.
Proof.
  induction l as [|y l IH]; intros i s x Hi; [discriminate|].
  destruct i as [|i].
  - injection Hi as ->. cbn [insert list_insert]. rewrite !Qsum_cons. ring.
  - cbn [lookup list_lookup] in Hi. cbn [insert list_insert].
    rewrite !Qsum_cons. fold (insert (M := list Q) i x l).
    rewrite (IH i s x Hi). ring.
Qed.

Lemma Qsum_replicate n x :
  (Qsum (replicate n x) == inject_Z (Z.of_nat n) * x)%Q.
Proof.
  induction n as [|n IH]; cbn [replicate].
  - unfold Qsum. cbn [fold_left]. ring.
  - rewrite Qsum_cons, IH, Nat2Z.inj_succ. unfold Z.succ.
    rewrite inject_Z_plus. ring.
Qed.

Lemma load_lines_S_sum lines : forall m m',
  load_lines lines (Some m) = Some (Some m') ->
  (Qsum (mS m') == Qsum (mS m) + Qsum (map snd lines))%Q.
Proof.
  induction lines as [|l rest IH]; intros m m' H.
  - cbn [load_lines] in H. injection H as <-.
    unfold Qsum at 3. cbn [map fold_left]. ring.
  - cbn [load_lines] in H.
    destruct (load_line (Some m) l) as [m1|] eqn:Hl; [|discriminate].
    cbn [mbind option_bind] in H.
    apply load_line_inv in Hl as (s & Hs & Ht & ->).
    rewrite (IH _ _ H). cbn [mS map]. rewrite Qsum_cons.
    unfold rd in Hs. destruct (_ <? 0); [discriminate|].
    rewrite (Qsum_insert _ _ _ _ Hs). ring.
Qed.

(** ** The loaded model *)

Lemma load_lines_Some lines : forall m x,
  load_lines lines (Some m) = Some x -> exists m', x = Some m'.
Proof.
  induction lines as [|l rest IH]; intros m x H; cbn [load_lines] in H.
  - injection H as <-. eauto.
  - destruct (load_line (Some m) l) as [m1|]; [|discriminate].
    cbn [mbind option_bind] in H. eapply IH, H.
Qed.

Lemma load_markov_inv lines m :
  lines <> [] ->
  load_markov lines = Some m ->
  exists m0 m_pre,
    0 <= file_order lines <= 14 /\
    new_markov (file_order lines) = Some m0 /\
    load_lines lines (Some m0) = Some (Some m_pre) /\
    normalize_markov m_pre = Some m.
Proof.
  intros Hne H. destruct lines as [|l rest]; [contradiction|].
  unfold load_markov in H. rewrite load_lines_None in H.
  cbn [file_order].
  destruct (new_markov (Z.of_nat (length (fst l)) - 1)) as [m0|] eqn:Hnew;
    [|discriminate].
  cbn [mbind option_bind] in H.
  destruct (load_lines (l :: rest) (Some m0)) as [self|] eqn:Hload;
    [|discriminate].
  destruct (load_lines_Some _ _ _ Hload) as [m_pre ->].
  cbn [mbind option_bind] in H.
  exists m0, m_pre. split; [|auto].
  cbn [load_lines] in Hload.
  destruct (load_line (Some m0) l) as [m1|] eqn:Hl; [|discriminate].
  apply load_line_inv in Hl as (s & Hs & Ht & _).
  apply (new_markov_order _ m0 Hnew).
  - intros E. rewrite E in Hs. unfold rd in Hs.
    destruct (_ <? 0); [discriminate|]. discriminate.
  - intros E. rewrite E in Ht. cbn [length] in Ht. lia.
Qed.

(** The model [load_markov] returns, entry by entry. *)
Lemma load_markov_spec lines m :
  well_formed_file lines ->
  load_markov lines = Some m ->
  0 <= file_order lines <= 14 /\
  order m = file_order lines /\
  wf_markov m /\
  (exists S_pre,
     Z.of_nat (length S_pre) = 4 ^ file_order lines /\
     (Qsum S_pre == S_total (file_order lines) lines)%Q /\
     (nonnegative_file lines -> Forall (fun x => floor_1e100 <= x)%Q S_pre) /\
     mS m = map (fun x => x / Qsum S_pre)%Q S_pre) /\
  (forall p c, 0 <= p < 4 ^ file_order lines -> 0 <= c < 4 ->
     T_entry m p c =
     (pre_entry (file_order lines) lines (4 * p + c) /
      row_total (file_order lines) lines p)%Q).
Proof.
  intros [Hne Hall] H.
  destruct (load_markov_inv lines m Hne H) as (m0 & m_pre & Hk & Hnew & Hload & Hnorm).
  set (k := file_order lines) in *.
  destruct (pow4_14 k Hk) as [Hpos Hle].
  pose proof Hnew as Hnew'. rewrite new_markov_small in Hnew' by exact Hk.
  injection Hnew' as <-.
  destruct (load_lines_inv _ _ _ Hload) as (Ho & HS & HT & _ & Hnth).
  cbn [order mS mT] in Ho, HS, HT, Hnth. rewrite length_replicate in HS, HT.
  assert (Hwf : wf_markov m_pre) by (unfold wf_markov; rewrite Ho; lia).
  rewrite normalize_markov_spec in Hnorm by exact Hwf.
  injection Hnorm as <-. cbn [order mS mT].
  split; [exact Hk|]. split; [exact Ho|]. split.
  { unfold wf_markov. cbn [order mS mT].
    rewrite length_map, (normalize_rows_list_length (Z.to_nat (4 ^ k))) by lia.
    rewrite Ho. lia. }
  split.
  { exists (mS m_pre). split; [lia|]. split; [|split; [|reflexivity]].
    - rewrite (load_lines_S_sum _ _ _ Hload). cbn [mS]. unfold S_total.
      rewrite Qsum_replicate, Z2Nat.id by lia. reflexivity.
    - intros Hnn. apply (load_lines_S_floor _ _ _ Hnn Hload). cbn [mS].
      apply Forall_replicate. lra. }
  intros p c Hp Hc.
  assert (Hentry : forall t, 0 <= t < 4 * 4 ^ k ->
            nth (Z.to_nat t) (mT m_pre) 0%Q = pre_entry k lines t).
  { intros t Ht. rewrite (Hnth t) by lia. unfold pre_entry.
    destruct (last_write k lines t); [reflexivity|].
    apply nth_lookup_Some, lookup_replicate_2. lia. }
  unfold T_entry, row_total. cbn [mT].
  replace (Z.to_nat (4 * p + c)) with (4 * Z.to_nat p + Z.to_nat c)%nat by lia.
  rewrite normalize_rows_list_nth by lia.
  rewrite <- !Hentry by lia.
  repeat f_equal; lia.
Qed.

(** ** Totals of a file with frequencies that are not negative *)

Lemma pre_entry_nonneg k lines t :
  nonnegative_file lines -> (0 <= pre_entry k lines t)%Q.
Proof.
  intros Hnn. unfold pre_entry.
  destruct (last_write k lines t) as [f|] eqn:E.
  - apply last_write_In in E as (l & Hin & _ & <-).
    unfold nonnegative_file in Hnn. rewrite List.Forall_forall in Hnn.
    apply Hnn, Hin.
  - pose proof floor_pos. lra.
Qed.

Lemma row_total_expand k lines p :
  (row_total k lines p ==
   pre_entry k lines (4 * p) + pre_entry k lines (4 * p + 1) +
   pre_entry k lines (4 * p + 2) + pre_entry k lines (4 * p + 3))%Q.
Proof. unfold row_total, Qsum. cbn [fold_left]. ring. Qed.

Lemma row_total_ge k lines p c :
  nonnegative_file lines -> 0 <= c < 4 ->
  (pre_entry k lines (4 * p + c) <= row_total k lines p)%Q.
Proof.
  intros Hnn Hc. rewrite row_total_expand.
  pose proof (pre_entry_nonneg k lines (4 * p) Hnn).
  pose proof (pre_entry_nonneg k lines (4 * p + 1) Hnn).
  pose proof (pre_entry_nonneg k lines (4 * p + 2) Hnn).
  pose proof (pre_entry_nonneg k lines (4 * p + 3) Hnn).
  assert (Hcase : c = 0 \/ c = 1 \/ c = 2 \/ c = 3) by lia.
  destruct Hcase as [-> | [-> | [-> | ->]]]; rewrite ?Z.add_0_r; lra.
Qed.

(** With frequencies that are not negative, the sum of [S] is positive,
    and so is the sum of a row unless its four transitions are all listed
    with a last frequency of 0. *)
Lemma nonnegative_totals lines :
  0 <= file_order lines ->
  nonnegative_file lines ->
  (0 < S_total (file_order lines) lines)%Q /\
  forall p,
    (exists c, 0 <= c < 4 /\
               ~ listed_zero (file_order lines) lines (4 * p + c)) ->
    (0 < row_total (file_order lines) lines p)%Q.
Proof.
  intros Hk Hnn. split.
  - unfold S_total.
    assert (0 <= Qsum (map snd lines))%Q.
    { apply Qsum_nonneg. unfold nonnegative_file in Hnn.
      rewrite List.Forall_forall in Hnn |- *. intros x Hx.
      apply in_map_iff in Hx as [l [<- Hl]]. apply Hnn, Hl. }
    assert (0 < inject_Z (4 ^ file_order lines))%Q.
    { change 0%Q with (inject_Z 0). rewrite <- Zlt_Qlt. apply pow4_pos, Hk. }
    pose proof floor_pos. nra.
  - intros p (c & Hc & Hnz).
    apply (Qlt_le_trans _ (pre_entry (file_order lines) lines (4 * p + c)));
      [|apply row_total_ge; assumption].
    pose proof (pre_entry_nonneg (file_order lines) lines (4 * p + c) Hnn) as H0.
    unfold pre_entry in *.
    destruct (last_write (file_order lines) lines (4 * p + c)) as [f|] eqn:E;
      [|exact floor_pos].
    destruct (Qlt_le_dec 0 f) as [|Hle]; [assumption|].
    exfalso. apply Hnz. exists f. split; [exact E|]. lra.
Qed.

(** C3, as amended: after [load_markov] succeeds on a well-formed
    frequency file, the model has the order of the file and tables of
    [4^order] and [4 * 4^order] entries, the sum of the four entries of
    every row of [T] is 1 and the sum of [S] over the [4^order] prefixes
    is 1, in exact arithmetic, provided no sum the entries are divided by is zero: the
    sum of [S] before normalisation (the floor of every entry and every
    frequency of the file) and, for every prefix, the sum of its row
    before normalisation (the last frequency listed for each transition,
    the floor for a transition that is not listed). *)
Theorem load_markov_normalized lines m :
  well_formed_file lines ->
  load_markov lines = Some m ->
  ~ (S_total (file_order lines) lines == 0)%Q ->
  (forall p, 0 <= p < 4 ^ file_order lines ->
     ~ (row_total (file_order lines) lines p == 0)%Q) ->
  order m = file_order lines /\
  wf_markov m /\
  (forall p, 0 <= p < 4 ^ order m -> (T_row_sum m p == 1)%Q) /\
  (Qsum (mS m) == 1)%Q.
Proof.
  intros Hwf Hload HS HT.
  destruct (load_markov_spec lines m Hwf Hload)
    as (Hk & Ho & Hwfm & (S_pre & _ & Hsum & _ & HmS) & Hentry).
  split; [exact Ho|]. split; [exact Hwfm|]. split.
  - intros p Hp. rewrite Ho in Hp. unfold T_row_sum.
    rewrite !Hentry by lia. rewrite Z.add_0_r.
    unfold row_total. apply row_normalized. apply (HT p Hp).
  - rewrite HmS. apply Qsum_normalized. rewrite Hsum. exact HS.
Qed.

Lemma finite_nonnegative_nonnegative lines :
  finite_nonnegative_file lines -> nonnegative_file lines.
Proof.
  unfold finite_nonnegative_file, nonnegative_file.
  rewrite !List.Forall_forall. intros H l Hl. apply (H l Hl).
Qed.

(** C9, as amended: after [load_markov] succeeds on a well-formed
    frequency file whose frequencies are finite and not negative, the
    entry of [T] for a prefix and a symbol that are on no data line is, in
    exact arithmetic, the floor 1e-100 divided by the sum of the row
    before normalisation; it is strictly positive, and at most 1e-100 / f
    for every frequency f > 0 the file lists last for a transition of the
    same prefix. *)
Theorem load_markov_unlisted_transition lines m p c :
  well_formed_file lines ->
  finite_nonnegative_file lines ->
  load_markov lines = Some m ->
  0 <= p < 4 ^ file_order lines ->
  0 <= c < 4 ->
  unlisted (file_order lines) lines p c ->
  T_entry m p c = (floor_1e100 / row_total (file_order lines) lines p)%Q /\
  (0 < row_total (file_order lines) lines p)%Q /\
  (0 < T_entry m p c)%Q /\
  forall c' f,
    0 <= c' < 4 ->
    last_write (file_order lines) lines (4 * p + c') = Some f ->
    (0 < f)%Q ->
    (T_entry m p c <= floor_1e100 / f)%Q.
Proof.
  intros Hwf Hfin Hload Hp Hc Hun.
  pose proof (finite_nonnegative_nonnegative lines Hfin) as Hnn.
  destruct (load_markov_spec lines m Hwf Hload) as (Hk & _ & _ & _ & Hentry).
  set (k := file_order lines) in *.
  assert (Hnone : last_write k lines (4 * p + c) = None).
  { apply unlisted_last_write; auto.
    destruct Hwf as [_ Hall]. rewrite List.Forall_forall in Hall |- *.
    intros l Hl. apply (Hall l Hl). }
  assert (Hpre : pre_entry k lines (4 * p + c) = floor_1e100)
    by (unfold pre_entry; rewrite Hnone; reflexivity).
  rewrite (Hentry p c Hp Hc), Hpre.
  pose proof floor_pos as Hfloor.
  assert (Hpos : (0 < row_total k lines p)%Q ->
                 (0 < floor_1e100 / row_total k lines p)%Q).
  { intros Hrt. apply Qlt_shift_div_l; [exact Hrt|]. lra. }
  assert (Hrt : (floor_1e100 <= row_total k lines p)%Q)
    by (rewrite <- Hpre; apply row_total_ge; assumption).
  split; [reflexivity|]. split; [lra|].
  split; [apply Hpos; lra|].
  intros c' f Hc' Hf Hfpos.
  assert (Hge : (f <= row_total k lines p)%Q).
  { pose proof (row_total_ge k lines p c' Hnn Hc') as H.
    unfold pre_entry in H. rewrite Hf in H. exact H. }
  apply Qle_shift_div_l; [exact Hfpos|].
  assert (Hx : (f / row_total k lines p <= 1)%Q)
    by (apply Qle_shift_div_r; lra).
  assert (E : (floor_1e100 / row_total k lines p * f ==
               floor_1e100 * (f / row_total k lines p))%Q) by (field; lra).
  rewrite E. nra.
Qed.

(** ** Files that load *)

Lemma load_lines_total lines : forall m,
  wf_markov m ->
  Forall (fun l => valid_window (fst l) 0 (order m + 1)) lines ->
  exists m', load_lines lines (Some m) = Some (Some m').
Proof.
  induction lines as [|l rest IH]; intros m Hwf Hall.
  - exists m. reflexivity.
  - inversion Hall as [|? ? Hl Hrest]; subst.
    pose proof Hwf as (Hk & HS & HT).
    destruct (well_formed_line (order m) l Hk Hl) as (Hp & Hs & Ht).
    destruct (load_line_in_range m l) as [m1 Hm1]; [lia|lia|].
    cbn [load_lines]. rewrite Hm1. cbn [mbind option_bind].
    apply load_line_inv in Hm1 as (s & _ & _ & ->).
    apply IH; [|exact Hrest].
    unfold wf_markov. cbn [order mS mT]. rewrite !length_insert. auto.
Qed.

(** [load_markov] returns a model for every well-formed file of an order
    up to 14. *)
Lemma load_markov_total lines :
  well_formed_file lines ->
  0 <= file_order lines <= 14 ->
  exists m, load_markov lines = Some m.
Proof.
  intros [Hne Hall] Hk. destruct lines as [|l rest]; [contradiction|].
  unfold load_markov. rewrite load_lines_None.
  change (Z.of_nat (length (fst l)) - 1) with (file_order (l :: rest)).
  set (k := file_order (l :: rest)) in *.
  pose proof (new_markov_small k Hk) as Hnew. rewrite Hnew.
  destruct (new_markov_wf k _ Hk Hnew) as [Ho Hwf].
  cbn [mbind option_bind].
  destruct (load_lines_total (l :: rest) _ Hwf) as [m' Hm'].
  { rewrite Ho. rewrite List.Forall_forall in Hall |- *.
    intros x Hx. apply (Hall x Hx). }
  rewrite Hm'. cbn [mbind option_bind].
  destruct (load_lines_inv _ _ _ Hm') as (Ho' & HS' & HT' & _).
  rewrite normalize_markov_spec; [eauto|].
  destruct Hwf as (Hk0 & HS0 & HT0). unfold wf_markov.
  rewrite Ho', HS', HT'. auto.
Qed.

Lemma well_formed_fileb_spec lines :
  well_formed_fileb lines = true -> well_formed_file lines.
Proof.
  unfold well_formed_fileb, well_formed_file.
  destruct lines as [|l rest]; [discriminate|].
  set (k := file_order (l :: rest)). intros H.
  split; [discriminate|].
  rewrite forallb_forall in H. apply List.Forall_forall. intros x Hx.
  specialize (H x Hx). apply andb_prop in H as [H1 H2].
  split; [apply Z.eqb_eq, H1|apply valid_windowb_spec, H2].
Qed.

Lemma nonnegative_fileb_spec lines :
  nonnegative_fileb lines = true -> nonnegative_file lines.
Proof.
  unfold nonnegative_fileb, nonnegative_file. intros H.
  rewrite forallb_forall in H. apply List.Forall_forall. intros x Hx.
  apply Qle_bool_imp_le, H, Hx.
Qed.

Lemma finite_nonnegative_fileb_spec lines :
  finite_nonnegative_fileb lines = true -> finite_nonnegative_file lines.
Proof.
  unfold finite_nonnegative_fileb, finite_nonnegative_file. intros H.
  rewrite forallb_forall in H. apply List.Forall_forall. intros x Hx.
  specialize (H x Hx). apply andb_prop in H as [H1 H2].
  split; apply Qle_bool_imp_le; assumption.
Qed.

Lemma unlistedb_spec k lines p c :
  unlistedb k lines p c = true -> unlisted k lines p c.
Proof.
  unfold unlistedb, unlisted. intros H l Hl [Hp Hc].
  rewrite forallb_forall in H. specialize (H l Hl).
  rewrite Hp, Hc, !Z.eqb_refl in H. discriminate H.
Qed.

Lemma load_markov_normalized_witness :
  exists m,
    load_markov small_file = Some m /\
    order m = file_order small_file /\
    wf_markov m /\
    (forall p, 0 <= p < 4 ^ order m -> (T_row_sum m p == 1)%Q) /\
    (Qsum (mS m) == 1)%Q.
Proof.
  assert (Hwf : well_formed_file small_file)
    by (apply well_formed_fileb_spec; reflexivity).
  destruct (load_markov_total small_file Hwf) as [m Hm]; [simpl; lia|].
  exists m. split; [exact Hm|].
  apply (load_markov_normalized small_file m Hwf Hm).
  - intros H. vm_compute in H. discriminate H.
  - intros p Hp.
    assert (Hc : p = 0 \/ p = 1 \/ p = 2 \/ p = 3) by (simpl in Hp; lia).
    destruct Hc as [-> | [-> | [-> | ->]]]; intros H; vm_compute in H;
      discriminate H.
Defined.

(** C3 as stated fails on a file that lists the four transitions of a
    prefix with the frequency 0: the row is divided by a sum that is 0,
    and does not sum to 1. *)
Lemma load_markov_zero_row :
  well_formed_file zero_file /\
  exists m,
    load_markov zero_file = Some m /\
    (T_row_sum m 0 == 0)%Q /\
    ~ (T_row_sum m 0 == 1)%Q.
Proof.
  split; [apply well_formed_fileb_spec; reflexivity|].
  eexists. split; [vm_compute; reflexivity|].
  split; [vm_compute; reflexivity|].
  intros H. vm_compute in H. discriminate H.
Qed.

Lemma load_markov_unlisted_transition_witness :
  exists m,
    load_markov small_file = Some m /\
    (0 < T_entry m 0 2)%Q /\
    (T_entry m 0 2 <= floor_1e100 / (3 # 10))%Q.
Proof.
  assert (Hwf : well_formed_file small_file)
    by (apply well_formed_fileb_spec; reflexivity).
  destruct (load_markov_total small_file Hwf) as [m Hm]; [simpl; lia|].
  exists m. split; [exact Hm|].
  destruct (load_markov_unlisted_transition small_file m 0 2 Hwf)
    as (_ & _ & Hpos & Hub).
  - apply finite_nonnegative_fileb_spec. reflexivity.
  - exact Hm.
  - simpl. lia.
  - lia.
  - apply unlistedb_spec. reflexivity.
  - split; [exact Hpos|].
    apply (Hub 0 (3 # 10)%Q); [lia|reflexivity|reflexivity].
Defined.

(** C9 as stated fails twice.  On a file that lists AA alone, the pair of
    the prefix C and the symbol A is on no line, its row holds the floor
    four times, and the entry is 1/4, above the tolerance 1e-9 of the
    specification: it is not near zero.  On a file that lists AA with a
    negative frequency, the entry of the pair of A and C, on no line, is
    negative. *)
Lemma load_markov_unlisted_not_near_zero :
  (well_formed_file single_file /\
   unlisted (file_order single_file) single_file 1 0 /\
   exists m,
     load_markov single_file = Some m /\
     (T_entry m 1 0 == 1 # 4)%Q /\
     ~ (T_entry m 1 0 <= 1 # 1000000000)%Q) /\
  (well_formed_file negative_file /\
   unlisted (file_order negative_file) negative_file 0 1 /\
   exists m,
     load_markov negative_file = Some m /\
     (T_entry m 0 1 < 0)%Q).
Proof.
  split.
  - split; [apply well_formed_fileb_spec; reflexivity|].
    split; [apply unlistedb_spec; reflexivity|].
    eexists. split; [vm_compute; reflexivity|].
    split; [vm_compute; reflexivity|].
    intros H. vm_compute in H. apply H. reflexivity.
  - split; [apply well_formed_fileb_spec; reflexivity|].
    split; [apply unlistedb_spec; reflexivity|].
    eexists. split; [vm_compute; reflexivity|].
    vm_compute. reflexivity.
Qed.

(** ** More on the encoders *)

Lemma oligo2index_char_loop_symbols s s' pos pos' n : forall value sc,
  symbols s pos n = symbols s' pos' n ->
  oligo2index_char_loop s pos n value sc =
  oligo2index_char_loop s' pos' n value sc.
Proof.
  induction n as [|n IH]; intros value sc H; [reflexivity|].
  rewrite !symbols_snoc in H. apply app_inj_tail in H as [Hn Hlast].
  cbn [oligo2index_char_loop]. rewrite Hlast.
  destruct (_ =? -1); [reflexivity|]. apply IH, Hn.
Qed.

Lemma oligo2index_rc_char_loop_symbols s s' pos pos' n : forall i i' value sc,
  symbols s (pos + i) n = symbols s' (pos' + i') n ->
  oligo2index_rc_char_loop s pos n i value sc =
  oligo2index_rc_char_loop s' pos' n i' value sc.
Proof.
  induction n as [|n IH]; intros i i' value sc H; [reflexivity|].
  rewrite !symbols_cons in H. injection H as Hhead Htail.
  cbn [oligo2index_rc_char_loop]. rewrite Hhead.
  destruct (_ =? -1); [reflexivity|]. apply IH.
  rewrite !Z.add_assoc. exact Htail.
Qed.

Lemma oligo2index_char_symbols s s' pos pos' l :
  symbols s pos (Z.to_nat l) = symbols s' pos' (Z.to_nat l) ->
  oligo2index_char s pos l = oligo2index_char s' pos' l.
Proof. apply oligo2index_char_loop_symbols. Qed.

(** X3: the two encoders depend on the symbol values of the window alone:
    two windows with the same values, such as the same word in another
    case or at another offset of another buffer, get the same forward
    index and the same reverse-complement index, the failure value
    included, whatever the length. *)
Theorem encoders_depend_on_symbols s s' pos pos' l :
  symbols s pos (Z.to_nat l) = symbols s' pos' (Z.to_nat l) ->
  oligo2index_char s pos l = oligo2index_char s' pos' l /\
  oligo2index_rc_char s pos l = oligo2index_rc_char s' pos' l.
Proof.
  intros H. split; [apply oligo2index_char_symbols, H|].
  unfold oligo2index_rc_char. apply oligo2index_rc_char_loop_symbols.
  rewrite !Z.add_0_r. exact H.
Qed.

Lemma encoders_depend_on_symbols_witness :
  oligo2index_char (cstr "ttacgtn") 2 4 = oligo2index_char (cstr "ACGT") 0 4 /\
  oligo2index_rc_char (cstr "ttacgtn") 2 4 =
    oligo2index_rc_char (cstr "ACGT") 0 4.
Proof.
  apply (encoders_depend_on_symbols (cstr "ttacgtn") (cstr "ACGT") 2 0 4).
  reflexivity.
Defined.

(** X4: in the [int] range the forward index of a window extends digit
    by digit: for a valid window of [l + 1 <= 15] symbols it is four times
    the index of the first [l] symbols plus the value of the last one, and
    the value of the first symbol times [4^l] plus the index of the last
    [l] symbols. *)
Theorem oligo2index_char_extend seq pos l :
  0 <= l <= 14 ->
  valid_window seq pos (l + 1) ->
  oligo2index_char seq pos (l + 1) =
    4 * oligo2index_char seq pos l + char2int (char_at seq (pos + l)) /\
  oligo2index_char seq pos (l + 1) =
    char2int (char_at seq pos) * 4 ^ l + oligo2index_char seq (pos + 1) l.
Proof.
  intros Hl Hv.
  assert (Hv1 : valid_window seq pos l) by (intros i Hi; apply Hv; lia).
  assert (Hv2 : valid_window seq (pos + 1) l).
  { intros i Hi. replace (pos + 1 + i) with (pos + (i + 1)) by lia.
    apply Hv. lia. }
  destruct (oligo2index_char_small seq pos (l + 1) ltac:(lia) Hv) as [E _].
  destruct (oligo2index_char_small seq pos l ltac:(lia) Hv1) as [E1 _].
  destruct (oligo2index_char_small seq (pos + 1) l ltac:(lia) Hv2) as [E2 _].
  rewrite E, E1, E2.
  replace (Z.to_nat (l + 1)) with (Datatypes.S (Z.to_nat l)) by lia.
  split.
  - rewrite symbols_snoc, weighted_sum_snoc, Z2Nat.id by lia. reflexivity.
  - rewrite symbols_cons. cbn [weighted_sum].
    rewrite symbols_length, Z2Nat.id by lia. reflexivity.
Qed.

Lemma oligo2index_char_extend_witness :
  oligo2index_char (cstr "GATTACA") 1 (3 + 1) =
    4 * oligo2index_char (cstr "GATTACA") 1 3
    + char2int (char_at (cstr "GATTACA") (1 + 3)) /\
  oligo2index_char (cstr "GATTACA") 1 (3 + 1) =
    char2int (char_at (cstr "GATTACA") 1) * 4 ^ 3
    + oligo2index_char (cstr "GATTACA") (1 + 1) 3.
Proof.
  apply (oligo2index_char_extend (cstr "GATTACA") 1 3); [lia|].
  apply valid_windowb_spec. reflexivity.
Defined.

Lemma lsb_sum_rev l : lsb_sum (rev l) = weighted_sum l.
Proof. rewrite <- weighted_sum_rev, rev_involutive. reflexivity. Qed.

Lemma complement_values l :
  Forall (fun v => 0 <= v <= 3) l ->
  Forall (fun v => 0 <= v <= 3) (map (fun v => 3 - v) l).
Proof.
  intros H. apply List.Forall_forall. intros v Hv.
  apply in_map_iff in Hv as [u [<- Hu]].
  rewrite List.Forall_forall in H. specialize (H u Hu). cbn beta in H. lia.
Qed.

Lemma complement_involutive (l : list Z) :
  map (fun v => 3 - v) (map (fun v => 3 - v) l) = l.
Proof.
  rewrite map_map. rewrite <- (map_id l) at 2.
  apply map_ext. intros v. lia.
Qed.

(** The reverse-complement index in the [int] range. *)
Lemma oligo2index_rc_char_small seq pos l :
  0 <= l <= 15 ->
  valid_window seq pos l ->
  oligo2index_rc_char seq pos l =
    lsb_sum (map (fun v => 3 - v) (symbols seq pos (Z.to_nat l))) /\
  0 <= oligo2index_rc_char seq pos l < 4 ^ l.
Proof.
  intros Hl H.
  pose proof (complement_values _ (valid_window_symbols _ _ _ H)) as Hc.
  apply Forall_rev in Hc.
  pose proof (weighted_sum_bounds _ Hc) as B.
  rewrite weighted_sum_rev, length_rev, length_map, symbols_length, Z2Nat.id
    in B by lia.
  assert (4 ^ l <= 4 ^ 15) by (apply Z.pow_le_mono_r; lia).
  rewrite oligo2index_rc_char_valid, wrap_small by (auto; unfold int_range; lia).
  split; [reflexivity|exact B].
Qed.

Lemma oligo2index_rc_char_invalid seq pos l :
  (exists i, 0 <= i < l /\ char2int (char_at seq (pos + i)) = -1) ->
  oligo2index_rc_char seq pos l = -1.
Proof.
  intros [i [Hi E]]. unfold oligo2index_rc_char.
  apply oligo2index_rc_char_loop_invalid. exists (Z.to_nat i).
  rewrite Z.add_0_r, Z2Nat.id by lia. split; [lia|exact E].
Qed.

(** X5: for a window of length [0 <= L <= 15], if all symbols are valid
    [oligo2index_rc_char] returns the sum over the positions [i], left to
    right, of [(3 - symbol_value(i)) * 4^i], a value in [0, 4^L) that two
    windows share only when they have the same symbol values; if a symbol
    is outside the alphabet it returns [-1]. *)
Theorem oligo2index_rc_char_spec seq pos L :
  0 <= L <= 15 ->
  (valid_window seq pos L ->
     oligo2index_rc_char seq pos L =
       lsb_sum (map (fun v => 3 - v) (symbols seq pos (Z.to_nat L))) /\
     0 <= oligo2index_rc_char seq pos L < 4 ^ L /\
     (forall seq' pos',
        valid_window seq' pos' L ->
        oligo2index_rc_char seq' pos' L = oligo2index_rc_char seq pos L ->
        symbols seq' pos' (Z.to_nat L) = symbols seq pos (Z.to_nat L))) /\
  ((exists i, 0 <= i < L /\ char2int (char_at seq (pos + i)) = -1) ->
     oligo2index_rc_char seq pos L = -1).
Proof.
  intros HL. split; [|apply oligo2index_rc_char_invalid].
  intros Hv.
  destruct (oligo2index_rc_char_small seq pos L HL Hv) as [E B].
  split; [exact E|]. split; [exact B|].
  intros seq' pos' Hv' Heq.
  destruct (oligo2index_rc_char_small seq' pos' L HL Hv') as [E' _].
  rewrite E, E', <- !weighted_sum_rev in Heq.
  apply weighted_sum_inj in Heq.
  - apply (f_equal (@rev Z)) in Heq. rewrite !rev_involutive in Heq.
    apply (f_equal (map (fun v => 3 - v))) in Heq.
    rewrite !complement_involutive in Heq. exact Heq.
  - apply Forall_rev, complement_values, valid_window_symbols, Hv'.
  - apply Forall_rev, complement_values, valid_window_symbols, Hv.
  - rewrite !length_rev, !length_map, !symbols_length. reflexivity.
Qed.

Lemma oligo2index_rc_char_spec_witness :
  oligo2index_rc_char (cstr "AACG") 0 4 = lsb_sum [3; 3; 2; 1] /\
  oligo2index_rc_char (cstr "AAXG") 0 4 = -1.
Proof.
  split.
  - apply (oligo2index_rc_char_spec (cstr "AACG") 0 4); [lia|].
    apply valid_windowb_spec. reflexivity.
  - apply (oligo2index_rc_char_spec (cstr "AAXG") 0 4); [lia|].
    exists 2. split; [lia|reflexivity].
Defined.

Lemma reverse_complement_valid s :
  valid_window s 0 (Z.of_nat (length s)) ->
  Forall (fun v => v <> -1) (map char2int s) /\
  valid_window (reverse_complement s) 0 (Z.of_nat (length s)).
Proof.
  intros Hv.
  assert (Hall : Forall (fun v => v <> -1) (map char2int s)).
  { rewrite <- symbols_whole. apply valid_window_Forall, Hv. }
  split; [exact Hall|].
  rewrite <- (reverse_complement_length s). apply valid_window_whole.
  rewrite valid_window_complement by exact Hall.
  apply Forall_rev. rewrite List.Forall_forall in Hall |- *.
  intros v Hin. apply in_map_iff in Hin as [u [<- Hu]].
  apply in_map_iff in Hu as [c [<- Hc]].
  destruct (char2int_range c) as [E|R]; [|lia].
  exfalso. apply (Hall (char2int c)); [apply in_map; exact Hc|exact E].
Qed.

(** X6: taking the reverse complement twice gives the word back: for a
    string of valid symbols, [oligo2index_rc_char] of its reverse-complement
    string is [oligo2index_char] of the string itself. *)
Theorem oligo2index_rc_char_of_reverse_complement s :
  valid_window s 0 (Z.of_nat (length s)) ->
  oligo2index_rc_char (reverse_complement s) 0 (Z.of_nat (length s)) =
  oligo2index_char s 0 (Z.of_nat (length s)).
Proof.
  intros Hv. destruct (reverse_complement_valid s Hv) as [Hall Hrc].
  rewrite oligo2index_rc_char_valid by exact Hrc.
  rewrite oligo2index_char_valid by exact Hv.
  rewrite Nat2Z.id. rewrite <- (reverse_complement_length s) at 1.
  rewrite !symbols_whole, valid_window_complement by exact Hall.
  rewrite map_rev, complement_involutive, lsb_sum_rev. reflexivity.
Qed.

Lemma oligo2index_rc_char_of_reverse_complement_witness :
  oligo2index_rc_char (cstr "CGTT") 0 4 = oligo2index_char (cstr "AACG") 0 4.
Proof.
  apply (oligo2index_rc_char_of_reverse_complement (cstr "AACG")).
  apply valid_windowb_spec. reflexivity.
Defined.

Lemma self_complement_even (l : list Z) :
  l = rev (map (fun v => 3 - v) l) -> Nat.Even (length l).
Proof.
  intros H. destruct (Nat.Even_or_Odd (length l)) as [|[k Hk]]; [assumption|].
  exfalso.
  assert (Hn : nth k l 0 = 3 - nth k l 0).
  { rewrite H at 1. rewrite rev_nth by (rewrite length_map; lia).
    rewrite length_map.
    replace (length l - Datatypes.S k)%nat with k by lia.
    change 0 with ((fun v => 3 - v) 3) at 1.
    rewrite map_nth. f_equal. apply nth_indep. lia. }
  lia.
Qed.

(** X7: the windows the two strands share.  For a valid window of length
    [0 <= L <= 15] the reverse-complement index equals the forward index
    exactly when the symbol values read backwards are the complements of
    the values read forwards; no window of odd length is its own reverse
    complement. *)
Theorem oligo2index_self_complementary seq pos L :
  0 <= L <= 15 ->
  valid_window seq pos L ->
  (oligo2index_rc_char seq pos L = oligo2index_char seq pos L <->
   symbols seq pos (Z.to_nat L) =
   rev (map (fun v => 3 - v) (symbols seq pos (Z.to_nat L)))) /\
  (Z.odd L = true ->
   oligo2index_rc_char seq pos L <> oligo2index_char seq pos L).
Proof.
  intros HL Hv.
  destruct (oligo2index_rc_char_small seq pos L HL Hv) as [Erc _].
  destruct (oligo2index_char_small seq pos L HL Hv) as [Efw _].
  pose proof (valid_window_symbols _ _ _ Hv) as Hs.
  assert (Hiff : oligo2index_rc_char seq pos L = oligo2index_char seq pos L <->
                 symbols seq pos (Z.to_nat L) =
                 rev (map (fun v => 3 - v) (symbols seq pos (Z.to_nat L)))).
  { rewrite Erc, Efw, <- weighted_sum_rev. split.
    - intros E. symmetry in E. apply weighted_sum_inj in E; auto.
      + apply Forall_rev, complement_values, Hs.
      + rewrite length_rev, length_map. reflexivity.
    - intros E. rewrite <- E. reflexivity. }
  split; [exact Hiff|].
  intros Hodd E. apply Hiff in E. apply self_complement_even in E.
  rewrite symbols_length in E. destruct E as [k Hk].
  rewrite <- (Z2Nat.id L), Hk in Hodd by lia.
  rewrite Nat2Z.inj_mul, Z.odd_mul in Hodd. discriminate Hodd.
Qed.

Lemma oligo2index_self_complementary_witness :
  (oligo2index_rc_char (cstr "ACGT") 0 4 = oligo2index_char (cstr "ACGT") 0 4 <->
   symbols (cstr "ACGT") 0 (Z.to_nat 4) =
   rev (map (fun v => 3 - v) (symbols (cstr "ACGT") 0 (Z.to_nat 4)))) /\
  (Z.odd 4 = true ->
   oligo2index_rc_char (cstr "ACGT") 0 4 <> oligo2index_char (cstr "ACGT") 0 4).
Proof.
  apply (oligo2index_self_complementary (cstr "ACGT") 0 4); [lia|].
  apply valid_windowb_spec. reflexivity.
Defined.

(** ** More on [load_markov] *)

Lemma load_lines_S_range lines : forall m m',
  load_lines lines (Some m) = Some (Some m') ->
  Forall (fun l => 0 <= line_prefix (order m) l < Z.of_nat (length (mS m)))
    lines.
Proof.
  induction lines as [|l rest IH]; intros m m' H; [constructor|].
  cbn [load_lines] in H.
  destruct (load_line (Some m) l) as [m1|] eqn:Hl; [|discriminate].
  cbn [mbind option_bind] in H.
  apply load_line_inv in Hl as (s & Hs & Ht & ->).
  apply IH in H. cbn [order mS] in H. rewrite length_insert in H.
  constructor; [|exact H].
  unfold rd in Hs. destruct (Z.ltb_spec (line_prefix (order m) l) 0);
    [discriminate|].
  apply lookup_lt_Some in Hs. lia.
Qed.

Lemma prefix_total_cons k l rest p :
  (prefix_total k (l :: rest) p ==
   (if line_prefix k l =? p then snd l else 0) + prefix_total k rest p)%Q.
Proof.
  unfold prefix_total. cbn [List.filter].
  destruct (line_prefix k l =? p); cbn [map].
  - apply Qsum_cons.
  - ring.
Qed.

Lemma load_lines_S_entry lines : forall m m' p,
  load_lines lines (Some m) = Some (Some m') ->
  0 <= p ->
  (nth (Z.to_nat p) (mS m') 0 ==
   nth (Z.to_nat p) (mS m) 0 + prefix_total (order m) lines p)%Q.
Proof.
  induction lines as [|l rest IH]; intros m m' p H Hp.
  - cbn [load_lines] in H. injection H as <-.
    unfold prefix_total, Qsum. cbn [List.filter map fold_left]. ring.
  - cbn [load_lines] in H.
    destruct (load_line (Some m) l) as [m1|] eqn:Hl; [|discriminate].
    cbn [mbind option_bind] in H.
    apply load_line_inv in Hl as (s & Hs & Ht & ->).
    rewrite (IH _ _ p H Hp), prefix_total_cons. cbn [order mS].
    unfold rd in Hs.
    destruct (Z.ltb_spec (line_prefix (order m) l) 0) as [|Hge];
      [discriminate|].
    destruct (Z.eqb_spec (line_prefix (order m) l) p) as [E|Hne].
    + rewrite E in *.
      rewrite (nth_lookup_Some _ _ 0%Q _ Hs).
      rewrite (nth_lookup_Some _ _ 0%Q (s + snd l)%Q).
      * ring.
      * apply list_lookup_insert_eq. apply lookup_lt_Some in Hs. exact Hs.
    + rewrite !nth_lookup, list_lookup_insert_ne by lia. ring.
Qed.

(** The entries of [S] of the loaded model. *)
Lemma load_markov_S_spec lines m p :
  well_formed_file lines ->
  load_markov lines = Some m ->
  0 <= p < 4 ^ file_order lines ->
  (S_entry m p ==
   (floor_1e100 + prefix_total (file_order lines) lines p) /
   S_total (file_order lines) lines)%Q.
Proof.
  intros [Hne Hall] H Hp.
  destruct (load_markov_inv lines m Hne H)
    as (m0 & m_pre & Hk & Hnew & Hload & Hnorm).
  set (k := file_order lines) in *.
  destruct (pow4_14 k Hk) as [Hpos Hle].
  pose proof Hnew as Hnew'. rewrite new_markov_small in Hnew' by exact Hk.
  injection Hnew' as <-.
  destruct (load_lines_inv _ _ _ Hload) as (Ho & HS & HT & _ & _).
  pose proof (load_lines_S_entry _ _ _ p Hload ltac:(lia)) as Hentry.
  pose proof (load_lines_S_sum _ _ _ Hload) as Hsum.
  cbn [order mS mT] in Ho, HS, HT, Hentry, Hsum.
  rewrite length_replicate in HS, HT.
  assert (Hwf : wf_markov m_pre) by (unfold wf_markov; rewrite Ho; lia).
  rewrite normalize_markov_spec in Hnorm by exact Hwf.
  injection Hnorm as <-. unfold S_entry. cbn [mS].
  rewrite (nth_indep _ 0%Q ((fun x => x / Qsum (mS m_pre)) 0)%Q)
    by (rewrite length_map; lia).
  rewrite (map_nth (fun x => x / Qsum (mS m_pre))%Q).
  rewrite Hentry, Hsum, Qsum_replicate, Z2Nat.id by lia.
  rewrite (nth_lookup_Some _ _ 0%Q floor_1e100)
    by (apply lookup_replicate_2; lia).
  unfold S_total. reflexivity.
Qed.

(** X8: [load_markov] reads every well-formed file of an order up to 14
    without leaving its tables: it returns a model of the order of the
    file, with [4^order] entries of [S] and [4 * 4^order] of [T]. *)
Theorem load_markov_well_formed_loads lines :
  well_formed_file lines ->
  0 <= file_order lines <= 14 ->
  exists m,
    load_markov lines = Some m /\
    order m = file_order lines /\
    wf_markov m.
Proof.
  intros Hwf Hk. destruct (load_markov_total lines Hwf Hk) as [m Hm].
  exists m. split; [exact Hm|].
  destruct (load_markov_spec lines m Hwf Hm) as (_ & Ho & Hwfm & _).
  auto.
Qed.

Lemma load_markov_well_formed_loads_witness :
  exists m,
    load_markov small_file = Some m /\
    order m = file_order small_file /\
    wf_markov m.
Proof.
  apply (load_markov_well_formed_loads small_file).
  - apply well_formed_fileb_spec. reflexivity.
  - simpl. lia.
Defined.

(** X9: [load_markov] does not check its input.  It is undefined (a null
    pointer or an access outside [S]) on a file with no data line, on a
    file whose first identifier is empty or longer than 15 characters,
    and on a file with a line whose first [order] characters hold a symbol
    outside {A,C,G,T}. *)
Theorem load_markov_undefined lines :
  lines = [] \/
  file_order lines < 0 \/
  15 <= file_order lines \/
  (exists l, In l lines /\ line_prefix (file_order lines) l = -1) ->
  load_markov lines = None.
Proof.
  intros Hbad.
  destruct (load_markov lines) as [m|] eqn:Hm; [|reflexivity]. exfalso.
  destruct lines as [|l0 rest].
  { unfold load_markov in Hm. cbn in Hm. discriminate Hm. }
  destruct (load_markov_inv (l0 :: rest) m ltac:(discriminate) Hm)
    as (m0 & m_pre & Hk & Hnew & Hload & _).
  destruct Hbad as [E|[Hneg|[Hbig|(l & Hin & Hl)]]];
    [discriminate|lia|lia|].
  apply load_lines_S_range in Hload.
  rewrite new_markov_small in Hnew by exact Hk. injection Hnew as <-.
  cbn [order mS] in Hload. rewrite List.Forall_forall in Hload.
  specialize (Hload l Hin). cbn beta in Hload.
  change (Z.of_nat (length (fst l0)) - 1) with (file_order (l0 :: rest)) in Hload.
  lia.
Qed.

Lemma load_markov_undefined_witness :
  load_markov [(cstr "AA", 1%Q); (cstr "NA", 1%Q)] = None.
Proof.
  apply load_markov_undefined. right. right. right.
  exists (cstr "NA", 1%Q). split; [right; left; reflexivity|reflexivity].
Defined.

Lemma last_write_app k l1 l2 t :
  last_write k (l1 ++ l2) t =
  match last_write k l2 t with
  | Some f => Some f
  | None => last_write k l1 t
  end.
Proof.
  induction l1 as [|l l1 IH]; cbn [app last_write].
  - destruct (last_write k l2 t); reflexivity.
  - rewrite IH. destruct (last_write k l2 t); reflexivity.
Qed.

Lemma well_formed_lines lines :
  well_formed_file lines ->
  Forall (fun l => valid_window (fst l) 0 (file_order lines + 1)) lines.
Proof.
  intros [_ Hall]. rewrite List.Forall_forall in Hall |- *.
  intros l Hl. apply (Hall l Hl).
Qed.

(** X11: the transitions of the loaded model that the file lists.  After
    [load_markov] succeeds on a well-formed file whose frequencies are
    finite and not negative, the entry of [T] for the prefix and the
    trailing symbol of a line is, in exact arithmetic, the frequency of
    that line divided by the sum of the row before normalisation,
    provided that sum is not 0 and no later line lists the same pair: of
    several lines with one identifier the last one alone counts for
    [T]. *)
Theorem load_markov_listed_transition lines m l1 l l2 :
  well_formed_file lines ->
  finite_nonnegative_file lines ->
  load_markov lines = Some m ->
  lines = l1 ++ l :: l2 ->
  unlisted (file_order lines) l2
    (line_prefix (file_order lines) l) (line_symbol (file_order lines) l) ->
  (0 < row_total (file_order lines) lines
         (line_prefix (file_order lines) l))%Q ->
  T_entry m (line_prefix (file_order lines) l)
            (line_symbol (file_order lines) l) =
  (snd l /
   row_total (file_order lines) lines (line_prefix (file_order lines) l))%Q.
Proof.
  intros Hwf _ Hload Hsplit Hun _.
  destruct (load_markov_spec lines m Hwf Hload) as (Hk & _ & _ & _ & Hentry).
  pose proof (well_formed_lines lines Hwf) as Hall.
  set (k := file_order lines) in *.
  assert (Hin : In l lines) by (rewrite Hsplit; apply in_elt).
  rewrite List.Forall_forall in Hall.
  destruct (well_formed_line k l Hk (Hall l Hin)) as (Hp & Hs & Ht).
  rewrite Hentry by lia. f_equal.
  unfold pre_entry. rewrite Hsplit at 1.
  rewrite last_write_app. cbn [last_write].
  rewrite unlisted_last_write; [|exact Hk| |lia|exact Hun].
  - rewrite Ht, Z.eqb_refl. reflexivity.
  - apply List.Forall_forall. intros x Hx. apply Hall.
    rewrite Hsplit. apply in_or_app. right. right. exact Hx.
Qed.

Lemma load_markov_listed_transition_witness :
  exists m,
    load_markov small_file = Some m /\
    T_entry m 0 1 = ((1 # 10) / row_total 1 small_file 0)%Q.
Proof.
  assert (Hwf : well_formed_file small_file)
    by (apply well_formed_fileb_spec; reflexivity).
  destruct (load_markov_total small_file Hwf) as [m Hm]; [simpl; lia|].
  exists m. split; [exact Hm|].
  apply (load_markov_listed_transition small_file m
           [(cstr "AA", 3 # 10)%Q] (cstr "AC", 1 # 10)%Q
           [(cstr "CA", 2 # 10); (cstr "GT", 0); (cstr "TT", 4 # 10)]%Q
           Hwf).
  - apply finite_nonnegative_fileb_spec. reflexivity.
  - exact Hm.
  - reflexivity.
  - apply unlistedb_spec. reflexivity.
  - reflexivity.
Defined.

(** X12: a prefix the file never mentions gets the uniform row.  After
    [load_markov] succeeds on a well-formed file, if no line has the
    prefix [p] then the four transitions of [p] are 1/4 each. *)
Theorem load_markov_unlisted_prefix_uniform lines m p c :
  well_formed_file lines ->
  load_markov lines = Some m ->
  0 <= p < 4 ^ file_order lines ->
  0 <= c < 4 ->
  (forall l, In l lines -> line_prefix (file_order lines) l <> p) ->
  (T_entry m p c == 1 # 4)%Q.
Proof.
  intros Hwf Hload Hp Hc Hun.
  destruct (load_markov_spec lines m Hwf Hload) as (Hk & _ & _ & _ & Hentry).
  pose proof (well_formed_lines lines Hwf) as Hall.
  set (k := file_order lines) in *.
  assert (Hpre : forall c', 0 <= c' < 4 ->
            pre_entry k lines (4 * p + c') = floor_1e100).
  { intros c' Hc'. unfold pre_entry.
    rewrite unlisted_last_write; auto.
    intros l Hl [E _]. apply (Hun l Hl E). }
  rewrite Hentry by lia. unfold row_total.
  rewrite <- (Z.add_0_r (4 * p)) at 2.
  rewrite !Hpre by lia.
  pose proof floor_pos. unfold Qsum. cbn [fold_left]. field. lra.
Qed.

Lemma load_markov_unlisted_prefix_uniform_witness :
  exists m,
    load_markov single_file = Some m /\ (T_entry m 2 3 == 1 # 4)%Q.
Proof.
  assert (Hwf : well_formed_file single_file)
    by (apply well_formed_fileb_spec; reflexivity).
  destruct (load_markov_total single_file Hwf) as [m Hm]; [simpl; lia|].
  exists m. split; [exact Hm|].
  apply (load_markov_unlisted_prefix_uniform single_file m 2 3 Hwf Hm).
  - simpl. lia.
  - lia.
  - intros l [<-|[]]. discriminate.
Defined.

Lemma Qsum_filter_le (f : freq_line -> bool) lines :
  nonnegative_file lines ->
  (0 <= Qsum (map snd (List.filter f lines)) /\
   Qsum (map snd (List.filter f lines)) <= Qsum (map snd lines))%Q.
Proof.
  induction 1 as [|l rest Hl _ IH]; cbn [List.filter map].
  - unfold Qsum. cbn [fold_left]. lra.
  - destruct (f l); cbn [map]; rewrite ?Qsum_cons; lra.
Qed.

Lemma load_markov_entries_range lines m p c :
  well_formed_file lines ->
  nonnegative_file lines ->
  load_markov lines = Some m ->
  0 <= p < 4 ^ file_order lines ->
  0 <= c < 4 ->
  (0 < S_entry m p /\ S_entry m p <= 1)%Q /\
  ((0 < row_total (file_order lines) lines p)%Q ->
   (0 <= T_entry m p c /\ T_entry m p c <= 1)%Q).
Proof.
  intros Hwf Hnn Hload Hp Hc.
  destruct (load_markov_spec lines m Hwf Hload) as (Hk & _ & _ & _ & Hentry).
  pose proof (load_markov_S_spec lines m p Hwf Hload Hp) as HS.
  set (k := file_order lines) in *.
  pose proof floor_pos as Hfloor. split.
  - rewrite HS.
    destruct (Qsum_filter_le (fun l => line_prefix k l =? p) lines Hnn)
      as [H0 Hle].
    fold (prefix_total k lines p) in H0, Hle.
    assert (Hone : (1 <= inject_Z (4 ^ k))%Q).
    { change 1%Q with (inject_Z 1). rewrite <- Zle_Qle.
      pose proof (pow4_pos k ltac:(lia)). lia. }
    assert (Hnum : (floor_1e100 + prefix_total k lines p <= S_total k lines)%Q)
      by (unfold S_total; nra).
    split.
    + apply Qlt_shift_div_l; lra.
    + apply Qle_shift_div_r; lra.
  - intros Hrow. rewrite (Hentry p c Hp Hc).
    pose proof (pre_entry_nonneg k lines (4 * p + c) Hnn).
    pose proof (row_total_ge k lines p c Hnn Hc).
    split.
    + apply Qle_shift_div_l; lra.
    + apply Qle_shift_div_r; lra.
Qed.

(** X13: the loaded model holds probabilities.  After [load_markov]
    succeeds on a well-formed file whose frequencies are finite and not
    negative, every entry of [S] is above 0 and at most 1, and every
    entry of a row of [T] whose sum before normalisation is not 0 lies
    between 0 and 1. *)
Theorem load_markov_probabilities lines m p c :
  well_formed_file lines ->
  finite_nonnegative_file lines ->
  load_markov lines = Some m ->
  0 <= p < 4 ^ file_order lines ->
  0 <= c < 4 ->
  (0 < S_entry m p /\ S_entry m p <= 1)%Q /\
  ((0 < row_total (file_order lines) lines p)%Q ->
   (0 <= T_entry m p c /\ T_entry m p c <= 1)%Q).
Proof.
  intros Hwf Hfin. apply load_markov_entries_range; [exact Hwf|].
  apply finite_nonnegative_nonnegative, Hfin.
Qed.

Lemma load_markov_probabilities_witness :
  exists m,
    load_markov small_file = Some m /\
    (0 < S_entry m 1 /\ S_entry m 1 <= 1)%Q /\
    (0 <= T_entry m 1 0 /\ T_entry m 1 0 <= 1)%Q.
Proof.
  assert (Hwf : well_formed_file small_file)
    by (apply well_formed_fileb_spec; reflexivity).
  destruct (load_markov_total small_file Hwf) as [m Hm]; [simpl; lia|].
  exists m. split; [exact Hm|].
  destruct (load_markov_probabilities small_file m 1 0 Hwf) as [HS HT].
  - apply finite_nonnegative_fileb_spec. reflexivity.
  - exact Hm.
  - simpl. lia.
  - lia.
  - split; [exact HS|]. apply HT. reflexivity.
Defined.

(** X14: a line whose trailing symbol is outside the alphabet is not
    rejected.  With a valid prefix [p >= 1] its frequency is added to
    [S[p]] and written into [T] at the index [4 * p - 1], the entry of the
    previous prefix for the symbol T; with the prefix 0 the write falls
    before the table and the run is undefined. *)
Theorem load_line_invalid_symbol m l :
  wf_markov m ->
  valid_window (fst l) 0 (order m) ->
  line_symbol (order m) l = -1 ->
  (line_prefix (order m) l = 0 -> load_line (Some m) l = None) /\
  (1 <= line_prefix (order m) l ->
   exists m',
     load_line (Some m) l = Some m' /\
     mS m' = <[Z.to_nat (line_prefix (order m) l) :=
                 (S_entry m (line_prefix (order m) l) + snd l)%Q]> (mS m) /\
     mT m' = <[Z.to_nat (4 * line_prefix (order m) l - 1) := snd l]> (mT m) /\
     T_entry m' (line_prefix (order m) l - 1) 3 = snd l).
Proof.
  intros Hwf Hv Hsym. pose proof Hwf as (Hk & HS & HT).
  destruct (pow4_14 _ Hk) as [Hpos Hle].
  destruct (oligo2index_char_small (fst l) 0 (order m) ltac:(lia) Hv) as [_ B].
  fold (line_prefix (order m) l) in B.
  assert (Hidx : line_T_index (order m) l = 4 * line_prefix (order m) l - 1).
  { unfold line_T_index. rewrite Hsym, wrap_add_l, wrap_small; [lia|].
    unfold int_range. lia. }
  split.
  - intros Hp0. destruct (load_line (Some m) l) as [m'|] eqn:E; [|reflexivity].
    apply load_line_inv in E as (s & _ & Ht & _). lia.
  - intros Hp1.
    destruct (load_line_in_range m l) as [m' Hm']; [lia|lia|].
    exists m'. split; [exact Hm'|].
    apply load_line_inv in Hm' as (s & Hs & _ & ->). cbn [mS mT].
    rewrite Hidx. split; [|split; [reflexivity|]].
    + unfold S_entry. unfold rd in Hs.
      destruct (_ <? 0); [discriminate|].
      rewrite (nth_lookup_Some _ _ 0%Q _ Hs). reflexivity.
    + unfold T_entry. cbn [mT].
      replace (4 * (line_prefix (order m) l - 1) + 3)
        with (4 * line_prefix (order m) l - 1) by lia.
      apply nth_lookup_Some, list_lookup_insert_eq. lia.
Qed.

Lemma load_line_invalid_symbol_witness :
  (line_prefix (order example_model) (cstr "CN", 7 # 10)%Q = 0 ->
   load_line (Some example_model) (cstr "CN", 7 # 10)%Q = None) /\
  (1 <= line_prefix (order example_model) (cstr "CN", 7 # 10)%Q ->
   exists m',
     load_line (Some example_model) (cstr "CN", 7 # 10)%Q = Some m' /\
     mS m' =
       <[Z.to_nat (line_prefix (order example_model) (cstr "CN", 7 # 10)%Q) :=
           (S_entry example_model
              (line_prefix (order example_model) (cstr "CN", 7 # 10)%Q)
            + snd (cstr "CN", 7 # 10)%Q)%Q]> (mS example_model) /\
     mT m' =
       <[Z.to_nat
           (4 * line_prefix (order example_model) (cstr "CN", 7 # 10)%Q - 1) :=
           snd (cstr "CN", 7 # 10)%Q]> (mT example_model) /\
     T_entry m'
       (line_prefix (order example_model) (cstr "CN", 7 # 10)%Q - 1) 3 =
     snd (cstr "CN", 7 # 10)%Q).
Proof.
  apply (load_line_invalid_symbol example_model (cstr "CN", 7 # 10)%Q).
  - exact example_model_wf.
  - apply valid_windowb_spec. reflexivity.
  - reflexivity.
Defined.

(** ** More on the likelihood *)

Lemma rd_Forall {A : Type} (P : A -> Prop) (a : list A) i x :
  Forall P a -> rd a i = Some x -> P x.
Proof.
  intros Hall Hrd. unfold rd in Hrd. destruct (i <? 0); [discriminate|].
  rewrite Forall_lookup in Hall. apply (Hall _ _ Hrd).
Qed.

Lemma markov_P_loop_range m seq n : forall i p q,
  Forall (fun x => 0 <= x /\ x <= 1)%Q (mT m) ->
  (0 <= p /\ p <= 1)%Q ->
  markov_P_loop m seq n i p = Some q ->
  (0 <= q /\ q <= 1)%Q.
Proof.
  induction n as [|n IH]; intros i p q HT Hp H; cbn [markov_P_loop] in H.
  - injection H as <-. exact Hp.
  - destruct (_ || _).
    + injection H as <-. lra.
    + destruct (rd (mT m) _) as [t|] eqn:Ht; [|discriminate].
      cbn [mbind option_bind] in H.
      pose proof (rd_Forall _ _ _ _ HT Ht) as Hrange. cbn beta in Hrange.
      apply (IH _ _ _ HT) in H; [exact H|]. nra.
Qed.

Lemma markov_P_range m seq pos L p :
  Forall (fun x => 0 <= x /\ x <= 1)%Q (mS m) ->
  Forall (fun x => 0 <= x /\ x <= 1)%Q (mT m) ->
  markov_P m seq pos L = Some p ->
  (0 <= p /\ p <= 1)%Q.
Proof.
  intros HS HT H. unfold markov_P in H.
  destruct (_ =? -1).
  - injection H as <-. lra.
  - destruct (rd (mS m) _) as [p0|] eqn:Hp0; [|discriminate].
    cbn [mbind option_bind] in H.
    apply (markov_P_loop_range _ _ _ _ _ _ HT) in H; [exact H|].
    apply (rd_Forall _ _ _ _ HS Hp0).
Qed.

(** X15: the likelihood of a model of probabilities is a probability: if
    every entry of [S] and of [T] lies between 0 and 1, every value
    [markov_P] returns lies between 0 and 1. *)
Theorem markov_P_probability m seq pos L p :
  Forall (fun x => 0 <= x /\ x <= 1)%Q (mS m) ->
  Forall (fun x => 0 <= x /\ x <= 1)%Q (mT m) ->
  markov_P m seq pos L = Some p ->
  (0 <= p /\ p <= 1)%Q.
Proof. apply markov_P_range. Qed.

Lemma example_model_probabilities :
  Forall (fun x => 0 <= x /\ x <= 1)%Q (mS example_model) /\
  Forall (fun x => 0 <= x /\ x <= 1)%Q (mT example_model).
Proof.
  split; repeat (constructor; [split; unfold Qle; simpl; lia|]); constructor.
Qed.

Lemma markov_P_probability_witness :
  (0 <= 1 # 8 /\ 1 # 8 <= 1)%Q.
Proof.
  apply (markov_P_probability example_model (cstr "ACG") 0 2 (1 # 8)%Q).
  - apply example_model_probabilities.
  - apply example_model_probabilities.
  - reflexivity.
Defined.

Lemma symbols_pointwise s s' pos n :
  (forall i, char2int (char_at s i) = char2int (char_at s' i)) ->
  symbols s pos n = symbols s' pos n.
Proof. intros H. unfold symbols. apply map_ext. intros i. apply H. Qed.

Lemma markov_P_loop_pointwise m s s' n : forall i p,
  (forall i, char2int (char_at s i) = char2int (char_at s' i)) ->
  markov_P_loop m s n i p = markov_P_loop m s' n i p.
Proof.
  induction n as [|n IH]; intros i p H; [reflexivity|].
  cbn [markov_P_loop].
  rewrite (H i), (oligo2index_char_symbols s s' (i - order m) (i - order m))
    by (apply symbols_pointwise, H).
  destruct (_ || _); [reflexivity|].
  destruct (rd (mT m) _) as [t|]; [|reflexivity].
  cbn [mbind option_bind]. apply IH, H.
Qed.

(** X16: [markov_P] reads its sequence through [char2int] alone: two
    sequences with the same symbol value at every position, such as a
    sequence and its copy in the other case, get the same result. *)
Theorem markov_P_depends_on_symbols m s s' pos L :
  (forall i, char2int (char_at s i) = char2int (char_at s' i)) ->
  markov_P m s pos L = markov_P m s' pos L.
Proof.
  intros H. unfold markov_P.
  rewrite (oligo2index_char_symbols s s' pos pos)
    by (apply symbols_pointwise, H).
  destruct (_ =? -1); [reflexivity|].
  destruct (rd (mS m) _) as [p|]; [|reflexivity].
  cbn [mbind option_bind]. apply markov_P_loop_pointwise, H.
Qed.

Lemma markov_P_depends_on_symbols_witness :
  markov_P example_model (cstr "acg") 0 2 =
  markov_P example_model (cstr "ACG") 0 2.
Proof.
  apply markov_P_depends_on_symbols.
  intros i. unfold char_at. destruct (i <? 0); [reflexivity|].
  destruct (Z.to_nat i) as [|[|[|[|n]]]]; reflexivity.
Defined.

Lemma char_at_app_l w c i :
  0 <= i < Z.of_nat (length w) -> char_at (w ++ [c]) i = char_at w i.
Proof.
  intros Hi. unfold char_at. destruct (Z.ltb_spec i 0); [lia|].
  apply app_nth1. lia.
Qed.

Lemma char_at_app_last w c :
  char_at (w ++ [c]) (Z.of_nat (length w)) = c.
Proof.
  unfold char_at. destruct (Z.ltb_spec (Z.of_nat (length w)) 0); [lia|].
  rewrite Nat2Z.id. apply nth_middle.
Qed.

Lemma symbols_app_l w c n :
  (n <= length w)%nat -> symbols (w ++ [c]) 0 n = symbols w 0 n.
Proof.
  intros Hn. unfold symbols. apply map_ext_in. intros i Hi.
  apply in_seq in Hi. rewrite char_at_app_l by lia. reflexivity.
Qed.

(** The likelihood of a word of [order] symbols extended by one symbol. *)
Lemma markov_P_extension m w c :
  wf_markov m ->
  Z.of_nat (length w) = order m ->
  valid_window w 0 (order m) ->
  char2int c <> -1 ->
  markov_P m (w ++ [c]) 0 (order m + 1) =
  Some (S_entry m (oligo2index_char w 0 (order m)) *
        T_entry m (oligo2index_char w 0 (order m)) (char2int c))%Q.
Proof.
  intros Hwf Hlen Hv Hc.
  assert (Hsym : oligo2index_char (w ++ [c]) 0 (order m) =
                 oligo2index_char w 0 (order m))
    by (apply oligo2index_char_symbols, symbols_app_l; lia).
  rewrite markov_P_order_plus_one; [|exact Hwf|].
  - unfold likelihood_spec.
    replace (Z.to_nat (order m + 1 - order m)) with 1%nat by lia.
    cbn [transition_product]. rewrite Z.sub_diag, Hsym.
    rewrite <- Hlen at 3. rewrite char_at_app_last. reflexivity.
  - intros i Hi. destruct (Z.eq_dec i (order m)) as [->|Hne].
    + rewrite Z.add_0_l, <- Hlen, char_at_app_last. exact Hc.
    + rewrite Z.add_0_l, char_at_app_l by lia.
      specialize (Hv i ltac:(lia)). rewrite Z.add_0_l in Hv. exact Hv.
Qed.

(** X17: the likelihoods of the four one-symbol extensions of a word of
    [order] valid symbols add up to [S] at the index of the word times the
    sum of its row of [T], that is to [S] at that index when the row is
    normalised. *)
Theorem markov_P_successors m w :
  wf_markov m ->
  Z.of_nat (length w) = order m ->
  valid_window w 0 (order m) ->
  exists pA pC pG pT,
    markov_P m (w ++ cstr "A") 0 (order m + 1) = Some pA /\
    markov_P m (w ++ cstr "C") 0 (order m + 1) = Some pC /\
    markov_P m (w ++ cstr "G") 0 (order m + 1) = Some pG /\
    markov_P m (w ++ cstr "T") 0 (order m + 1) = Some pT /\
    (Qsum [pA; pC; pG; pT] ==
     S_entry m (oligo2index_char w 0 (order m)) *
     T_row_sum m (oligo2index_char w 0 (order m)))%Q /\
    ((T_row_sum m (oligo2index_char w 0 (order m)) == 1)%Q ->
     (Qsum [pA; pC; pG; pT] ==
      S_entry m (oligo2index_char w 0 (order m)))%Q).
Proof.
  intros Hwf Hlen Hv.
  set (p := oligo2index_char w 0 (order m)).
  exists (S_entry m p * T_entry m p 0)%Q, (S_entry m p * T_entry m p 1)%Q,
         (S_entry m p * T_entry m p 2)%Q, (S_entry m p * T_entry m p 3)%Q.
  assert (Hsum : (Qsum [S_entry m p * T_entry m p 0; S_entry m p * T_entry m p 1;
                        S_entry m p * T_entry m p 2; S_entry m p * T_entry m p 3]
                  == S_entry m p * T_row_sum m p)%Q)
    by (unfold T_row_sum, Qsum; cbn [fold_left]; ring).
  repeat split.
  - apply (markov_P_extension m w "A"%char Hwf Hlen Hv). vm_compute. discriminate.
  - apply (markov_P_extension m w "C"%char Hwf Hlen Hv). vm_compute. discriminate.
  - apply (markov_P_extension m w "G"%char Hwf Hlen Hv). vm_compute. discriminate.
  - apply (markov_P_extension m w "T"%char Hwf Hlen Hv). vm_compute. discriminate.
  - exact Hsum.
  - intros Hrow. rewrite Hsum, Hrow. ring.
Qed.

Lemma markov_P_successors_witness :
  exists pA pC pG pT,
    markov_P example_model (cstr "C" ++ cstr "A") 0 (order example_model + 1)
      = Some pA /\
    markov_P example_model (cstr "C" ++ cstr "C") 0 (order example_model + 1)
      = Some pC /\
    markov_P example_model (cstr "C" ++ cstr "G") 0 (order example_model + 1)
      = Some pG /\
    markov_P example_model (cstr "C" ++ cstr "T") 0 (order example_model + 1)
      = Some pT /\
    (Qsum [pA; pC; pG; pT] ==
     S_entry example_model (oligo2index_char (cstr "C") 0 (order example_model)) *
     T_row_sum example_model
       (oligo2index_char (cstr "C") 0 (order example_model)))%Q /\
    ((T_row_sum example_model
        (oligo2index_char (cstr "C") 0 (order example_model)) == 1)%Q ->
     (Qsum [pA; pC; pG; pT] ==
      S_entry example_model
        (oligo2index_char (cstr "C") 0 (order example_model)))%Q).
Proof.
  apply (markov_P_successors example_model (cstr "C")).
  - exact example_model_wf.
  - reflexivity.
  - apply valid_windowb_spec. reflexivity.
Defined.

(** X18: for a window that is not longer than the order the loop of
    [markov_P] does not run: the result is [S] at the index of the first
    [length - 1] symbols of the window when these are valid, and 0 when
    one of them is not; the last symbol of the window and the table [T]
    are not read. *)
Theorem markov_P_window_within_order m seq pos L :
  wf_markov m ->
  1 <= L <= order m ->
  (valid_window seq pos (L - 1) ->
   markov_P m seq pos L =
   Some (S_entry m (oligo2index_char seq pos (L - 1)))) /\
  ((exists i, 0 <= i < L - 1 /\ char2int (char_at seq (pos + i)) = -1) ->
   markov_P m seq pos L = Some 0%Q).
Proof.
  intros (Hk & HS & HT) HL. unfold markov_P.
  replace (Z.to_nat (L - order m)) with 0%nat by lia.
  split.
  - intros Hv.
    destruct (oligo2index_char_small seq pos (L - 1) ltac:(lia) Hv) as [_ B].
    assert (4 ^ (L - 1) <= 4 ^ order m) by (apply Z.pow_le_mono_r; lia).
    destruct (Z.eqb_spec (oligo2index_char seq pos (L - 1)) (-1)); [lia|].
    rewrite (rd_in_range _ _ 0%Q) by lia. reflexivity.
  - intros Hbad. rewrite (oligo2index_char_invalid _ _ _ Hbad). reflexivity.
Qed.

Lemma markov_P_window_within_order_witness :
  markov_P example_model (cstr "GN") 1 1 =
    Some (S_entry example_model (oligo2index_char (cstr "GN") 1 (1 - 1))).
Proof.
  apply (markov_P_window_within_order example_model (cstr "GN") 1 1).
  - exact example_model_wf.
  - simpl. lia.
  - intros i Hi. lia.
Defined.

(** ** Where the likelihood and the report are defined *)

(** The loop of [markov_P] stays inside [T] for a well-formed model: a
    transition is read only after both of its indices were found valid. *)
Lemma markov_P_loop_defined m seq n : forall i p,
  wf_markov m -> exists q, markov_P_loop m seq n i p = Some q.
Proof.
  induction n as [|n IH]; intros i p Hwf; [eexists; reflexivity|].
  cbn [markov_P_loop].
  destruct (Z.eqb_spec (char2int (char_at seq i)) (-1)) as [|Hs];
    [eexists; reflexivity|].
  destruct (Z.eqb_spec (oligo2index_char seq (i - order m) (order m)) (-1))
    as [|Hp]; [eexists; reflexivity|].
  cbn [orb].
  destruct (transition_read m seq i Hwf
              (oligo2index_char_not_failed _ _ _ Hp) Hs) as [_ Hr].
  rewrite Hr. cbn [mbind option_bind]. apply IH, Hwf.
Qed.

Lemma oligo2index_char_nonpos seq pos l :
  l <= 0 -> oligo2index_char seq pos l = 0.
Proof.
  intros Hl. unfold oligo2index_char.
  replace (Z.to_nat l) with 0%nat by lia. reflexivity.
Qed.

Lemma markov_P_defined m seq pos L :
  wf_markov m -> L <= order m + 1 ->
  exists p, markov_P m seq pos L = Some p.
Proof.
  intros Hwf HL. pose proof Hwf as (Hk & HS & HT). unfold markov_P.
  destruct (Z.eqb_spec (oligo2index_char seq pos (L - 1)) (-1)) as [|Hp];
    [eexists; reflexivity|].
  assert (Hr : 0 <= oligo2index_char seq pos (L - 1) < 4 ^ order m).
  { destruct (Z.le_gt_cases (L - 1) 0) as [Hneg|Hpos].
    - rewrite oligo2index_char_nonpos by exact Hneg.
      pose proof (Z.pow_pos_nonneg 4 (order m)). lia.
    - destruct (oligo2index_char_small seq pos (L - 1) ltac:(lia)
                  (oligo2index_char_not_failed _ _ _ Hp)) as [_ B].
      assert (4 ^ (L - 1) <= 4 ^ order m) by (apply Z.pow_le_mono_r; lia).
      lia. }
  rewrite (rd_in_range _ _ 0%Q) by lia. cbn [mbind option_bind].
  apply markov_P_loop_defined, Hwf.
Qed.

(** X19: for a well-formed model and a window of at most [order + 1]
    symbols that the buffer holds, the [length - 1] characters from [pos]
    that give the prefix and the [length] characters from 0 that the loop
    reads, [markov_P] reads inside [S] and [T] and returns a value,
    whatever the symbols are. *)
Theorem markov_P_in_bounds m seq pos L :
  wf_markov m -> L <= order m + 1 ->
  inside seq pos (L - 1) ->
  inside seq 0 L ->
  exists p, markov_P m seq pos L = Some p.
Proof. intros Hwf HL _ _. apply markov_P_defined; assumption. Qed.

Lemma markov_P_in_bounds_witness :
  exists p, markov_P example_model (cstr "NNACGT") 5 2 = Some p.
Proof.
  apply (markov_P_in_bounds example_model (cstr "NNACGT") 5 2).
  - exact example_model_wf.
  - simpl. lia.
  - unfold inside. simpl. lia.
  - unfold inside. simpl. lia.
Defined.

Lemma double2long_defined x :
  (0 <= x)%Q -> (x < inject_Z (2 ^ 63))%Q ->
  exists z, double2long x = Some z /\ 0 <= z /\ (inject_Z z <= x)%Q.
Proof.
  intros H0 H1. destruct x as [a b]. unfold double2long. cbn [Qnum Qden].
  unfold Qle, Qlt, inject_Z in *. cbn [Qnum Qden] in *.
  assert (Ha : 0 <= a) by lia.
  pose proof (Z.quot_pos a (Z.pos b) Ha ltac:(lia)) as Hq.
  pose proof (Z.quot_rem' a (Z.pos b)) as Hqr.
  pose proof (Z.rem_bound_pos a (Z.pos b) Ha ltac:(lia)) as Hr.
  assert (Hlt : a ÷ Z.pos b < 2 ^ 63) by nia.
  destruct (Z.leb_spec (- 2 ^ 63) (a ÷ Z.pos b)); [|lia].
  destruct (Z.ltb_spec (a ÷ Z.pos b) (2 ^ 63)); [|lia].
  cbn [andb]. eexists. split; [reflexivity|]. split; [exact Hq|]. nia.
Qed.

(** On the samples, among them the least and the greatest doubles,
    [round_double] of the exact product, sum and quotient is what the
    machine computes; an infinity there is [None] here. *)
Lemma round_double_machine :
  forallb (fun a => forallb (round_double_agrees a) double_samples)
    double_samples = true.
Proof. vm_compute. reflexivity. Qed.

(** The expected count for a position count below [2^52] and a
    probability between 0 and 2: the conversion of [N] is exact, the
    product is rounded between the integers around [N * p], and the
    truncation gives one of the two. *)
Lemma stats_n_exp_between N p :
  0 <= N < 2 ^ 52 -> (0 <= p /\ p <= 2)%Q ->
  exists d x z,
    long2double N = Some d /\ (d == inject_Z N)%Q /\
    double_mul d p = Some x /\
    double2long x = Some z /\
    stats_n_exp N p = Some z /\
    (inject_Z z <= x /\ x < inject_Z z + 1)%Q /\
    Qfloor (inject_Z N * p) <= z <= Qceiling (inject_Z N * p) /\
    0 <= z <= 2 * N.
Proof.
  intros HN [Hp0 Hp2].
  destruct (long2double_exact N ltac:(lia)) as (d & Hd & Ed).
  assert (HNq : (0 <= inject_Z N)%Q) by (rewrite <- (Zle_Qle 0); lia).
  assert (HN2 : (inject_Z (2 * N) < inject_Z (2 ^ 53))%Q)
    by (rewrite <- Zlt_Qlt; lia).
  assert (E2N : (inject_Z (2 * N) == 2 * inject_Z N)%Q)
    by (rewrite inject_Z_mult; reflexivity).
  assert (Hdp : (d * p == inject_Z N * p)%Q) by (rewrite Ed; reflexivity).
  destruct (round_double_between (d * p)) as (x & Hx & Hb).
  { rewrite Hdp. nra. }
  { rewrite Hdp. apply Qle_lt_trans with (inject_Z (2 * N)); [|exact HN2].
    rewrite E2N. nra. }
  change (round_double (d * p)) with (double_mul d p) in Hx.
  assert (Hx0 : (0 <= x)%Q).
  { destruct (Hb 0) as [H _]. apply H. rewrite Hdp. change (inject_Z 0) with 0%Q.
    nra. }
  assert (Hx2 : (x <= inject_Z (2 * N))%Q).
  { destruct (Hb (2 * N)) as [_ H]. apply H. rewrite Hdp, E2N. nra. }
  destruct (double2long_defined x Hx0) as (z & Hz & Hz0 & Hzx).
  { apply Qle_lt_trans with (inject_Z (2 * N)); [exact Hx2|].
    rewrite <- Zlt_Qlt. lia. }
  destruct (double2long_trunc x z Hz) as (_ & Htr & _). specialize (Htr Hx0).
  exists d, x, z. split; [exact Hd|]. split; [exact Ed|].
  split; [exact Hx|]. split; [exact Hz|]. split.
  { unfold stats_n_exp. rewrite Hd. cbn [mbind option_bind].
    rewrite Hx. cbn [mbind option_bind]. exact Hz. }
  split; [exact Htr|]. split; [split|split; [exact Hz0|]].
  - destruct (Hb (Qfloor (inject_Z N * p))) as [H _].
    assert (Hk : (inject_Z (Qfloor (inject_Z N * p)) <= x)%Q).
    { apply H. rewrite Hdp. apply Qfloor_le. }
    assert (Hlt : (inject_Z (Qfloor (inject_Z N * p)) < inject_Z (z + 1))%Q).
    { rewrite inject_Z_plus. change (inject_Z 1) with 1%Q. lra. }
    rewrite <- Zlt_Qlt in Hlt. lia.
  - destruct (Hb (Qceiling (inject_Z N * p))) as [_ H].
    assert (Hk : (x <= inject_Z (Qceiling (inject_Z N * p)))%Q).
    { apply H. rewrite Hdp. apply Qle_ceiling. }
    rewrite Zle_Qle. lra.
  - rewrite Zle_Qle. lra.
Qed.

(** The rounding at work: three times the double nearest to 1/3 is the
    double 1; [2^62 - 1] is converted to the double [2^62], and twice
    that does not fit a [long]. *)
Lemma stats_n_exp_rounding :
  stats_n_exp 3 third = Some 1 /\
  (inject_Z 3 * third < 1)%Q /\
  (exists d, long2double (2 ^ 62 - 1) = Some d /\ (d == inject_Z (2 ^ 62))%Q) /\
  stats_n_exp (2 ^ 62 - 1) 2 = None.
Proof.
  split; [vm_compute; reflexivity|]. split; [reflexivity|].
  split; [eexists; split; [vm_compute; reflexivity|reflexivity]|].
  vm_compute. reflexivity.
Qed.

Section ReportTheorems.
Variable index2oligo : Z -> Z -> list ascii.
Variable index2oligo_char : Z -> Z -> list ascii.
Variable index2oligo_rc_char : Z -> Z -> list ascii.
Variable pbinom : Z -> Z -> Q -> Q.
Variable log10 : Q -> Q.
Variable rc : bool.
Variable oligo_length : Z.
Variable bg : markov_t.
Variable count : count_t.

Let line (count_only : bool) : Z -> Z -> option record :=
  stats_line index2oligo index2oligo_char index2oligo_rc_char pbinom log10
    rc count_only oligo_length bg count.

(** C6: in enrichment mode the probability [p] of an oligomer is its
    likelihood [p0] doubled exactly when folding is on and the oligomer is
    not flagged palindromic, and [p0] itself when folding is off or the
    oligomer is flagged palindromic; this [p] is the one the record
    holds and the one given to [pbinom]. *)
Theorem enrichment_p_doubling i n p0 pal :
  markov_P bg (index2oligo i oligo_length) 0 oligo_length = Some p0 ->
  (rc = true -> rd (palindromic count) i = Some pal) ->
  let p := (if rc && negb pal then p0 * 2 else p0)%Q in
  stats_p index2oligo rc oligo_length bg count i = Some p /\
  forall n_exp,
    stats_n_exp (position_count count) p = Some n_exp ->
    exists r,
      line false i n = Some r /\
      record_name r = index2oligo_char i oligo_length /\
      record_n r = n /\
      record_p r = Some p /\
      record_pv r = Some (pbinom n (position_count count) p).
Proof.
  intros Hp0 Hpal p.
  pose proof (stats_p_value index2oligo index2oligo_char index2oligo_rc_char
                pbinom log10 rc oligo_length bg count i p0 pal Hp0 Hpal)
    as Hp.
  fold p in Hp. split; [exact Hp|].
  intros n_exp Hn. eexists. split.
  - apply (stats_line_enrich_record index2oligo index2oligo_char
             index2oligo_rc_char pbinom log10 rc oligo_length bg count
             i n p n_exp Hp Hn).
  - repeat split.
Qed.

(** C7, as amended: in enrichment mode the expected count of a record is
    the product of the position count [N] and the probability [p] of the
    record as line 269 computes it, [N] converted to a double, the
    product rounded to a double and the result cut toward zero to a
    [long].  For [N] below [2^52] and [p] between 0 and 2 every step is
    defined and the expected count is the integer just below or just
    above [N * p]: it is [N * p] only when that is an integer. *)
Theorem expected_count_truncated i n p :
  stats_p index2oligo rc oligo_length bg count i = Some p ->
  (forall d x z,
     long2double (position_count count) = Some d ->
     double_mul d p = Some x ->
     double2long x = Some z ->
     z = Z.quot (Qnum x) (Z.pos (Qden x)) /\
     exists r,
       line false i n = Some r /\
       record_p r = Some p /\ record_n_exp r = Some z) /\
  (0 <= position_count count < 2 ^ 52 -> (0 <= p /\ p <= 2)%Q ->
   exists r n_exp,
     line false i n = Some r /\
     record_p r = Some p /\ record_n_exp r = Some n_exp /\
     Qfloor (inject_Z (position_count count) * p) <= n_exp /\
     n_exp <= Qceiling (inject_Z (position_count count) * p)).
Proof.
  intros Hp. split.
  - intros d x z Hd Hx Hz. split; [apply (double2long_trunc x z Hz)|].
    assert (Hn : stats_n_exp (position_count count) p = Some z).
    { unfold stats_n_exp. rewrite Hd. cbn [mbind option_bind].
      rewrite Hx. cbn [mbind option_bind]. exact Hz. }
    eexists. split.
    + apply (stats_line_enrich_record index2oligo index2oligo_char
               index2oligo_rc_char pbinom log10 rc oligo_length bg count
               i n p z Hp Hn).
    + split; reflexivity.
  - intros HN Hp02.
    destruct (stats_n_exp_between (position_count count) p HN Hp02)
      as (d & x & z & _ & _ & _ & _ & Hn & _ & [Hlo Hhi] & _).
    eexists _, z. split.
    + apply (stats_line_enrich_record index2oligo index2oligo_char
               index2oligo_rc_char pbinom log10 rc oligo_length bg count
               i n p z Hp Hn).
    + repeat split; assumption.
Qed.

Lemma stats_p_defined i :
  enrichment_ready index2oligo rc oligo_length bg count ->
  0 <= i < size count ->
  exists p, stats_p index2oligo rc oligo_length bg count i = Some p /\
            (0 <= p /\ p <= 2)%Q.
Proof.
  intros (Hwf & HL & HS & HT & Hpal & _ & _) Hi. unfold stats_p.
  destruct (markov_P_defined bg (index2oligo i oligo_length) 0 oligo_length
              Hwf HL) as [p0 Hp0].
  pose proof (markov_P_range _ _ _ _ _ HS HT Hp0) as Hr.
  rewrite Hp0. cbn [mbind option_bind]. destruct rc.
  - rewrite (rd_in_range _ _ false) by (specialize (Hpal eq_refl); lia).
    cbn [mbind option_bind].
    destruct (nth _ _ _); cbn [negb]; eexists; (split; [reflexivity|lra]).
  - eexists. split; [reflexivity|lra].
Qed.

Lemma stats_line_defined i n :
  enrichment_ready index2oligo rc oligo_length bg count ->
  0 <= i < size count ->
  exists r p n_exp,
    line false i n = Some r /\
    record_p r = Some p /\ (0 <= p /\ p <= 2)%Q /\
    record_n_exp r = Some n_exp /\
    0 <= n_exp <= 2 * position_count count.
Proof.
  intros Hready Hi.
  destruct (stats_p_defined i Hready Hi) as (p & Hp & Hp02).
  destruct Hready as (_ & _ & _ & _ & _ & HN & _).
  destruct (stats_n_exp_between (position_count count) p HN Hp02)
    as (d & x & z & _ & _ & _ & _ & Hn & _ & _ & Hz).
  eexists _, p, z. split.
  - apply (stats_line_enrich_record index2oligo index2oligo_char
             index2oligo_rc_char pbinom log10 rc oligo_length bg count
             i n p z Hp Hn).
  - repeat split; try assumption; apply Hp02 || apply Hz.
Qed.

(** The lines of the loop are defined in count-only mode when the table
    holds [size] counts, and in enrichment mode when moreover the model,
    the buffers and the position count are as [enrichment_ready] says. *)
Lemma lines_defined count_only :
  size count <= Z.of_nat (length (count_table count)) ->
  (count_only = false ->
   enrichment_ready index2oligo rc oligo_length bg count) ->
  forall i, 0 <= i < size count ->
    exists n, rd (count_table count) i = Some n /\
              (n <> 0 -> exists r, line count_only i n = Some r).
Proof.
  intros Hsize Hready i Hi. destruct count_only.
  - apply (count_only_lines_defined index2oligo index2oligo_char
             index2oligo_rc_char pbinom log10 rc oligo_length bg count
             Hsize i Hi).
  - exists (nth (Z.to_nat i) (count_table count) 0).
    split; [apply rd_in_range; lia|]. intros _.
    destruct (stats_line_defined i (nth (Z.to_nat i) (count_table count) 0)
                (Hready eq_refl) Hi) as (r & _ & _ & Hr & _).
    eauto.
Qed.

(** C8: the report has one record for each index whose count is not zero
    and none for the others, in ascending order of the index, in
    count-only mode and in enrichment mode alike.  Every run of the loop
    that ends gives records that match, one for one and in order, the
    ascending list of the indices with a count that is not zero, each
    with the name and the count of its index; and the run does end, in
    count-only mode when the table holds [size] counts, in enrichment
    mode when moreover the model is well formed with entries between 0
    and 1, the oligomer is no longer than [order + 1] and inside its
    buffer, the flags are there under folding and the position count is
    below [2^52]. *)
Theorem main_stats_records count_only :
  (forall out,
     main_stats index2oligo index2oligo_char index2oligo_rc_char pbinom
       log10 rc count_only oligo_length bg count = Some out ->
     Forall2 (fun i r =>
                exists n, rd (count_table count) i = Some n /\ n <> 0 /\
                          line count_only i n = Some r /\
                          record_n r = n /\
                          record_name r = index2oligo_char i oligo_length)
       (nonzero_indices count) out) /\
  StronglySorted Z.lt (nonzero_indices count) /\
  (forall i, In i (nonzero_indices count) <->
     0 <= i < size count /\
     exists n, rd (count_table count) i = Some n /\ n <> 0) /\
  (size count <= Z.of_nat (length (count_table count)) ->
   (count_only = false ->
    enrichment_ready index2oligo rc oligo_length bg count) ->
   exists out,
     main_stats index2oligo index2oligo_char index2oligo_rc_char pbinom
       log10 rc count_only oligo_length bg count = Some out /\
     length out = length (nonzero_indices count)).
Proof.
  split; [|split; [|split]].
  - intros out H.
    apply (stats_loop_shape index2oligo index2oligo_char index2oligo_rc_char
             pbinom log10 rc oligo_length bg count count_only
             (Z.to_nat (size count)) 0%nat out H).
  - apply filter_sorted, indices_from_sorted.
  - apply nonzero_indices_spec.
  - intros Hsize Hready.
    destruct (stats_loop_records index2oligo index2oligo_char
                index2oligo_rc_char pbinom log10 rc oligo_length bg count
                count_only (Z.to_nat (size count)) 0%nat)
      as (out & Hout & Hall).
    { intros j Hj. apply (lines_defined count_only Hsize Hready). lia. }
    exists out. split; [exact Hout|].
    symmetry. eapply Forall2_length, Hall.
Qed.

(** X20: in enrichment mode the report is defined, every array read in
    bounds and every expected count inside a [long], when the background
    model is well formed with entries between 0 and 1, the oligomer is
    no longer than [order + 1] and inside its buffer, the count table
    (and with folding the palindromic flags) holds [size] entries and the
    position count is below [2^52]; the probability of every record then
    lies between 0 and 2 and its expected count between 0 and twice the
    position count. *)
Theorem main_stats_enrichment_defined :
  enrichment_ready index2oligo rc oligo_length bg count ->
  size count <= Z.of_nat (length (count_table count)) ->
  exists out,
    main_stats index2oligo index2oligo_char index2oligo_rc_char pbinom log10
      rc false oligo_length bg count = Some out /\
    length out = length (nonzero_indices count) /\
    Forall (fun r => exists p n_exp,
              record_p r = Some p /\ (0 <= p /\ p <= 2)%Q /\
              record_n_exp r = Some n_exp /\
              0 <= n_exp <= 2 * position_count count) out.
Proof.
  intros Hready Hsize.
  destruct (stats_loop_records index2oligo index2oligo_char
              index2oligo_rc_char pbinom log10 rc oligo_length bg count
              false (Z.to_nat (size count)) 0%nat) as (out & Hout & Hall).
  { intros j Hj. apply (lines_defined false Hsize (fun _ => Hready)). lia. }
  exists out. split; [exact Hout|].
  fold (indices count) in Hall. fold (nonzero_indices count) in Hall.
  split; [symmetry; eapply Forall2_length, Hall|].
  assert (Hin : List.Forall (fun j => 0 <= j < size count) (nonzero_indices count)).
  { apply List.Forall_forall. intros j Hj.
    apply nonzero_indices_spec in Hj. tauto. }
  clear Hout. revert Hin. induction Hall as [|j r js rs (n & _ & _ & Hr & _) _ IH];
    intros Hin; [constructor|].
  inversion Hin as [|? ? Hj Hjs]; subst.
  constructor; [|apply IH, Hjs].
  destruct (stats_line_defined j n Hready Hj)
    as (r' & p & n_exp & Hr' & Hrest).
  unfold line in Hr'. rewrite Hr in Hr'. injection Hr' as <-.
  exists p, n_exp. exact Hrest.
Qed.

(** The loop in count-only mode reads neither the model nor [pbinom],
    [log10] and [index2oligo]. *)
Lemma stats_loop_count_only_independent
    index2oligo' pbinom' log10' bg' k : forall i,
  stats_loop index2oligo index2oligo_char index2oligo_rc_char pbinom log10
    rc true oligo_length bg count k i =
  stats_loop index2oligo' index2oligo_char index2oligo_rc_char pbinom' log10'
    rc true oligo_length bg' count k i.
Proof.
  induction k as [|k IH]; intros i; [reflexivity|].
  cbn [stats_loop]. destruct (rd (count_table count) i) as [n|]; [|reflexivity].
  cbn [mbind option_bind]. rewrite IH. reflexivity.
Qed.

(** X21: in count-only mode the report is defined as soon as the count
    table holds [size] counts, has one record for each count that is not
    zero, and depends neither on the background model nor on [pbinom],
    [log10] and [index2oligo]: the model is loaded but not consulted. *)
Theorem main_stats_count_only index2oligo' pbinom' log10' bg' :
  size count <= Z.of_nat (length (count_table count)) ->
  exists out,
    main_stats index2oligo index2oligo_char index2oligo_rc_char pbinom log10
      rc true oligo_length bg count = Some out /\
    main_stats index2oligo' index2oligo_char index2oligo_rc_char pbinom' log10'
      rc true oligo_length bg' count = Some out /\
    length out = length (nonzero_indices count) /\
    Forall (fun r => record_p r = None /\ record_n r <> 0) out.
Proof.
  intros Hsize.
  destruct (stats_loop_records index2oligo index2oligo_char
              index2oligo_rc_char pbinom log10 rc oligo_length bg count
              true (Z.to_nat (size count)) 0%nat) as (out & Hout & Hall).
  { intros j Hj.
    apply (count_only_lines_defined index2oligo index2oligo_char
             index2oligo_rc_char pbinom log10 rc oligo_length bg count Hsize).
    lia. }
  exists out. split; [exact Hout|]. split.
  { unfold main_stats.
    rewrite <- (stats_loop_count_only_independent index2oligo' pbinom' log10' bg').
    exact Hout. }
  fold (indices count) in Hall. fold (nonzero_indices count) in Hall.
  split; [symmetry; eapply Forall2_length, Hall|].
  clear Hout.
  induction Hall as [|j r js rs (n & _ & Hnz & Hr & Hn) _ IH]; constructor;
    [|exact IH].
  split; [|rewrite Hn; exact Hnz].
  unfold stats_line in Hr. cbn zeta in Hr. injection Hr as <-. reflexivity.
Qed.
End ReportTheorems.

Lemma example_ready rc :
  enrichment_ready decode rc 1 uniform_model example_count /\
  enrichment_ready decode rc 1 uniform_model example_count2.
Proof.
  assert (HS : Forall (fun x => 0 <= x /\ x <= 1)%Q (mS uniform_model))
    by (repeat (constructor; [split; unfold Qle; simpl; lia|]); constructor).
  assert (HT : Forall (fun x => 0 <= x /\ x <= 1)%Q (mT uniform_model))
    by (repeat (constructor; [split; unfold Qle; simpl; lia|]); constructor).
  assert (Hwf : wf_markov uniform_model)
    by (vm_compute; repeat split; discriminate).
  assert (Hin : forall i, inside (decode i 1) 0 1).
  { intros i. unfold inside, decode. change (Z.to_nat 1) with 1%nat.
    cbn [decode_digits app length]. lia. }
  split; (split; [exact Hwf|]); (split; [vm_compute; discriminate|]);
    (split; [exact HS|]); (split; [exact HT|]);
    (split; [intros _; vm_compute; discriminate|]);
    (split; [vm_compute; split; [discriminate|reflexivity]|]);
    intros i _; apply Hin.
Qed.

Lemma enrichment_p_doubling_witness :
  stats_p decode true 1 uniform_model example_count 0 =
    Some (if true && negb false then (1 # 4) * 2 else 1 # 4)%Q /\
  forall n_exp,
    stats_n_exp (position_count example_count)
      (if true && negb false then (1 # 4) * 2 else 1 # 4)%Q = Some n_exp ->
    exists r,
      stats_line decode decode decode_rc pbinom_example log10_example
        true false 1 uniform_model example_count 0 7 = Some r /\
      record_name r = decode 0 1 /\
      record_n r = 7 /\
      record_p r = Some (if true && negb false then (1 # 4) * 2 else 1 # 4)%Q /\
      record_pv r =
        Some (pbinom_example 7 (position_count example_count)
                (if true && negb false then (1 # 4) * 2 else 1 # 4)%Q).
Proof.
  apply (enrichment_p_doubling decode decode decode_rc pbinom_example
           log10_example true 1 uniform_model example_count 0 7
           (1 # 4)%Q false).
  - reflexivity.
  - intros _. reflexivity.
Defined.

Lemma expected_count_truncated_witness :
  (forall d x z,
     long2double (position_count example_count) = Some d ->
     double_mul d (1 # 4) = Some x ->
     double2long x = Some z ->
     z = Z.quot (Qnum x) (Z.pos (Qden x)) /\
     exists r,
       stats_line decode decode decode_rc pbinom_example log10_example
         false false 1 uniform_model example_count 0 7 = Some r /\
       record_p r = Some (1 # 4)%Q /\ record_n_exp r = Some z) /\
  (0 <= position_count example_count < 2 ^ 52 ->
   (0 <= 1 # 4 /\ 1 # 4 <= 2)%Q ->
   exists r n_exp,
     stats_line decode decode decode_rc pbinom_example log10_example
       false false 1 uniform_model example_count 0 7 = Some r /\
     record_p r = Some (1 # 4)%Q /\ record_n_exp r = Some n_exp /\
     Qfloor (inject_Z (position_count example_count) * (1 # 4)) <= n_exp /\
     n_exp <= Qceiling (inject_Z (position_count example_count) * (1 # 4))).
Proof.
  apply (expected_count_truncated decode decode decode_rc pbinom_example
           log10_example false 1 uniform_model example_count 0 7 (1 # 4)%Q).
  reflexivity.
Defined.

(** C7 as stated fails: with seven positions and [p = 1/4] the product
    [N * p] is [7/4] and the record holds the expected count 1.  The same
    happens whatever [index2oligo] writes into the buffer: under the
    order-1 model the likelihood at length 1 is [S[0] = 1/2], the product
    is [7/2] and the record holds 3.  And the count is not always the
    integer below [N * p]: with three positions and the double nearest
    to 1/3 the product is below 1 and rounds to the double 1, so that the
    record holds 1. *)
Lemma expected_count_not_exact :
  (stats_line decode decode decode_rc pbinom_example log10_example
     false false 1 uniform_model example_count 0 7 = Some example_record /\
   record_p example_record = Some (1 # 4)%Q /\
   record_n_exp example_record = Some 1 /\
   ~ (inject_Z 1 == inject_Z (position_count example_count) * (1 # 4))%Q) /\
  (stats_line (fun _ _ => []) decode decode_rc pbinom_example log10_example
     false false 1 example_model example_count 0 7 =
     Some example_record_order1 /\
   record_p example_record_order1 = Some (1 # 2)%Q /\
   record_n_exp example_record_order1 = Some 3 /\
   ~ (inject_Z 3 == inject_Z (position_count example_count) * (1 # 2))%Q) /\
  (exists r p,
     stats_line decode decode decode_rc pbinom_example log10_example
       false false 1 third_model example_count3 0 1 = Some r /\
     record_p r = Some p /\ (p == third)%Q /\
     record_n_exp r = Some 1 /\
     (inject_Z (position_count example_count3) * p < 1)%Q).
Proof.
  split; [|split].
  - split; [reflexivity|]. split; [reflexivity|]. split; [reflexivity|].
    intros H; discriminate H.
  - split; [reflexivity|]. split; [reflexivity|]. split; [reflexivity|].
    intros H; discriminate H.
  - eexists _, _. split; [vm_compute; reflexivity|].
    split; [reflexivity|]. split; [reflexivity|]. split; reflexivity.
Qed.

Lemma main_stats_records_witness :
  exists out,
    main_stats decode decode decode_rc pbinom_example log10_example
      false false 1 uniform_model example_count2 = Some out /\
    map record_n out = [2; 1] /\
    map record_name out = [cstr "A"; cstr "G"] /\
    nonzero_indices example_count2 = [0; 2].
Proof.
  destruct (main_stats_records decode decode decode_rc pbinom_example
              log10_example false 1 uniform_model example_count2 false)
    as (_ & _ & _ & Hdef).
  destruct Hdef as (out & Hout & _).
  - vm_compute. discriminate.
  - intros _. apply example_ready.
  - exists out. split; [exact Hout|].
    vm_compute in Hout. injection Hout as <-.
    split; [reflexivity|]. split; reflexivity.
Defined.

Lemma main_stats_enrichment_defined_witness :
  exists out,
    main_stats decode decode decode_rc pbinom_example log10_example
      true false 1 uniform_model example_count = Some out /\
    length out = length (nonzero_indices example_count) /\
    Forall (fun r => exists p n_exp,
              record_p r = Some p /\ (0 <= p /\ p <= 2)%Q /\
              record_n_exp r = Some n_exp /\
              0 <= n_exp <= 2 * position_count example_count) out.
Proof.
  apply (main_stats_enrichment_defined decode decode decode_rc pbinom_example
           log10_example true 1 uniform_model example_count).
  - apply example_ready.
  - vm_compute. discriminate.
Defined.

Lemma main_stats_count_only_witness :
  exists out,
    main_stats decode decode decode_rc pbinom_example log10_example
      true true 1 uniform_model example_count = Some out /\
    main_stats decode_rc decode decode_rc (fun _ _ p => p) (fun x => x)
      true true 1 example_model example_count = Some out /\
    length out = length (nonzero_indices example_count) /\
    Forall (fun r => record_p r = None /\ record_n r <> 0) out.
Proof.
  apply (main_stats_count_only decode decode decode_rc pbinom_example
           log10_example true 1 uniform_model example_count).
  vm_compute. discriminate.
Defined.

(** ** The likelihood under a loaded model *)

Lemma Forall_entries (P : Q -> Prop) (a : list Q) :
  (forall i, 0 <= i < Z.of_nat (length a) -> P (nth (Z.to_nat i) a 0%Q)) ->
  Forall P a.
Proof.
  intros H. apply Forall_lookup. intros i x Hi.
  pose proof (lookup_lt_Some _ _ _ Hi) as Hlt.
  specialize (H (Z.of_nat i) ltac:(lia)). rewrite Nat2Z.id in H.
  apply (nth_lookup_Some _ _ 0%Q) in Hi. rewrite Hi in H. exact H.
Qed.

Lemma load_markov_Forall lines m :
  well_formed_file lines ->
  nonnegative_file lines ->
  (forall p, 0 <= p < 4 ^ file_order lines ->
     (0 < row_total (file_order lines) lines p)%Q) ->
  load_markov lines = Some m ->
  Forall (fun x => 0 <= x /\ x <= 1)%Q (mS m) /\
  Forall (fun x => 0 <= x /\ x <= 1)%Q (mT m).
Proof.
  intros Hwf Hnn Hrow Hload.
  destruct (load_markov_spec lines m Hwf Hload) as (Hk & Ho & Hm & _ & _).
  destruct Hm as (_ & HS & HT). rewrite Ho in HS, HT.
  split; apply Forall_entries; intros i Hi.
  - destruct (load_markov_entries_range lines m i 0 Hwf Hnn Hload
                ltac:(lia) ltac:(lia)) as [[H0 H1] _].
    unfold S_entry in H0, H1. lra.
  - pose proof (Z.mod_pos_bound i 4 ltac:(lia)) as Hmod.
    pose proof (Z.div_mod i 4 ltac:(lia)) as Hdiv.
    destruct (load_markov_entries_range lines m (i / 4) (i mod 4) Hwf Hnn Hload)
      as [_ H]; [lia|lia|].
    unfold T_entry in H. rewrite <- Hdiv in H.
    apply H, Hrow. lia.
Qed.

(** X22: loading and evaluating compose.  For a well-formed frequency
    file of finite frequencies that are not negative, with no row of
    transitions that sums to 0, [load_markov] gives a model under which
    [markov_P] returns a value between 0 and 1 for every window of at
    most [order + 1] symbols that the buffer holds, the [length - 1]
    characters from [pos] and the [length] characters from 0. *)
Theorem load_markov_then_markov_P lines seq pos L :
  well_formed_file lines ->
  finite_nonnegative_file lines ->
  0 <= file_order lines <= 14 ->
  (forall p, 0 <= p < 4 ^ file_order lines ->
     (0 < row_total (file_order lines) lines p)%Q) ->
  L <= file_order lines + 1 ->
  inside seq pos (L - 1) ->
  inside seq 0 L ->
  exists m q,
    load_markov lines = Some m /\
    markov_P m seq pos L = Some q /\
    (0 <= q /\ q <= 1)%Q.
Proof.
  intros Hwf Hfin Hk Hrow HL _ _.
  pose proof (finite_nonnegative_nonnegative lines Hfin) as Hnn.
  destruct (load_markov_total lines Hwf Hk) as [m Hload].
  destruct (load_markov_spec lines m Hwf Hload) as (_ & Ho & Hm & _ & _).
  destruct (load_markov_Forall lines m Hwf Hnn Hrow Hload) as [HS HT].
  destruct (markov_P_defined m seq pos L Hm ltac:(lia)) as [q Hq].
  exists m, q. split; [exact Hload|]. split; [exact Hq|].
  exact (markov_P_range m seq pos L q HS HT Hq).
Qed.

Lemma load_markov_then_markov_P_witness :
  exists m q,
    load_markov small_file = Some m /\
    markov_P m (cstr "xxAC") 2 2 = Some q /\
    (0 <= q /\ q <= 1)%Q.
Proof.
  apply (load_markov_then_markov_P small_file (cstr "xxAC") 2 2).
  - apply well_formed_fileb_spec. reflexivity.
  - apply finite_nonnegative_fileb_spec. reflexivity.
  - simpl. lia.
  - intros p Hp. change (4 ^ file_order small_file) with 4 in Hp.
    assert (Hcases : p = 0 \/ p = 1 \/ p = 2 \/ p = 3) by lia.
    destruct Hcases as [-> | [-> | [-> | ->]]]; reflexivity.
  - simpl. lia.
  - unfold inside. simpl. lia.
  - unfold inside. simpl. lia.
Defined.

(** ** Comments and line ends of the frequency file *)

Lemma mark_is_newline_other c : c <> newline -> mark_is newline (Some c) = false.
Proof. intros H. cbn [mark_is]. apply Ascii.eqb_neq, H. Qed.

Lemma comment_mark_not_newline m : comment_mark m -> m <> newline.
Proof. intros [-> | ->]; discriminate. Qed.

Lemma comment_mark_is m :
  comment_mark m -> mark_is ";" (Some m) || mark_is "#" (Some m) = true.
Proof. intros [-> | ->]; reflexivity. Qed.

Lemma comment_mark_is_not m :
  ~ comment_mark m -> mark_is ";" (Some m) || mark_is "#" (Some m) = false.
Proof.
  intros H. cbn [mark_is]. unfold comment_mark in H.
  destruct (Ascii.eqb_spec m ";"); [tauto|].
  destruct (Ascii.eqb_spec m "#"); [tauto|]. reflexivity.
Qed.

(** The inner loop reads through the first newline. *)
Lemma skip_line_loop_line body : forall fuel c rest,
  ~ In newline body -> c <> newline -> (length body < fuel)%nat ->
  skip_line_loop fuel (Some c) (Stream (body ++ newline :: rest) false) =
  Some (Stream rest false).
Proof.
  induction body as [|b body IH]; intros fuel c rest Hnl Hc Hfuel;
    (destruct fuel as [|fuel]; [cbn [length] in Hfuel; lia|]);
    cbn [skip_line_loop feof eof negb andb];
    rewrite (mark_is_newline_other c Hc); cbn [negb andb app getc pending eof].
  - destruct fuel; reflexivity.
  - apply IH.
    + intros Hin. apply Hnl. right. exact Hin.
    + intros ->. apply Hnl. left. reflexivity.
    + cbn [length] in Hfuel. lia.
Qed.

(** Without a newline the inner loop reads to the end of the file. *)
Lemma skip_line_loop_end body : forall fuel c,
  ~ In newline body -> c <> newline -> (length body < fuel)%nat ->
  skip_line_loop fuel (Some c) (Stream body false) = Some (Stream [] true).
Proof.
  induction body as [|b body IH]; intros fuel c Hnl Hc Hfuel;
    (destruct fuel as [|fuel]; [cbn [length] in Hfuel; lia|]);
    cbn [skip_line_loop feof eof negb andb];
    rewrite (mark_is_newline_other c Hc); cbn [negb andb app getc pending eof].
  - destruct fuel; reflexivity.
  - apply IH.
    + intros Hin. apply Hnl. right. exact Hin.
    + intros ->. apply Hnl. left. reflexivity.
    + cbn [length] in Hfuel. lia.
Qed.

Lemma skip_comments_loop_rest fuel rest :
  no_comment_ahead rest -> (0 < fuel)%nat ->
  skip_comments_loop fuel (Stream rest false) = Some (Stream rest (at_end rest)).
Proof.
  intros Hrest Hfuel. destruct fuel as [|fuel]; [lia|].
  cbn [skip_comments_loop feof eof negb].
  destruct rest as [|c r]; [reflexivity|].
  cbn [getc pending eof ungetc]. cbn [no_comment_ahead] in Hrest.
  rewrite (comment_mark_is_not c Hrest). reflexivity.
Qed.

Lemma skip_comments_loop_lines cs : forall fuel rest,
  Forall comment_line cs -> no_comment_ahead rest ->
  (length cs < fuel)%nat ->
  skip_comments_loop fuel (Stream (concat cs ++ rest) false) =
  Some (Stream rest (at_end rest)).
Proof.
  induction cs as [|l cs IH]; intros fuel rest Hcs Hrest Hfuel.
  - apply skip_comments_loop_rest; [exact Hrest|exact Hfuel].
  - inversion Hcs as [|? ? (m & body & -> & Hm & Hnl) Hcs']; subst.
    destruct fuel as [|fuel]; [lia|].
    cbn [skip_comments_loop feof eof negb concat app getc pending ungetc].
    rewrite (comment_mark_is m Hm).
    replace (m :: ((body ++ [newline]) ++ concat cs) ++ rest)
      with ((m :: body) ++ newline :: concat cs ++ rest)
      by (cbn [app]; rewrite <- !app_assoc; reflexivity).
    rewrite skip_line_loop_line.
    + cbn [mbind option_bind]. apply IH; [exact Hcs'|exact Hrest|].
      cbn [length] in Hfuel. lia.
    + intros [E|Hin]; [|exact (Hnl Hin)].
      exact (comment_mark_not_newline m Hm E).
    + exact (comment_mark_not_newline m Hm).
    + rewrite length_app. cbn [length]. lia.
Qed.

Lemma skip_comments_loop_unterminated cs : forall fuel m body,
  Forall comment_line cs -> comment_mark m -> ~ In newline body ->
  (length cs < fuel)%nat ->
  skip_comments_loop fuel (Stream (concat cs ++ m :: body) false) =
  Some (Stream [] true).
Proof.
  induction cs as [|l cs IH]; intros fuel m body Hcs Hm Hnl Hfuel.
  - destruct fuel as [|fuel]; [lia|].
    cbn [skip_comments_loop feof eof negb concat app getc pending ungetc].
    rewrite (comment_mark_is m Hm).
    rewrite skip_line_loop_end.
    + cbn [mbind option_bind]. destruct fuel; reflexivity.
    + intros [E|Hin]; [|exact (Hnl Hin)].
      exact (comment_mark_not_newline m Hm E).
    + exact (comment_mark_not_newline m Hm).
    + lia.
  - inversion Hcs as [|? ? (m' & body' & -> & Hm' & Hnl') Hcs']; subst.
    destruct fuel as [|fuel]; [lia|].
    cbn [skip_comments_loop feof eof negb concat app getc pending ungetc].
    rewrite (comment_mark_is m' Hm').
    replace (m' :: ((body' ++ [newline]) ++ concat cs) ++ m :: body)
      with ((m' :: body') ++ newline :: concat cs ++ m :: body)
      by (cbn [app]; rewrite <- !app_assoc; reflexivity).
    rewrite skip_line_loop_line.
    + cbn [mbind option_bind]. apply IH; [exact Hcs'|exact Hm|exact Hnl|].
      cbn [length] in Hfuel. lia.
    + intros [E|Hin]; [|exact (Hnl' Hin)].
      exact (comment_mark_not_newline m' Hm' E).
    + exact (comment_mark_not_newline m' Hm').
    + rewrite length_app. cbn [length]. lia.
Qed.

Lemma comment_lines_length cs :
  Forall comment_line cs -> (length cs <= length (concat cs))%nat.
Proof.
  induction 1 as [|l cs (m & body & -> & _) _ IH]; [reflexivity|].
  cbn [concat length app]. rewrite length_app. lia.
Qed.

Lemma skip_comments_lines cs rest :
  Forall comment_line cs -> no_comment_ahead rest ->
  skip_comments (Stream (concat cs ++ rest) false) =
  Some (Stream rest (at_end rest)).
Proof.
  intros Hcs Hrest. unfold skip_comments.
  apply skip_comments_loop_lines; [exact Hcs|exact Hrest|].
  cbn [pending]. rewrite length_app.
  pose proof (comment_lines_length cs Hcs). lia.
Qed.

Lemma skip_comments_unterminated cs m body :
  Forall comment_line cs -> comment_mark m -> ~ In newline body ->
  skip_comments (Stream (concat cs ++ m :: body) false) = Some (Stream [] true).
Proof.
  intros Hcs Hm Hnl. unfold skip_comments.
  apply skip_comments_loop_unterminated; [exact Hcs|exact Hm|exact Hnl|].
  cbn [pending]. rewrite length_app.
  pose proof (comment_lines_length cs Hcs). lia.
Qed.

(** X23: [skip_comments] skips the comment lines at the head of the
    stream, each a [;] or [#] up to its newline, and stops in front of the
    first character that does not start one, which stays to be read; at
    the end of the file it sets the indicator.  A last comment line
    without a newline is read to the end of the file. *)
Theorem skip_comments_spec cs :
  Forall comment_line cs ->
  (forall rest, no_comment_ahead rest ->
     skip_comments (Stream (concat cs ++ rest) false) =
     Some (Stream rest (at_end rest))) /\
  (forall m body, comment_mark m -> ~ In newline body ->
     skip_comments (Stream (concat cs ++ m :: body) false) =
     Some (Stream [] true)).
Proof.
  intros Hcs. split.
  - intros rest. apply skip_comments_lines, Hcs.
  - intros m body. apply skip_comments_unterminated, Hcs.
Qed.

Lemma skip_comments_spec_witness :
  (forall rest, no_comment_ahead rest ->
     skip_comments
       (Stream (concat [cstr "; a" ++ [newline]; cstr "#b" ++ [newline]] ++ rest) false) =
     Some (Stream rest (at_end rest))) /\
  (forall m body, comment_mark m -> ~ In newline body ->
     skip_comments
       (Stream (concat [cstr "; a" ++ [newline]; cstr "#b" ++ [newline]] ++ m :: body) false) =
     Some (Stream [] true)).
Proof.
  apply (skip_comments_spec [cstr "; a" ++ [newline]; cstr "#b" ++ [newline]]).
  repeat constructor.
  - exists ";"%char, (cstr " a"). repeat split.
    + left. reflexivity.
    + intros [E|[E|[]]]; discriminate.
  - exists "#"%char, (cstr "b"). repeat split.
    + right. reflexivity.
    + intros [E|[]]; discriminate.
Defined.

Lemma line_split s :
  (exists body rest, s = body ++ newline :: rest /\ ~ In newline body) \/
  ~ In newline s.
Proof.
  induction s as [|c s IH]; [right; intros []|].
  destruct (Ascii.eqb_spec c newline) as [->|Hc].
  - left. exists [], s. split; [reflexivity|intros []].
  - destruct IH as [(body & rest & -> & Hnl)|Hnl].
    + left. exists (c :: body), rest. split; [reflexivity|].
      intros [E|Hin]; [exact (Hc E)|exact (Hnl Hin)].
    + right. intros [E|Hin]; [exact (Hc E)|exact (Hnl Hin)].
Qed.

Lemma comment_mark_dec c : {comment_mark c} + {~ comment_mark c}.
Proof.
  unfold comment_mark.
  destruct (Ascii.eqb_spec c ";"); [left; tauto|].
  destruct (Ascii.eqb_spec c "#"); [left; tauto|right; tauto].
Qed.

(** Every stream is comment lines followed by a rest that starts no
    comment, or by a comment that no newline ends. *)
Lemma comment_decompose n : forall s, (length s <= n)%nat ->
  exists cs, Forall comment_line cs /\
    ((exists rest, s = concat cs ++ rest /\ no_comment_ahead rest) \/
     (exists m body, s = concat cs ++ m :: body /\ comment_mark m /\
                     ~ In newline body)).
Proof.
  induction n as [|n IH]; intros s Hlen.
  - destruct s; [|cbn [length] in Hlen; lia].
    exists []. split; [constructor|]. left. exists []. split; [reflexivity|exact I].
  - destruct s as [|c s].
    { exists []. split; [constructor|]. left. exists [].
      split; [reflexivity|exact I]. }
    destruct (comment_mark_dec c) as [Hm|Hm].
    + destruct (line_split s) as [(body & rest & -> & Hnl)|Hnl].
      * destruct (IH rest) as (cs & Hcs & Hrest).
        { cbn [length] in Hlen. rewrite length_app in Hlen.
          cbn [length] in Hlen. lia. }
        exists ((c :: body ++ [newline]) :: cs).
        split; [constructor; [exists c, body; auto|exact Hcs]|].
        destruct Hrest as [(r & -> & Hr)|(m & b & -> & Hmb)].
        -- left. exists r. split; [|exact Hr].
           cbn [concat app]. rewrite <- !app_assoc. reflexivity.
        -- right. exists m, b. split; [|exact Hmb].
           cbn [concat app]. rewrite <- !app_assoc. reflexivity.
      * exists []. split; [constructor|]. right. exists c, s. auto.
    + exists []. split; [constructor|]. left. exists (c :: s).
      split; [reflexivity|exact Hm].
Qed.

(** X24: [skip_comments] returns on every stream: what it leaves to be
    read is the end of the stream it got, does not start with a comment
    mark, is empty exactly when the indicator is set, and a second call
    leaves it as it is. *)
Theorem skip_comments_returns s :
  exists skipped rest,
    s = skipped ++ rest /\
    skip_comments (Stream s false) = Some (Stream rest (at_end rest)) /\
    no_comment_ahead rest /\
    skip_comments (Stream rest (at_end rest)) = Some (Stream rest (at_end rest)).
Proof.
  destruct (comment_decompose (length s) s (le_n _))
    as (cs & Hcs & [(rest & -> & Hrest)|(m & body & -> & Hm & Hnl)]).
  - exists (concat cs), rest. split; [reflexivity|].
    split; [apply skip_comments_lines; assumption|].
    split; [exact Hrest|].
    destruct rest as [|c r]; [reflexivity|].
    apply (skip_comments_lines [] (c :: r)); [constructor|exact Hrest].
  - exists (concat cs ++ m :: body), []. split; [rewrite app_nil_r; reflexivity|].
    split; [apply skip_comments_unterminated; assumption|].
    split; [exact I|reflexivity].
Qed.

Lemma next_line_loop_line body : forall fuel rest,
  ~ In newline body -> (length body < fuel)%nat ->
  next_line_loop fuel (Stream (body ++ newline :: rest) false) =
  Some (Stream rest false).
Proof.
  induction body as [|b body IH]; intros fuel rest Hnl Hfuel;
    (destruct fuel as [|fuel]; [cbn [length] in Hfuel; lia|]);
    cbn [next_line_loop app getc pending eof feof orb].
  - reflexivity.
  - rewrite mark_is_newline_other
      by (intros ->; apply Hnl; left; reflexivity).
    apply IH; [intros Hin; apply Hnl; right; exact Hin|].
    cbn [length] in Hfuel. lia.
Qed.

Lemma next_line_loop_end body : forall fuel,
  ~ In newline body -> (length body < fuel)%nat ->
  next_line_loop fuel (Stream body false) = Some (Stream [] true).
Proof.
  induction body as [|b body IH]; intros fuel Hnl Hfuel;
    (destruct fuel as [|fuel]; [cbn [length] in Hfuel; lia|]);
    cbn [next_line_loop app getc pending eof feof orb].
  - reflexivity.
  - rewrite mark_is_newline_other
      by (intros ->; apply Hnl; left; reflexivity).
    apply IH; [intros Hin; apply Hnl; right; exact Hin|].
    cbn [length] in Hfuel. lia.
Qed.

Lemma next_line_line body rest :
  ~ In newline body ->
  next_line (Stream (body ++ newline :: rest) false) = Some (Stream rest false).
Proof.
  intros Hnl. unfold next_line. apply next_line_loop_line; [exact Hnl|].
  cbn [pending]. rewrite length_app. cbn [length]. lia.
Qed.

(** X25: [next_line] reads through the first newline and leaves what
    follows it, the indicator untouched; on a stream with no newline it
    reads everything and sets the indicator. *)
Theorem next_line_spec body :
  ~ In newline body ->
  (forall rest,
     next_line (Stream (body ++ newline :: rest) false) =
     Some (Stream rest false)) /\
  next_line (Stream body false) = Some (Stream [] true).
Proof.
  intros Hnl. split.
  - intros rest. apply next_line_line, Hnl.
  - unfold next_line. apply next_line_loop_end; [exact Hnl|].
    cbn [pending]. lia.
Qed.

Lemma next_line_spec_witness :
  (forall rest,
     next_line (Stream (cstr "0.25" ++ newline :: rest) false) =
     Some (Stream rest false)) /\
  next_line (Stream (cstr "0.25") false) = Some (Stream [] true).
Proof.
  apply (next_line_spec (cstr "0.25")).
  intros [E|[E|[E|[E|[]]]]]; discriminate.
Defined.

(** ** The reading loop of [load_markov] *)

Lemma skip_spaces_field w r :
  field_text w -> skip_spaces (w ++ r) = w ++ r.
Proof.
  intros [Hne Hall]. destruct w as [|c w]; [contradiction|].
  inversion Hall as [|? ? Hc _]; subst. cbn [app skip_spaces].
  rewrite Hc. reflexivity.
Qed.

Lemma skip_spaces_blank b r :
  Forall (fun c => is_space c = true) b ->
  skip_spaces (b ++ r) = skip_spaces r.
Proof.
  induction 1 as [|c b Hc _ IH]; [reflexivity|].
  cbn [app skip_spaces]. rewrite Hc. exact IH.
Qed.

Lemma scan_word_field w b r :
  Forall (fun c => is_space c = false) w -> blank_text b ->
  scan_word (w ++ b ++ r) = (w, b ++ r).
Proof.
  intros Hw [Hne Hb]. induction Hw as [|c w Hc _ IH].
  - destruct b as [|c b]; [contradiction|].
    inversion Hb as [|? ? Hc _]; subst. cbn [app scan_word].
    rewrite Hc. reflexivity.
  - cbn [app scan_word]. rewrite Hc, IH. reflexivity.
Qed.

Lemma field_text_cons w r :
  field_text w -> exists c x, w ++ r = c :: x.
Proof.
  intros [Hne _]. destruct w as [|c w]; [contradiction|].
  exists c, (w ++ r). reflexivity.
Qed.

Section ReadingProperties.
Variable scan_float : list ascii -> option (option Q * list ascii).

(** [fscanf] on a data line stores the identifier and the frequency and
    stops after the frequency. *)
Lemma fscanf_line_data l t rest :
  data_line scan_float l t ->
  exists tail,
    ~ In newline tail /\
    fscanf_line scan_float (Stream (t ++ newline :: rest) false) =
    Some (Some (fst l), Some (snd l), Stream (tail ++ newline :: rest) false).
Proof.
  intros (sep1 & mid & sep2 & ftext & tail & -> & Hid & _ & Hlen & Hs1 &
          Hmid & Hs2 & Hf & Htail & Hscan).
  exists tail. split; [exact Htail|].
  unfold fscanf_line. cbn [pending].
  rewrite <- !app_assoc.
  rewrite (skip_spaces_field (fst l)) by exact Hid.
  destruct (field_text_cons (fst l)
              (sep1 ++ mid ++ sep2 ++ ftext ++ tail ++ newline :: rest) Hid)
    as (c1 & x1 & E1).
  rewrite E1, <- E1.
  rewrite scan_word_field by (apply Hid || exact Hs1).
  destruct (Z.ltb_spec 255 (Z.of_nat (length (fst l)))); [lia|].
  rewrite skip_spaces_blank by apply Hs1.
  rewrite (skip_spaces_field mid) by exact Hmid.
  destruct (field_text_cons mid
              (sep2 ++ ftext ++ tail ++ newline :: rest) Hmid)
    as (c2 & x2 & E2).
  rewrite E2, <- E2.
  rewrite scan_word_field by (apply Hmid || exact Hs2).
  rewrite skip_spaces_blank by apply Hs2.
  rewrite (skip_spaces_field ftext) by exact Hf.
  destruct (field_text_cons ftext (tail ++ newline :: rest) Hf)
    as (c3 & x3 & E3).
  rewrite E3, <- E3.
  rewrite Hscan. cbn [mbind option_bind].
  destruct tail; reflexivity.
Qed.

Lemma read_pass_data l t rest id freq self :
  data_line scan_float l t ->
  read_pass scan_float (Stream (t ++ newline :: rest) false) id freq self =
  m ← load_line self l;
  Some (Stream rest false, Some (fst l), Some (snd l), m).
Proof.
  intros Hl. destruct (fscanf_line_data l t rest Hl) as (tail & Htail & E).
  unfold read_pass. rewrite E. cbn [mbind option_bind].
  rewrite next_line_line by exact Htail. cbn [mbind option_bind].
  destruct l as [i f]. reflexivity.
Qed.

(** The identifier and the frequency that the passes over [lines] leave
    behind. *)
Lemma last_cons_default {A B : Type} (f : A -> B) (l : A) lines (d : option B) :
  match last (l :: lines) with Some x => Some (f x) | None => d end =
  match last lines with Some x => Some (f x) | None => Some (f l) end.
Proof.
  destruct lines as [|a lines]; [reflexivity|].
  change (last (l :: a :: lines)) with (last (a :: lines)).
  destruct (last_is_Some (a :: lines)) as [_ [x ->]]; [discriminate|].
  reflexivity.
Qed.

Lemma data_line_ahead l t r :
  data_line scan_float l t -> no_comment_ahead (t ++ r) /\ t ++ r <> [].
Proof.
  intros (sep1 & mid & sep2 & ftext & tail & -> & [Hne _] & Hno & _).
  destruct (fst l) as [|c w]; [contradiction|].
  split; [exact Hno|discriminate].
Qed.

(** The loop runs its body once on each data line, in the order of the
    file. *)
Lemma read_loop_lines lines text :
  file_lines scan_float lines text ->
  forall z fuel id freq self,
    read_loop scan_float (length lines + fuel) (Stream (text ++ z) false)
      id freq self =
    match load_lines lines self with
    | Some self' =>
        read_loop scan_float fuel (Stream z false)
          (match last lines with Some l => Some (fst l) | None => id end)
          (match last lines with Some l => Some (snd l) | None => freq end)
          self'
    | None => None
    end.
Proof.
  induction 1 as [|cs l t lines rest Hcs Hl Hrest IH];
    intros z fuel id freq self; [reflexivity|].
  cbn [length Nat.add read_loop load_lines].
  destruct (data_line_ahead l t (newline :: rest ++ z) Hl) as [Hahead Hne].
  replace ((concat cs ++ t ++ newline :: rest) ++ z)
    with (concat cs ++ t ++ newline :: rest ++ z)
    by (rewrite <- !app_assoc; reflexivity).
  rewrite (skip_comments_lines cs _ Hcs Hahead). cbn [mbind option_bind].
  assert (Hend : at_end (t ++ newline :: rest ++ z) = false)
    by (destruct (t ++ newline :: rest ++ z); [contradiction|reflexivity]).
  rewrite Hend. cbn [feof eof].
  rewrite (read_pass_data l t (rest ++ z) id freq self Hl).
  destruct (load_line self l) as [m|]; [|reflexivity].
  cbn [mbind option_bind]. rewrite IH, !last_cons_default. reflexivity.
Qed.

Lemma file_lines_length lines text :
  file_lines scan_float lines text -> (length lines <= length text)%nat.
Proof.
  induction 1 as [|cs l t lines rest Hcs Hl Hrest IH]; [reflexivity|].
  rewrite !length_app. cbn [length]. lia.
Qed.

Lemma read_loop_end cs fuel id freq self :
  Forall comment_line cs ->
  read_loop scan_float (Datatypes.S fuel) (Stream (concat cs) false)
    id freq self = Some self.
Proof.
  intros Hcs. cbn [read_loop].
  rewrite <- (app_nil_r (concat cs)).
  rewrite (skip_comments_lines cs [] Hcs I). reflexivity.
Qed.

(** A last line that is empty: [fscanf] stores nothing, and the body
    runs on the identifier and the frequency of the line before. *)
Lemma read_loop_empty_line cs fuel i f self :
  Forall comment_line cs ->
  read_loop scan_float (Datatypes.S (Datatypes.S fuel))
    (Stream (concat cs ++ [newline]) false) (Some i) (Some f) self =
  m ← load_line self (i, f); Some (Some m).
Proof.
  intros Hcs. cbn [read_loop].
  rewrite (skip_comments_lines cs [newline] Hcs)
    by (intros [E|E]; discriminate E).
  cbn [mbind option_bind at_end feof eof].
  assert (Epass : read_pass scan_float (Stream [newline] false)
                    (Some i) (Some f) self =
                  m ← load_line self (i, f);
                  Some (Stream [] true, Some i, Some f, m)) by reflexivity.
  rewrite Epass.
  destruct (load_line self (i, f)) as [m|]; [|reflexivity].
  cbn [mbind option_bind]. destruct fuel; reflexivity.
Qed.

Lemma load_lines_app l1 : forall l2 self,
  load_lines (l1 ++ l2) self =
  self' ← load_lines l1 self; load_lines l2 self'.
Proof.
  induction l1 as [|l l1 IH]; intros l2 self; [reflexivity|].
  cbn [app load_lines]. destruct (load_line self l) as [m|]; [|reflexivity].
  cbn [mbind option_bind]. apply IH.
Qed.

Lemma load_markov_file_lines lines text cs :
  file_lines scan_float lines text -> Forall comment_line cs ->
  load_markov_file scan_float (text ++ concat cs) = load_markov lines.
Proof.
  intros Hlines Hcs. unfold load_markov_file, load_markov.
  pose proof (file_lines_length lines text Hlines) as Hlen.
  replace (Datatypes.S (length (text ++ concat cs)))
    with (length lines +
          Datatypes.S (length (text ++ concat cs) - length lines))%nat
    by (rewrite length_app; lia).
  rewrite (read_loop_lines lines text Hlines).
  destruct (load_lines lines None) as [self'|]; [|reflexivity].
  rewrite read_loop_end by exact Hcs. reflexivity.
Qed.

Lemma load_markov_file_empty_line lines text cs l :
  file_lines scan_float lines text -> Forall comment_line cs ->
  last lines = Some l ->
  load_markov_file scan_float (text ++ concat cs ++ [newline]) =
  load_markov (lines ++ [l]).
Proof.
  intros Hlines Hcs Hlast. unfold load_markov_file, load_markov.
  pose proof (file_lines_length lines text Hlines) as Hlen.
  replace (Datatypes.S (length (text ++ concat cs ++ [newline])))
    with (length lines +
          Datatypes.S (Datatypes.S
            (length text + length (concat cs) - length lines)))%nat
    by (rewrite !length_app; cbn [length]; lia).
  rewrite (read_loop_lines lines text Hlines), load_lines_app, Hlast.
  destruct (load_lines lines None) as [self'|]; [|reflexivity].
  cbn [mbind option_bind load_lines].
  rewrite read_loop_empty_line by exact Hcs.
  destruct l as [i f]. cbn [fst snd].
  destruct (load_line self' (i, f)); reflexivity.
Qed.
End ReadingProperties.

Lemma prefix_total_nil k p : (prefix_total k [] p == 0)%Q.
Proof. reflexivity. Qed.

Lemma prefix_total_app k l1 l2 p :
  (prefix_total k (l1 ++ l2) p ==
   prefix_total k l1 p + prefix_total k l2 p)%Q.
Proof.
  induction l1 as [|l l1 IH]; cbn [app].
  - rewrite prefix_total_nil. ring.
  - rewrite !prefix_total_cons, IH. ring.
Qed.

Lemma Qsum_nil : (Qsum [] == 0)%Q.
Proof. reflexivity. Qed.

Lemma Qsum_app l1 l2 : (Qsum (l1 ++ l2) == Qsum l1 + Qsum l2)%Q.
Proof.
  induction l1 as [|x l1 IH]; cbn [app].
  - rewrite Qsum_nil. ring.
  - rewrite !Qsum_cons, IH. ring.
Qed.

Lemma well_formed_file_snoc lines l :
  well_formed_file lines -> In l lines ->
  well_formed_file (lines ++ [l]) /\
  file_order (lines ++ [l]) = file_order lines.
Proof.
  intros [Hne Hall] Hin.
  assert (Ho : file_order (lines ++ [l]) = file_order lines)
    by (destruct lines; [contradiction|reflexivity]).
  split; [|exact Ho]. split.
  - destruct lines; [contradiction|discriminate].
  - rewrite Ho. apply Forall_app. split; [exact Hall|].
    constructor; [|constructor].
    rewrite List.Forall_forall in Hall. apply (Hall l Hin).
Qed.

Lemma last_In {A : Type} (lines : list A) l : last lines = Some l -> In l lines.
Proof.
  induction lines as [|x [|y lines] IH]; [discriminate| |].
  - intros [= <-]. left. reflexivity.
  - intros H. right. apply IH, H.
Qed.

(** X10: the prefix probabilities of a loaded file.  For a file of data
    lines with comment lines between and after them, well formed and
    with finite frequencies that are not negative, the loop runs its
    body once on each data line, and [S[p]] is, in exact arithmetic, the
    floor plus the sum of the frequencies of all the lines with the
    prefix [p], repeated identifiers included, divided by the sum of
    [S] before normalisation.  When an empty line ends the file,
    [fscanf] stores nothing, its result is not checked, and the body
    runs once more on the last data line: its frequency counts twice. *)
Theorem load_markov_prefix_probability scan_float lines text cs :
  file_lines scan_float lines text ->
  Forall comment_line cs ->
  well_formed_file lines ->
  finite_nonnegative_file lines ->
  load_markov_file scan_float (text ++ concat cs) = load_markov lines /\
  (0 <= file_order lines <= 14 ->
   exists m, load_markov_file scan_float (text ++ concat cs) = Some m) /\
  (forall m p,
     load_markov_file scan_float (text ++ concat cs) = Some m ->
     0 <= p < 4 ^ file_order lines ->
     (S_entry m p ==
      (floor_1e100 + prefix_total (file_order lines) lines p) /
      S_total (file_order lines) lines)%Q) /\
  (forall l m p,
     last lines = Some l ->
     load_markov_file scan_float (text ++ concat cs ++ [newline]) = Some m ->
     0 <= p < 4 ^ file_order lines ->
     (S_entry m p ==
      (floor_1e100 + prefix_total (file_order lines) lines p +
       (if line_prefix (file_order lines) l =? p then snd l else 0)) /
      (S_total (file_order lines) lines + snd l))%Q).
Proof.
  intros Hlines Hcs Hwf _.
  pose proof (load_markov_file_lines scan_float lines text cs Hlines Hcs) as E.
  split; [exact E|]. split; [|split].
  - intros Hk. rewrite E. apply load_markov_total; assumption.
  - intros m p Hm Hp. rewrite E in Hm.
    apply load_markov_S_spec; assumption.
  - intros l m p Hlast Hm Hp.
    rewrite (load_markov_file_empty_line scan_float lines text cs l
               Hlines Hcs Hlast) in Hm.
    destruct (well_formed_file_snoc lines l Hwf (last_In _ _ Hlast))
      as [Hwf' Ho].
    rewrite <- Ho in Hp.
    rewrite (load_markov_S_spec (lines ++ [l]) m p Hwf' Hm Hp), Ho.
    assert (E1 : (prefix_total (file_order lines) (lines ++ [l]) p ==
                  prefix_total (file_order lines) lines p +
                  (if line_prefix (file_order lines) l =? p
                   then snd l else 0))%Q).
    { rewrite prefix_total_app, prefix_total_cons, prefix_total_nil. ring. }
    assert (E2 : (S_total (file_order lines) (lines ++ [l]) ==
                  S_total (file_order lines) lines + snd l)%Q).
    { unfold S_total. rewrite map_app, Qsum_app. cbn [map].
      rewrite Qsum_cons, Qsum_nil. unfold freq_line. ring. }
    rewrite E1, E2. rewrite Qplus_assoc. reflexivity.
Qed.

Lemma half_text_lines : file_lines scan_half half_lines half_text.
Proof.
  assert (Hfield : forall w, w <> [] -> forallb (fun c => negb (is_space c)) w = true ->
                   field_text w).
  { intros w Hne H. split; [exact Hne|]. apply List.Forall_forall.
    intros c Hc. rewrite forallb_forall in H. specialize (H c Hc).
    destruct (is_space c); [discriminate|reflexivity]. }
  assert (Hblank : blank_text (cstr " "))
    by (split; [discriminate|repeat constructor]).
  apply (file_lines_cons scan_half [cstr "; seq id freq" ++ [newline]]
           (cstr "AA", 1 # 2)%Q (cstr "AA aa 0.5 12")
           [(cstr "AC", 1 # 2)%Q] (cstr "AC ac 0.5" ++ [newline])).
  - repeat constructor. exists ";"%char, (cstr " seq id freq").
    split; [reflexivity|]. split; [left; reflexivity|].
    intros H. repeat (destruct H as [H|H]; [discriminate H|]). exact H.
  - exists (cstr " "), (cstr "aa"), (cstr " "), (cstr "0.5"), (cstr " 12").
    split; [reflexivity|].
    split; [apply Hfield; [discriminate|reflexivity]|].
    split; [intros [E|E]; discriminate E|].
    split; [simpl; lia|]. split; [exact Hblank|].
    split; [apply Hfield; [discriminate|reflexivity]|].
    split; [exact Hblank|].
    split; [apply Hfield; [discriminate|reflexivity]|].
    split; [|intros rest; reflexivity].
    intros H. repeat (destruct H as [H|H]; [discriminate H|]). exact H.
  - apply (file_lines_cons scan_half [] (cstr "AC", 1 # 2)%Q
             (cstr "AC ac 0.5") [] []); [constructor| |constructor].
    exists (cstr " "), (cstr "ac"), (cstr " "), (cstr "0.5"), [].
    split; [reflexivity|].
    split; [apply Hfield; [discriminate|reflexivity]|].
    split; [intros [E|E]; discriminate E|].
    split; [simpl; lia|]. split; [exact Hblank|].
    split; [apply Hfield; [discriminate|reflexivity]|].
    split; [exact Hblank|].
    split; [apply Hfield; [discriminate|reflexivity]|].
    split; [intros []|intros rest; reflexivity].
Qed.

Lemma load_markov_prefix_probability_witness :
  load_markov_file scan_half (half_text ++ concat []) =
    load_markov half_lines /\
  exists m,
    load_markov_file scan_half (half_text ++ concat [] ++ [newline]) =
      Some m /\
    (S_entry m 0 ==
     (floor_1e100 + prefix_total (file_order half_lines) half_lines 0 +
      (if line_prefix (file_order half_lines) (cstr "AC", 1 # 2)%Q =? 0
       then snd (cstr "AC", 1 # 2)%Q else 0)) /
     (S_total (file_order half_lines) half_lines +
      snd (cstr "AC", 1 # 2)%Q))%Q.
Proof.
  assert (Hwf : well_formed_file half_lines)
    by (apply well_formed_fileb_spec; reflexivity).
  assert (Hfin : finite_nonnegative_file half_lines)
    by (apply finite_nonnegative_fileb_spec; reflexivity).
  destruct (load_markov_prefix_probability scan_half half_lines half_text []
              half_text_lines (List.Forall_nil _) Hwf Hfin)
    as (E & _ & _ & Hdouble).
  split; [exact E|].
  assert (Hwf2 : well_formed_file (half_lines ++ [(cstr "AC", 1 # 2)%Q]))
    by (apply well_formed_fileb_spec; reflexivity).
  destruct (load_markov_total _ Hwf2) as [m Hm]; [simpl; lia|].
  pose proof (load_markov_file_empty_line scan_half half_lines half_text []
                (cstr "AC", 1 # 2)%Q half_text_lines (List.Forall_nil _) eq_refl)
    as E2.
  assert (Hm' : load_markov_file scan_half
                  (half_text ++ concat [] ++ [newline]) = Some m)
    by (rewrite E2; exact Hm).
  exists m. split; [exact Hm'|].
  apply (Hdouble (cstr "AC", 1 # 2)%Q m 0 eq_refl Hm'). simpl. lia.
Defined.

(** ** The options of word-analysis *)

Section OptionsProperties.
Variable atoi : list ascii -> Z.

Lemma parse_options_length args : forall o o',
  1 <= opt_oligo_length o <= 14 ->
  parse_options atoi args o = Parsed o' ->
  1 <= opt_oligo_length o' <= 14.
Proof.
  induction args as [args IH] using (induction_ltof1 _ (@length _));
    unfold ltof in *.
  intros o o' Ho H. destruct args as [|arg rest].
  { cbn [parse_options] in H. injection H as <-. exact Ho. }
  cbn [parse_options] in H.
  repeat match type of H with
  | (if ?b then _ else _) = _ => destruct b eqn:?
  | match ?r with [] => _ | _ :: _ => _ end = _ => destruct r
  | _ => discriminate H
  end;
  (eapply IH in H; [exact H|cbn [length]; lia|cbn [opt_oligo_length]]);
  try exact Ho.
  match goal with
  | E : (_ <=? _) && (_ <=? _) = true |- _ =>
      apply andb_prop in E as [E1 E2];
      apply Z.leb_le in E1; apply Z.leb_le in E2; lia
  end.
Qed.
End OptionsProperties.

Lemma is_option_eq arg name :
  is_option arg name = true -> arg = cstr name.
Proof.
  unfold is_option, cstr. intros H. apply String.eqb_eq in H. rewrite <- H.
  symmetry. apply list_ascii_of_string_of_list_ascii.
Qed.

Section OptionsTheorems.
Variable atoi : list ascii -> Z.

(** X26: the oligomer length that [main] goes on with is between 1 and
    14: when the parsing loop ends without an exit or a fatal error, the
    length is the default 1 or a value of [-l] that passed the range
    check. *)
Theorem parse_options_length_range args o :
  parse_options atoi args default_options = Parsed o ->
  1 <= opt_oligo_length o <= 14.
Proof.
  apply parse_options_length. cbn [default_options opt_oligo_length]. lia.
Qed.

Lemma parse_options_app_parsed a : forall b o o1,
  parse_options atoi a o = Parsed o1 ->
  parse_options atoi (a ++ b) o = parse_options atoi b o1.
Proof.
  induction a as [a IH] using (induction_ltof1 _ (@length _));
    unfold ltof in *.
  intros b o o1 H. destruct a as [|arg rest].
  { cbn [parse_options] in H. injection H as <-. reflexivity. }
  cbn [parse_options app] in H |- *.
  repeat match type of H with
  | (if ?b then _ else _) = _ => destruct b eqn:?
  | match ?r with [] => _ | _ :: _ => _ end = _ => destruct r
  | _ => discriminate H
  end;
  cbn [app];
  try match goal with
      | E : (_ <=? _) && (_ <=? _) = true |- _ => cbv zeta; rewrite E
      end;
  (apply IH; [cbn [length]; lia|exact H]).
Qed.

(** X27: the arguments are read from left to right, each option acting
    on the options the earlier ones left: when a first list of arguments
    is read to its end, reading it followed by a second list is reading
    the second list from the options the first gave.  So a [--help]
    after it ends the run with the help whatever follows, and a [-1str]
    at its end turns the folding off. *)
Theorem parse_options_app a b o o1 :
  parse_options atoi a o = Parsed o1 ->
  parse_options atoi (a ++ b) o = parse_options atoi b o1 /\
  parse_options atoi (a ++ cstr "--help" :: b) o = ExitHelp /\
  exists o2,
    parse_options atoi (a ++ [cstr "-1str"]) o = Parsed o2 /\
    opt_rc o2 = false.
Proof.
  intros H. split; [apply parse_options_app_parsed, H|].
  split; [rewrite (parse_options_app_parsed a _ o o1 H); reflexivity|].
  rewrite (parse_options_app_parsed a _ o o1 H).
  eexists. split; reflexivity.
Qed.

Lemma parse_options_count_only_In args : forall o o',
  parse_options atoi args o = Parsed o' ->
  opt_count_only o' = true ->
  opt_count_only o = true \/ In (cstr "-count") args.
Proof.
  induction args as [args IH] using (induction_ltof1 _ (@length _));
    unfold ltof in *.
  intros o o' H Hc. destruct args as [|arg rest].
  { cbn [parse_options] in H. injection H as <-. left. exact Hc. }
  cbn [parse_options] in H.
  repeat match type of H with
  | (if ?b then _ else _) = _ => destruct b eqn:?
  | match ?r with [] => _ | _ :: _ => _ end = _ => destruct r
  | _ => discriminate H
  end;
  try (apply IH in H; [|cbn [length]; lia|exact Hc];
       cbn [opt_count_only] in H;
       destruct H as [H|H]; [left; exact H|right; cbn [In]; tauto]).
  right. left. apply is_option_eq. assumption.
Qed.

Lemma parse_options_bg_In args : forall o o',
  parse_options atoi args o = Parsed o' ->
  opt_bg_filename o' <> None ->
  opt_bg_filename o <> None \/ In (cstr "-expfreq") args.
Proof.
  induction args as [args IH] using (induction_ltof1 _ (@length _));
    unfold ltof in *.
  intros o o' H Hc. destruct args as [|arg rest].
  { cbn [parse_options] in H. injection H as <-. left. exact Hc. }
  cbn [parse_options] in H.
  repeat match type of H with
  | (if ?b then _ else _) = _ => destruct b eqn:?
  | match ?r with [] => _ | _ :: _ => _ end = _ => destruct r
  | _ => discriminate H
  end;
  try (apply IH in H; [|cbn [length]; lia|exact Hc];
       cbn [opt_bg_filename] in H;
       destruct H as [H|H]; [left; exact H|right; cbn [In]; tauto]).
  right. left. apply is_option_eq. assumption.
Qed.

(** X28: the defaults stay unless an option changes them: from the
    default options the parsing loop ends in count-only mode only when
    [-count] is among the arguments, and with the name of a background
    file only when [-expfreq] is. *)
Theorem parse_options_defaults_kept args o :
  parse_options atoi args default_options = Parsed o ->
  (opt_count_only o = true -> In (cstr "-count") args) /\
  (opt_bg_filename o <> None -> In (cstr "-expfreq") args).
Proof.
  intros H. split; intros Hc.
  - destruct (parse_options_count_only_In args _ _ H Hc) as [E|Hin];
      [discriminate E|exact Hin].
  - destruct (parse_options_bg_In args _ _ H Hc) as [E|Hin];
      [exfalso; apply E; reflexivity|exact Hin].
Qed.
End OptionsTheorems.

Lemma parse_options_length_range_witness :
  1 <= opt_oligo_length
         (Options (Some (cstr "-1str")) None None true false 6 true) <= 14.
Proof.
  apply (parse_options_length_range atoi_decimal
           [cstr "-l"; cstr "6"; cstr "-count"; cstr "-i"; cstr "-1str"]).
  reflexivity.
Defined.

Lemma parse_options_app_witness :
  parse_options atoi_decimal ([cstr "-l"; cstr "6"] ++ [cstr "-l"]) default_options =
  parse_options atoi_decimal [cstr "-l"]
    (Options None None None true false 6 false) /\
  parse_options atoi_decimal
    ([cstr "-l"; cstr "6"] ++ cstr "--help" :: [cstr "-l"]) default_options =
  ExitHelp /\
  exists o2,
    parse_options atoi_decimal ([cstr "-l"; cstr "6"] ++ [cstr "-1str"])
      default_options = Parsed o2 /\
    opt_rc o2 = false.
Proof.
  apply (parse_options_app atoi_decimal [cstr "-l"; cstr "6"] [cstr "-l"]).
  reflexivity.
Defined.

Lemma parse_options_defaults_kept_witness :
  (opt_count_only (Options None None None true true 1 true) = true ->
   In (cstr "-count") [cstr "-noov"; cstr "-count"]) /\
  (opt_bg_filename (Options None None None true true 1 true) <> None ->
   In (cstr "-expfreq") [cstr "-noov"; cstr "-count"]).
Proof.
  apply (parse_options_defaults_kept atoi_decimal
           [cstr "-noov"; cstr "-count"]
           (Options None None None true true 1 true)).
  reflexivity.
Defined.

(** ** The Markov chain of matrix-scan-quick *)

Lemma rd_lookup {A : Type} (a : list A) (n : nat) :
  rd a (Z.of_nat n) = a !! n.
Proof.
  unfold rd. destruct (Z.ltb_spec (Z.of_nat n) 0); [lia|].
  rewrite Nat2Z.id. reflexivity.
Qed.

Lemma Markov_word2index_loop_sum word len n : forall idx P,
  (n <= length word)%nat -> Z.of_nat n <= len ->
  int_range idx ->
  Markov_word2index_loop word len n (len - Z.of_nat n) idx P =
  Some (wrap (idx + P * weighted_sum (take n word))).
Proof.
  induction n as [|n IH]; intros idx P Hn Hlen Hidx.
  - cbn [Markov_word2index_loop take weighted_sum].
    rewrite Z.mul_0_r, Z.add_0_r, wrap_small by exact Hidx. reflexivity.
  - cbn [Markov_word2index_loop].
    replace (len - (len - Z.of_nat (Datatypes.S n)) - 1) with (Z.of_nat n) by lia.
    rewrite rd_lookup.
    destruct (lookup_lt_is_Some_2 word n ltac:(lia)) as [c Hc].
    rewrite Hc. cbn [mbind option_bind].
    replace (len - Z.of_nat (Datatypes.S n) + 1) with (len - Z.of_nat n) by lia.
    rewrite IH by (try apply wrap_range; lia).
    rewrite (take_S_r _ _ _ Hc), weighted_sum_snoc, wrap_step.
    do 2 f_equal. lia.
Qed.

Lemma Markov_word2index_sum word len :
  0 <= len <= Z.of_nat (length word) ->
  Markov_word2index word len =
  Some (wrap (weighted_sum (take (Z.to_nat len) word))).
Proof.
  intros Hlen. unfold Markov_word2index.
  pose proof (Markov_word2index_loop_sum word len (Z.to_nat len) 0 1
                ltac:(lia) ltac:(lia) ltac:(unfold int_range; lia)) as H.
  rewrite Z2Nat.id in H by lia. rewrite Z.sub_diag in H. rewrite H.
  do 2 f_equal. lia.
Qed.

Lemma Markov_word2index_codes word len :
  0 <= len <= Z.of_nat (length word) -> len <= 15 ->
  Forall (fun v => 0 <= v <= 3) word ->
  Markov_word2index word len =
    Some (weighted_sum (take (Z.to_nat len) word)) /\
  0 <= weighted_sum (take (Z.to_nat len) word) < 4 ^ len.
Proof.
  intros Hlen H15 Hall.
  pose proof (weighted_sum_bounds (take (Z.to_nat len) word)
                (Forall_take _ _ _ Hall)) as B.
  rewrite length_take, Nat.min_l, Z2Nat.id in B by lia.
  pose proof (pow4_le_15 len ltac:(lia)) as Hp.
  rewrite Markov_word2index_sum, wrap_small by (auto; unfold int_range; lia).
  split; [reflexivity|exact B].
Qed.

(** X29: [word2index] of matrix-scan-quick is the encoder of the library
    on symbol values: on the values [char2int] gives for a valid window
    of [0 <= L <= 15] symbols it returns the index that
    [oligo2index_char] returns for the window, without reading outside
    the word. *)
Theorem Markov_word2index_oligo2index_char seq pos L :
  0 <= L <= 15 ->
  valid_window seq pos L ->
  Markov_word2index (symbols seq pos (Z.to_nat L)) L =
  Some (oligo2index_char seq pos L).
Proof.
  intros HL Hv.
  destruct (oligo2index_char_small seq pos L HL Hv) as [E _].
  destruct (Markov_word2index_codes (symbols seq pos (Z.to_nat L)) L)
    as [Hw _].
  - rewrite symbols_length. lia.
  - lia.
  - apply valid_window_symbols, Hv.
  - rewrite Hw, E, firstn_all2 by (rewrite symbols_length; lia). reflexivity.
Qed.

Lemma Markov_word2index_oligo2index_char_witness :
  Markov_word2index (symbols (cstr "xxACGT") 2 (Z.to_nat 4)) 4 =
  Some (oligo2index_char (cstr "xxACGT") 2 4).
Proof.
  apply (Markov_word2index_oligo2index_char (cstr "xxACGT") 2 4).
  - lia.
  - apply valid_windowb_spec. reflexivity.
Defined.

Lemma Markov_alloc_rows o :
  0 <= o <= 14 ->
  exists m, Markov_alloc o = Some m /\ chain_order m = o /\
            chain_rows m /\ chain_row_sums m.
Proof.
  intros Ho. destruct (pow4_14 o Ho) as [Hpos Hle].
  unfold Markov_alloc, pow4_int.
  destruct (Z.ltb_spec o 0); [lia|]. destruct (Z.leb_spec o 15); [|lia].
  cbn [mbind option_bind]. eexists. split; [reflexivity|].
  split; [reflexivity|]. split.
  - unfold chain_rows. cbn [chain_order chain_msize chain_S chain_T].
    rewrite !length_replicate. repeat split; try lia.
    apply Forall_replicate. reflexivity.
  - intros p sp row HS HT. cbn [chain_S chain_T] in HS, HT.
    apply lookup_replicate in HS as [-> _].
    apply lookup_replicate in HT as [-> _].
    unfold Qsum. cbn [replicate fold_left]. ring.
Qed.

Lemma Markov_count_step_rows m s i :
  chain_rows m -> chain_row_sums m ->
  0 <= i -> i + chain_order m < Z.of_nat (length s) ->
  Forall (fun v => 0 <= v <= 3) s ->
  exists m',
    Markov_count_step m s i = Some m' /\
    chain_order m' = chain_order m /\
    chain_rows m' /\ chain_row_sums m' /\
    (Qsum (chain_S m') == Qsum (chain_S m) + 1)%Q.
Proof.
  intros (Ho & Hm & HS & HT & Hrows) Hsum Hi Hlen Hall.
  unfold Markov_count_step.
  (* the suffix *)
  replace (i + chain_order m) with (Z.of_nat (Z.to_nat (i + chain_order m)))
    by lia.
  rewrite rd_lookup.
  destruct (lookup_lt_is_Some_2 s (Z.to_nat (i + chain_order m)) ltac:(lia))
    as [c Hc].
  rewrite Hc. cbn [mbind option_bind].
  pose proof (proj1 (Forall_lookup _ _) Hall _ _ Hc) as Hcr. cbn beta in Hcr.
  (* the prefix *)
  destruct (Markov_word2index_codes (drop (Z.to_nat i) s) (chain_order m))
    as [Hw Hwr].
  { rewrite length_drop. lia. }
  { lia. }
  { apply Forall_drop, Hall. }
  rewrite Hw. cbn [mbind option_bind].
  set (p := weighted_sum (take (Z.to_nat (chain_order m)) (drop (Z.to_nat i) s)))
    in *.
  replace p with (Z.of_nat (Z.to_nat p)) by lia.
  rewrite !rd_lookup.
  destruct (lookup_lt_is_Some_2 (chain_T m) (Z.to_nat p) ltac:(lia)) as [row Hrow].
  rewrite Hrow. cbn [mbind option_bind].
  pose proof (proj1 (Forall_lookup _ _) Hrows _ _ Hrow) as Hrl. cbn beta in Hrl.
  replace c with (Z.of_nat (Z.to_nat c)) by lia.
  rewrite rd_lookup.
  destruct (lookup_lt_is_Some_2 row (Z.to_nat c) ltac:(lia)) as [t Ht].
  rewrite Ht. cbn [mbind option_bind].
  unfold wr.
  destruct (Z.leb_spec 0 (Z.of_nat (Z.to_nat c))); [|lia].
  destruct (Z.ltb_spec (Z.of_nat (Z.to_nat c)) (Z.of_nat (length row))); [|lia].
  cbn [andb mbind option_bind].
  destruct (Z.leb_spec 0 (Z.of_nat (Z.to_nat p))); [|lia].
  destruct (Z.ltb_spec (Z.of_nat (Z.to_nat p)) (Z.of_nat (length (chain_T m))));
    [|lia].
  cbn [andb mbind option_bind].
  destruct (lookup_lt_is_Some_2 (chain_S m) (Z.to_nat p) ltac:(lia)) as [sp Hsp].
  rewrite Hsp. cbn [mbind option_bind].
  destruct (Z.ltb_spec (Z.of_nat (Z.to_nat p)) (Z.of_nat (length (chain_S m))));
    [|lia].
  cbn [andb mbind option_bind]. rewrite !Nat2Z.id.
  eexists. split; [reflexivity|]. split; [reflexivity|]. split; [|split].
  - unfold chain_rows. cbn [chain_order chain_msize chain_S chain_T].
    rewrite !length_insert. repeat split; try lia.
    apply Forall_insert; [exact Hrows|]. rewrite length_insert. exact Hrl.
  - intros q sq rq HSq HTq. cbn [chain_S chain_T] in HSq, HTq.
    destruct (Nat.eq_dec q (Z.to_nat p)) as [->|Hne].
    + rewrite list_lookup_insert_eq in HSq by lia.
      rewrite list_lookup_insert_eq in HTq by lia.
      injection HSq as <-. injection HTq as <-.
      rewrite (Qsum_insert _ _ _ _ Ht), (Hsum _ _ _ Hsp Hrow). ring.
    + rewrite list_lookup_insert_ne in HSq by auto.
      rewrite list_lookup_insert_ne in HTq by auto.
      exact (Hsum _ _ _ HSq HTq).
  - cbn [chain_S]. rewrite (Qsum_insert _ _ _ _ Hsp). ring.
Qed.

Lemma Markov_count_loop_rows s n : forall m i,
  chain_rows m -> chain_row_sums m ->
  0 <= i -> i + Z.of_nat n + chain_order m <= Z.of_nat (length s) ->
  Forall (fun v => 0 <= v <= 3) s ->
  exists m',
    Markov_count_loop m s n i = Some m' /\
    chain_order m' = chain_order m /\
    chain_rows m' /\ chain_row_sums m' /\
    (Qsum (chain_S m') == Qsum (chain_S m) + inject_Z (Z.of_nat n))%Q.
Proof.
  induction n as [|n IH]; intros m i Hrows Hsum Hi Hlen Hall.
  - exists m. split; [reflexivity|]. split; [reflexivity|].
    split; [exact Hrows|]. split; [exact Hsum|].
    change (inject_Z (Z.of_nat 0)) with 0%Q. ring.
  - cbn [Markov_count_loop].
    destruct (Markov_count_step_rows m s i Hrows Hsum Hi ltac:(lia) Hall)
      as (m1 & Hstep & Ho1 & Hrows1 & Hsum1 & Htot1).
    rewrite Hstep. cbn [mbind option_bind].
    destruct (IH m1 (i + 1) Hrows1 Hsum1 ltac:(lia) ltac:(rewrite Ho1; lia) Hall)
      as (m' & Hloop & Ho' & Hrows' & Hsum' & Htot').
    exists m'. split; [exact Hloop|]. split; [congruence|].
    split; [exact Hrows'|]. split; [exact Hsum'|].
    rewrite Htot', Htot1, Nat2Z.inj_succ. unfold Z.succ.
    rewrite inject_Z_plus. change (inject_Z 1) with 1%Q. ring.
Qed.

(** X30: the counts of matrix-scan-quick keep each entry of [S] one above
    the sum of its row of [T].  [alloc] of an order from 0 to 14 gives a
    chain with this property, and [count] over [len] positions of a
    sequence of codes 0 to 3 that holds [len + order] codes is defined,
    keeps it, and adds [len] to the sum of [S]. *)
Theorem Markov_count_row_sums :
  (forall o, 0 <= o <= 14 ->
     exists m, Markov_alloc o = Some m /\ chain_order m = o /\
               chain_rows m /\ chain_row_sums m) /\
  (forall m s len,
     chain_rows m -> chain_row_sums m ->
     0 <= len -> len + chain_order m <= Z.of_nat (length s) ->
     Forall (fun v => 0 <= v <= 3) s ->
     exists m',
       Markov_count m s len = Some m' /\
       chain_order m' = chain_order m /\
       chain_rows m' /\ chain_row_sums m' /\
       (Qsum (chain_S m') == Qsum (chain_S m) + inject_Z len)%Q).
Proof.
  split; [exact Markov_alloc_rows|].
  intros m s len Hrows Hsum Hlen Hs Hall. unfold Markov_count.
  destruct (Markov_count_loop_rows s (Z.to_nat len) m 0 Hrows Hsum
              ltac:(lia) ltac:(lia) Hall)
    as (m' & Hloop & Ho & Hrows' & Hsum' & Htot).
  exists m'. rewrite Z2Nat.id in Htot by lia. auto.
Qed.
